(** * rautee: rule-based partitioning of a vulnerability entity graph

    A shallow embedding of [security_data.py], [rules/rule.py],
    [rules/affected_entity_rule.py] and [rules/affected_entity_tag_rule.py],
    followed by the properties of section 8 of the specification.

    Python objects that are only read after construction are values here.
    [AffectedEntity] instances are the exception: [RelatedEntity] keeps them
    in a [weakref.WeakSet], so their identity and their lifetime are
    observable.  They live in a [Store] of reference counts, and every
    function that allocates or releases one threads the store. *)

From Stdlib Require Import QArith Ascii DecimalString.
From stdpp Require Import gmap strings list fin_maps.
Close Scope Q_scope.

(** ** Python results: a value or a raised exception *)

Inductive exn :=
  | KeyError (key : string)
  | ValueError (msg : string)
  | ValidationError (field : string).

Inductive result (A : Type) :=
  | Ok (a : A)
  | Raise (e : exn).
Arguments Ok {A} a.
Arguments Raise {A} e.

Definition is_ok {A} (r : result A) : bool :=
  match r with Ok _ => true | Raise _ => false end.

(** Numbers as the configuration supplies them: a JSON integer becomes a
    Python [int], a JSON real a Python [float].  A finite float is the
    rational it denotes; the code only compares numbers, and Python compares
    [int] with [float] exactly. *)
Inductive number :=
  | PyInt (z : Z)
  | PyFloat (q : Q).

Definition to_Q (n : number) : Q :=
  match n with PyInt z => inject_Z z | PyFloat q => q end.

(** Truthiness of an optional number: [None], [0] and [0.0] are falsy. *)
Definition truthy (n : option number) : bool :=
  match n with
  | None => false
  | Some x => negb (Qeq_bool (to_Q x) 0)
  end.

Definition Qlt_bool (x y : Q) : bool := negb (Qle_bool y x).

(** [str(bool)] *)
Definition str_bool (b : bool) : string := if b then "True" else "False".

(** An insertion-ordered [dict] with string keys. *)
Abbreviation dict V := (list (string * V)) (only parsing).

Definition dict_keys {V} (d : dict V) : list string := d.*1.
Definition dict_values {V} (d : dict V) : list V := d.*2.

Fixpoint dict_get {V} (k : string) (d : dict V) : option V :=
  match d with
  | [] => None
  | (k', v) :: d' => if decide (k = k') then Some v else dict_get k d'
  end.

(** [d[k] = v]: an existing key keeps its position. *)
Fixpoint dict_set {V} (k : string) (v : V) (d : dict V) : dict V :=
  match d with
  | [] => [(k, v)]
  | (k', v') :: d' =>
      if decide (k = k') then (k, v) :: d' else (k', v') :: dict_set k v d'
  end.

(** [del d[k]]: the removed value and the remaining dict, or [None] where
    Python raises [KeyError]. *)
Fixpoint dict_del {V} (k : string) (d : dict V) : option (V * dict V) :=
  match d with
  | [] => None
  | (k', v) :: d' =>
      if decide (k = k') then Some (v, d')
      else match dict_del k d' with
           | Some (x, d'') => Some (x, (k', v) :: d'')
           | None => None
           end
  end.

(** ** The store of [AffectedEntity] instances *)

Abbreviation addr := positive (only parsing).

(** [refs] gives every live instance its number of strong references
    (CPython frees an instance, and clears the weak references to it, the
    moment that number reaches zero); [next] is the next unused address.
    Addresses are never reused, so a weak reference is an address that may
    have left [refs]. *)
Record Store := {
  refs : gmap positive nat;
  next : positive;
}.

Definition empty_store : Store := {| refs := ∅; next := 1%positive |}.

Definition alive (st : Store) (a : addr) : Prop := is_Some (refs st !! a).

#[global] Instance alive_dec st a : Decision (alive st a).
Proof. unfold alive. apply _. Defined.

Definition alloc (st : Store) : addr * Store :=
  (next st, {| refs := <[next st := 1]> (refs st); next := Pos.succ (next st) |}).

Definition incref (a : addr) (st : Store) : Store :=
  {| refs := alter S a (refs st); next := next st |}.

Definition decref (a : addr) (st : Store) : Store :=
  {| refs := match refs st !! a with
             | Some (S (S n)) => <[a := S n]> (refs st)
             | _ => delete a (refs st)
             end;
     next := next st |}.

(** Stateful computations that may raise. *)
Definition M (A : Type) : Type := Store → result (A * Store).

Definition ret {A} (a : A) : M A := λ st, Ok (a, st).

Definition bind {A B} (m : M A) (k : A → M B) : M B :=
  λ st, match m st with
        | Ok (a, st') => k a st'
        | Raise e => Raise e
        end.

Definition raise {A} (e : exn) : M A := λ _, Raise e.

Definition lift {A} (r : result A) : M A :=
  λ st, match r with Ok a => Ok (a, st) | Raise e => Raise e end.

Definition get_store : M Store := λ st, Ok (st, st).

Definition modify (f : Store → Store) : M unit := λ st, Ok (tt, f st).

Declare Scope py_scope.
Delimit Scope py_scope with py.
Notation "x <- m ;; k" := (bind m (λ x, k))
  (at level 100, m at next level, right associativity) : py_scope.
Notation "m ;; k" := (bind m (λ _, k))
  (at level 100, right associativity) : py_scope.
Local Open Scope py_scope.

(** ** security_data.py *)

(** A tag is a [Dict]; the code reads its ['stringRepresentation'] key. *)
Abbreviation Tag := (gmap string string) (only parsing).

Module AffectedEntity.
Record t := mk {
  entity_id : string;
  entity_name : string;
  tags : list Tag;
}.
End AffectedEntity.

#[global] Instance AffectedEntity_eq_dec : EqDecision AffectedEntity.t.
Proof. solve_decision. Defined.

(** A reference to an [AffectedEntity] instance: where it lives and what it
    holds.  No code assigns a field of an instance after [__init__], so the
    fields travel with the reference; whether the instance is still alive is
    a question for the store. *)
Record Ref := {
  addr_of : addr;
  obj : AffectedEntity.t;
}.

#[global] Instance Ref_eq_dec : EqDecision Ref.
Proof. solve_decision. Defined.

Module RelatedEntity.
(** [affected_entities] is the [weakref.WeakSet]: the references that were
    put in.  The members Python shows are the live ones, [WeakSet_iter]. *)
Record t := mk {
  entity_id : string;
  entity_name : string;
  affected_entities : list Ref;
}.
End RelatedEntity.

Definition WeakSet_iter (st : Store) (ws : list Ref) : list Ref :=
  filter (λ x, alive st (addr_of x)) ws.

(** [len(ws)] as a truth value *)
Definition WeakSet_nonempty (st : Store) (ws : list Ref) : Prop :=
  0 < length (WeakSet_iter st ws).

#[global] Instance WeakSet_nonempty_dec st ws : Decision (WeakSet_nonempty st ws).
Proof. unfold WeakSet_nonempty. apply _. Defined.

Definition string_representation (t : Tag) : result string :=
  match t !! "stringRepresentation" with
  | Some s => Ok s
  | None => Raise (KeyError "stringRepresentation")
  end.

(** [[f(x) for x in l]] where [f] may raise *)
Fixpoint traverse {A B} (f : A → result B) (l : list A) : result (list B) :=
  match l with
  | [] => Ok []
  | x :: l' =>
      match f x with
      | Raise e => Raise e
      | Ok y => match traverse f l' with
                | Raise e => Raise e
                | Ok ys => Ok (y :: ys)
                end
      end
  end.

Module SecurityData.

Record t := mk {
  identifier : string;
  display_id : string;
  title : string;
  url : string;
  risk_score : Q;
  risk_level : string;
  exposure : string;
  data_assets : string;
  technology : string;
  description : string;
  vulnerable_components : gset string;
  affected_entities : dict Ref;
  related_hosts : list RelatedEntity.t;
}.

Definition with_entities (d : dict Ref) (hosts : list RelatedEntity.t) (self : t) : t :=
  mk (identifier self) (display_id self) (title self) (url self)
     (risk_score self) (risk_level self) (exposure self) (data_assets self)
     (technology self) (description self) (vulnerable_components self) d hosts.

Definition affected_entity_names (self : t) : list string :=
  (λ x, AffectedEntity.entity_name (obj x)) <$> dict_values (affected_entities self).

Definition affected_entity_tags (self : t) : result (gset string) :=
  match traverse string_representation
          (x ← dict_values (affected_entities self); AffectedEntity.tags (obj x)) with
  | Ok l => Ok (list_to_set l)
  | Raise e => Raise e
  end.

Definition related_hostnames (st : Store) (self : t) : list string :=
  RelatedEntity.entity_name <$>
    filter (λ x, WeakSet_nonempty st (RelatedEntity.affected_entities x)) (related_hosts self).

(** [for x in ids: del self.affected_entities[x]].  The dict holds a strong
    reference to the instance it loses. *)
Fixpoint del_all (ids : list string) (d : dict Ref) : M (dict Ref) :=
  match ids with
  | [] => ret d
  | x :: ids' =>
      match dict_del x d with
      | None => raise (KeyError x)
      | Some (r, d') => modify (decref (addr_of r)) ;; del_all ids' d'
      end
  end.

Definition remove_affected_entities_by_name
    (self : t) (entity_names : gset string) (remove_matches : bool) : M t :=
  let entity_ids : gset string :=
    list_to_set ((λ x, AffectedEntity.entity_id (obj x)) <$>
      filter (λ x, AffectedEntity.entity_name (obj x) ∈ entity_names)
             (dict_values (affected_entities self))) in
  let entity_ids_to_delete :=
    if remove_matches then entity_ids
    else list_to_set (dict_keys (affected_entities self)) ∖ entity_ids in
  d <- del_all (elements entity_ids_to_delete) (affected_entities self) ;;
  ret (with_entities d (related_hosts self) self).

(** [any([x in tags for x in entity_tags])] for one affected entity *)
Definition has_any_tag (entity_tags : gset string) (ae : AffectedEntity.t) : result bool :=
  match traverse string_representation (AffectedEntity.tags ae) with
  | Raise e => Raise e
  | Ok tags => Ok (existsb (λ x, bool_decide (x ∈ tags)) (elements entity_tags))
  end.

Fixpoint tagged_entity_ids (entity_tags : gset string) (l : list Ref) : result (gset string) :=
  match l with
  | [] => Ok ∅
  | ae :: l' =>
      match has_any_tag entity_tags (obj ae) with
      | Raise e => Raise e
      | Ok b =>
          match tagged_entity_ids entity_tags l' with
          | Raise e => Raise e
          | Ok ids => Ok (if b then {[AffectedEntity.entity_id (obj ae)]} ∪ ids else ids)
          end
      end
  end.

Definition remove_affected_entities_by_tags
    (self : t) (entity_tags : gset string) (remove_matches : bool) : M t :=
  entity_ids <- lift (tagged_entity_ids entity_tags (dict_values (affected_entities self))) ;;
  let entity_ids_to_delete :=
    if remove_matches then entity_ids
    else list_to_set (dict_keys (affected_entities self)) ∖ entity_ids in
  d <- del_all (elements entity_ids_to_delete) (affected_entities self) ;;
  ret (with_entities d (related_hosts self) self).

Definition remove_affected_entities_by_related_entity_name
    (self : t) (entity_names : gset string) (remove_matches : bool)
    (attribute : list RelatedEntity.t) : M (dict Ref) :=
  st <- get_store ;;
  let affected_entity_ids : gset string :=
    list_to_set (related_host ← attribute;
                 affected_entity ← WeakSet_iter st (RelatedEntity.affected_entities related_host);
                 if decide (RelatedEntity.entity_name related_host ∈ entity_names)
                 then [AffectedEntity.entity_id (obj affected_entity)] else []) in
  let affected_entity_ids_to_remove : gset string :=
    if remove_matches then affected_entity_ids
    else list_to_set (filter (λ x, x ∉ affected_entity_ids) (dict_keys (affected_entities self))) in
  del_all (elements affected_entity_ids_to_remove) (affected_entities self).

Definition remove_affected_entities_by_related_hostnames
    (self : t) (hostnames : gset string) (remove_matches : bool) : M t :=
  d <- remove_affected_entities_by_related_entity_name
         self hostnames remove_matches (related_hosts self) ;;
  st <- get_store ;;
  ret (with_entities d
         (filter (λ x, WeakSet_nonempty st (RelatedEntity.affected_entities x)) (related_hosts self))
         self).

End SecurityData.

(** ** copy.deepcopy on a SecurityData *)

(** The memo of one [copy.deepcopy] call: original address to copy.  The
    memo holds a strong reference to every copy until the call returns. *)
Abbreviation memo := (list (positive * Ref)) (only parsing).

Fixpoint memo_get (a : addr) (m : memo) : option Ref :=
  match m with
  | [] => None
  | (a', y) :: m' => if decide (a = a') then Some y else memo_get a m'
  end.

(** [copy.deepcopy(x, memo)] for an [AffectedEntity]: the copy made earlier
    in this call, or a new instance with copies of the fields. *)
Definition deepcopy_AffectedEntity (x : Ref) (m : memo) : M (Ref * memo) :=
  match memo_get (addr_of x) m with
  | Some y => ret (y, m)
  | None =>
      λ st, let '(a, st') := alloc st in
            let y := {| addr_of := a; obj := obj x |} in
            Ok ((y, (addr_of x, y) :: m), st')
  end.

(** The copy of the [affected_entities] dict; each entry of the new dict is
    one more strong reference to the copy it holds. *)
Fixpoint deepcopy_dict (d : dict Ref) (m : memo) : M (dict Ref * memo) :=
  match d with
  | [] => ret ([], m)
  | (k, x) :: d' =>
      r <- deepcopy_AffectedEntity x m ;;
      modify (incref (addr_of r.1)) ;;
      r' <- deepcopy_dict d' r.2 ;;
      ret ((k, r.1) :: r'.1, r'.2)
  end.

(** [[copy.deepcopy(x.__repr__.__self__, memo) for x in v]] *)
Fixpoint deepcopy_members (l : list Ref) (m : memo) : M (list Ref * memo) :=
  match l with
  | [] => ret ([], m)
  | x :: l' =>
      r <- deepcopy_AffectedEntity x m ;;
      r' <- deepcopy_members l' r.2 ;;
      ret (r.1 :: r'.1, r'.2)
  end.

(** [RelatedEntity.__deepcopy__]: the strings are copied as they are, the
    WeakSet is rebuilt from the copies of its live members. *)
Definition RelatedEntity_deepcopy (self : RelatedEntity.t) (m : memo)
  : M (RelatedEntity.t * memo) :=
  st <- get_store ;;
  r <- deepcopy_members (WeakSet_iter st (RelatedEntity.affected_entities self)) m ;;
  ret (RelatedEntity.mk (RelatedEntity.entity_id self) (RelatedEntity.entity_name self) r.1,
       r.2).

Fixpoint deepcopy_hosts (l : list RelatedEntity.t) (m : memo)
  : M (list RelatedEntity.t * memo) :=
  match l with
  | [] => ret ([], m)
  | h :: l' =>
      r <- RelatedEntity_deepcopy h m ;;
      r' <- deepcopy_hosts l' r.2 ;;
      ret (r.1 :: r'.1, r'.2)
  end.

(** The memo goes away when [copy.deepcopy] returns. *)
Definition release_memo (m : memo) : M unit :=
  modify (λ st, foldl (λ s e, decref (addr_of e.2) s) st m).

(** [copy.deepcopy(security_data)]: the fields are copied in declaration
    order, [affected_entities] before [related_hosts], under one memo. *)
Definition deepcopy (self : SecurityData.t) : M SecurityData.t :=
  r <- deepcopy_dict (SecurityData.affected_entities self) [] ;;
  r' <- deepcopy_hosts (SecurityData.related_hosts self) r.2 ;;
  release_memo r'.2 ;;
  ret (SecurityData.with_entities r.1 r'.1 self).

(** ** SecurityData.create *)

(** connection/dynatrace_connection.py *)
Module EntityDetails.
Record t := mk {
  entity_id : string;
  entity_name : string;
  tags : list Tag;
}.
End EntityDetails.

(** The parsed JSON of one security problem, with the keys [create] reads.
    A key the JSON object lacks is [None]. *)
Module Raw.
Record RiskAssessment := {
  riskScore : option Q;
  riskLevel : option string;
  exposure : option string;
  dataAssets : option string;
}.
Record VulnerableComponent := {
  displayName : option string;
}.
(** One element of ['relatedEntities']['hosts'] *)
Record Host := {
  id : option string;
  host_affectedEntities : option (list string);   (* key 'affectedEntities' *)
}.
Record RelatedEntities := {
  hosts : option (list Host);
}.
Record SecurityProblem := {
  securityProblemId : option string;
  displayId : option string;
  title : option string;
  url : option string;
  riskAssessment : option RiskAssessment;
  description : option string;
  technology : option string;
  vulnerableComponents : option (list VulnerableComponent);
  affectedEntities : option (list string);
  relatedEntities : option RelatedEntities;
}.
End Raw.

(** [d[key]] on a JSON object or a lookup table *)
Definition require {A} (key : string) (o : option A) : M A :=
  match o with
  | Some a => ret a
  | None => raise (KeyError key)
  end.

(** [str.upper], on the ASCII letters *)
Definition upper_ascii (c : ascii) : ascii :=
  let n := nat_of_ascii c in
  if (97 <=? n)%nat && (n <=? 122)%nat then ascii_of_nat (n - 32) else c.

Fixpoint upper (s : string) : string :=
  match s with
  | EmptyString => EmptyString
  | String c s' => String (upper_ascii c) (upper s')
  end.

(** The list comprehension that builds the [AffectedEntity] instances; the
    list holds the first strong reference to each. *)
Fixpoint new_affected_entities
    (all_affected_entities : gmap string EntityDetails.t) (ids : list string) : M (list Ref) :=
  match ids with
  | [] => ret []
  | x :: ids' =>
      e <- require x (all_affected_entities !! x) ;;
      z <- (λ st, let '(a, st') := alloc st in
                  Ok ({| addr_of := a;
                         obj := AffectedEntity.mk (EntityDetails.entity_id e)
                                  (EntityDetails.entity_name e) (EntityDetails.tags e) |}, st')) ;;
      zs <- new_affected_entities all_affected_entities ids' ;;
      ret (z :: zs)
  end.

(** [[z for z in affected_entities if z.entity_id in x['affectedEntities']]]:
    the condition, and with it the key lookup, runs once per [z]. *)
Fixpoint host_members (x : Raw.Host) (affected_entities : list Ref) : M (list Ref) :=
  match affected_entities with
  | [] => ret []
  | z :: l =>
      ids <- require "affectedEntities" (Raw.host_affectedEntities x) ;;
      zs <- host_members x l ;;
      ret (if decide (AffectedEntity.entity_id (obj z) ∈ ids) then z :: zs else zs)
  end.

Fixpoint new_related_hosts
    (all_related_hosts : gmap string EntityDetails.t) (affected_entities : list Ref)
    (hosts : list Raw.Host) : M (list RelatedEntity.t) :=
  match hosts with
  | [] => ret []
  | x :: hosts' =>
      i <- require "id" (Raw.id x) ;;
      e <- require i (all_related_hosts !! i) ;;
      zs <- host_members x affected_entities ;;
      hs <- new_related_hosts all_related_hosts affected_entities hosts' ;;
      ret (RelatedEntity.mk (EntityDetails.entity_id e) (EntityDetails.entity_name e) zs :: hs)
  end.

Fixpoint display_names (l : list Raw.VulnerableComponent) : M (list string) :=
  match l with
  | [] => ret []
  | x :: l' =>
      n <- require "displayName" (Raw.displayName x) ;;
      ns <- display_names l' ;;
      ret (n :: ns)
  end.

(** [{x.entity_id: x for x in affected_entities}]: a later instance with the
    same id takes the place, and the dict's reference, of the earlier one. *)
Fixpoint dict_of_entities (l : list Ref) (d : dict Ref) : M (dict Ref) :=
  match l with
  | [] => ret d
  | x :: l' =>
      let k := AffectedEntity.entity_id (obj x) in
      modify (incref (addr_of x)) ;;
      match dict_get k d with
      | Some old => modify (decref (addr_of old))
      | None => ret tt
      end ;;
      dict_of_entities l' (dict_set k x d)
  end.

(** The body of the [try]: the local list [affected_entities] and [data]. *)
Definition create_data
    (security_problem : Raw.SecurityProblem)
    (all_affected_entities all_related_hosts : gmap string EntityDetails.t)
  : M (list Ref * SecurityData.t) :=
  ids <- require "affectedEntities" (Raw.affectedEntities security_problem) ;;
  affected_entities <- new_affected_entities all_affected_entities ids ;;
  rel <- require "relatedEntities" (Raw.relatedEntities security_problem) ;;
  hosts <- require "hosts" (Raw.hosts rel) ;;
  related_hosts <- new_related_hosts all_related_hosts affected_entities hosts ;;
  identifier <- require "securityProblemId" (Raw.securityProblemId security_problem) ;;
  display_id <- require "displayId" (Raw.displayId security_problem) ;;
  title <- require "title" (Raw.title security_problem) ;;
  url <- require "url" (Raw.url security_problem) ;;
  risk <- require "riskAssessment" (Raw.riskAssessment security_problem) ;;
  risk_score <- require "riskScore" (Raw.riskScore risk) ;;
  risk_level <- require "riskLevel" (Raw.riskLevel risk) ;;
  exposure <- require "exposure" (Raw.exposure risk) ;;
  data_assets <- require "dataAssets" (Raw.dataAssets risk) ;;
  description <- require "description" (Raw.description security_problem) ;;
  technology <- require "technology" (Raw.technology security_problem) ;;
  components <- require "vulnerableComponents" (Raw.vulnerableComponents security_problem) ;;
  names <- display_names components ;;
  d <- dict_of_entities affected_entities [] ;;
  ret (affected_entities,
       SecurityData.mk identifier display_id title url risk_score risk_level exposure
         data_assets technology description (list_to_set names) d related_hosts).

(** The constructor call on [data]: pydantic checks [url] and the range of
    [risk_score], and [enforce_uppercase] rewrites four fields.  What makes
    a string an [AnyHttpUrl] is pydantic's business and a parameter here. *)
Definition validate (AnyHttpUrl : string → bool) (data : SecurityData.t) : M SecurityData.t :=
  if negb (AnyHttpUrl (SecurityData.url data)) then raise (ValidationError "url")
  else if negb (Qle_bool 0 (SecurityData.risk_score data)
                && Qle_bool (SecurityData.risk_score data) 10)
  then raise (ValidationError "risk_score")
  else ret (SecurityData.mk
              (SecurityData.identifier data) (SecurityData.display_id data)
              (SecurityData.title data) (SecurityData.url data)
              (SecurityData.risk_score data)
              (upper (SecurityData.risk_level data))
              (upper (SecurityData.exposure data))
              (upper (SecurityData.data_assets data))
              (upper (SecurityData.technology data))
              (SecurityData.description data)
              (SecurityData.vulnerable_components data)
              (SecurityData.affected_entities data)
              (SecurityData.related_hosts data)).

(** [except KeyError as ex: raise ValueError(...)] *)
Definition missing_data {A} (m : M A) : M A :=
  λ st, match m st with
        | Raise (KeyError k) => Raise (ValueError ("SecurityData: missing data; '" +:+ k +:+ "'"))
        | r => r
        end.

(** [SecurityData.create].  On return the local list lets go of the
    instances; those the dict did not keep are freed. *)
Definition create
    (AnyHttpUrl : string → bool)
    (security_problem : Raw.SecurityProblem)
    (all_affected_entities all_related_hosts : gmap string EntityDetails.t)
  : M SecurityData.t :=
  r <- missing_data (create_data security_problem all_affected_entities all_related_hosts) ;;
  sd <- validate AnyHttpUrl r.2 ;;
  modify (λ st, foldl (λ s z, decref (addr_of z) s) st r.1) ;;
  ret sd.

(** ** rules/operators.py *)

Module operators.

(** Modelled from the spec: rules/operators.py is not among the sources.
    Section 4.2 has six pure, total functions over (candidate, pattern);
    this is equals. *)
Definition equals (candidate pattern : string) : bool :=
  bool_decide (candidate = pattern).

(** Modelled from the spec: rules/operators.py is not among the sources;
    starts-with, true when [pattern] is a prefix of [candidate]. *)
Definition startswith (candidate pattern : string) : bool :=
  String.prefix pattern candidate.

(** Modelled from the spec: rules/operators.py is not among the sources;
    contains, true when [pattern] occurs somewhere in [candidate]. *)
Fixpoint contains (candidate pattern : string) : bool :=
  String.prefix pattern candidate ||
  match candidate with
  | EmptyString => false
  | String _ rest => contains rest pattern
  end.

(** Modelled from the spec: rules/operators.py is not among the sources;
    the case-folding rule the ignoring-case variants apply to both operands
    (here on the ASCII letters). *)
Definition lower_ascii (c : ascii) : ascii :=
  let n := nat_of_ascii c in
  if (65 <=? n)%nat && (n <=? 90)%nat then ascii_of_nat (n + 32) else c.

(** Modelled from the spec: rules/operators.py is not among the sources;
    see [lower_ascii]. *)
Fixpoint lower (s : string) : string :=
  match s with
  | EmptyString => EmptyString
  | String c s' => String (lower_ascii c) (lower s')
  end.

(** Modelled from the spec: rules/operators.py is not among the sources;
    the ignoring-case variants normalise both operands and delegate. *)
Definition equals_ignore_case (candidate pattern : string) : bool :=
  equals (lower candidate) (lower pattern).

(** Modelled from the spec: rules/operators.py is not among the sources;
    see [equals_ignore_case]. *)
Definition startswith_ignore_case (candidate pattern : string) : bool :=
  startswith (lower candidate) (lower pattern).

(** Modelled from the spec: rules/operators.py is not among the sources;
    see [equals_ignore_case]. *)
Definition contains_ignore_case (candidate pattern : string) : bool :=
  contains (lower candidate) (lower pattern).

End operators.

(** ** rules/affected_entity_rule.py *)

Module AffectedEntityRule.

Definition SUPPORTED_OPERATORS : dict (string → string → bool) :=
  [("startswith", operators.startswith);
   ("startswithIgnoreCase", operators.startswith_ignore_case);
   ("equals", operators.equals);
   ("equalsIgnoreCase", operators.equals_ignore_case);
   ("contains", operators.contains);
   ("containsIgnoreCase", operators.contains_ignore_case)].

Definition target_attribute_name : string := "affected_entity_names".

Definition get_match_and_remainder
    (security_data : SecurityData.t) (matching_entity_names : gset string)
  : M (SecurityData.t * SecurityData.t) :=
  remainder <- deepcopy security_data ;;
  security_data <- SecurityData.remove_affected_entities_by_name
                     security_data matching_entity_names false ;;
  remainder <- SecurityData.remove_affected_entities_by_name
                 remainder matching_entity_names true ;;
  ret (security_data, remainder).

End AffectedEntityRule.

(** ** rules/affected_entity_tag_rule.py *)

Module AffectedEntityTagRule.

Definition SUPPORTED_OPERATORS : dict (string → string → bool) :=
  [("startswith", operators.startswith);
   ("startswithIgnoreCase", operators.startswith_ignore_case);
   ("equals", operators.equals);
   ("equalsIgnoreCase", operators.equals_ignore_case);
   ("contains", operators.contains);
   ("containsIgnoreCase", operators.contains_ignore_case)].

Definition target_attribute_name : string := "affected_entity_tags".

Definition get_match_and_remainder
    (security_data : SecurityData.t) (matching_tags : gset string)
  : M (SecurityData.t * SecurityData.t) :=
  remainder <- deepcopy security_data ;;
  security_data <- SecurityData.remove_affected_entities_by_tags
                     security_data matching_tags false ;;
  remainder <- SecurityData.remove_affected_entities_by_tags
                 remainder matching_tags true ;;
  ret (security_data, remainder).

End AffectedEntityTagRule.

(** ** rules/hostname_rule.py *)

Module HostnameRule.

(** Modelled from the spec: rules/hostname_rule.py is not among the sources.
    Section 4.3: the variants differ only in the view they read and in the
    removal method of their partition strategy, so the operator table is
    that of the other two. *)
Definition SUPPORTED_OPERATORS : dict (string → string → bool) :=
  [("startswith", operators.startswith);
   ("startswithIgnoreCase", operators.startswith_ignore_case);
   ("equals", operators.equals);
   ("equalsIgnoreCase", operators.equals_ignore_case);
   ("contains", operators.contains);
   ("containsIgnoreCase", operators.contains_ignore_case)].

(** Modelled from the spec: rules/hostname_rule.py is not among the sources;
    the target of the by-related-host-name variant is the related-host
    names (section 4.3, and [m.related_hostnames] in the tests). *)
Definition target_attribute_name : string := "related_hostnames".

(** Modelled from the spec: rules/hostname_rule.py is not among the sources.
    Section 4.3, step 6: clone the graph into the remainder, keep the
    matching names in the graph ([remove_matches=false]) and the others in
    the remainder ([remove_matches=true]), with the removal by related-host
    name. *)
Definition get_match_and_remainder
    (security_data : SecurityData.t) (matching_hostnames : gset string)
  : M (SecurityData.t * SecurityData.t) :=
  remainder <- deepcopy security_data ;;
  security_data <- SecurityData.remove_affected_entities_by_related_hostnames
                     security_data matching_hostnames false ;;
  remainder <- SecurityData.remove_affected_entities_by_related_hostnames
                 remainder matching_hostnames true ;;
  ret (security_data, remainder).

End HostnameRule.

(** ** hashlib.md5

    MD5 as in RFC 1321, on 32-bit words kept in [Z]. *)

Module hashlib.
Local Open Scope Z_scope.

Definition mask (x : Z) : Z := Z.land x 0xffffffff.

Definition rotl (x c : Z) : Z :=
  mask (Z.lor (Z.shiftl x c) (Z.shiftr x (32 - c))).

Definition K : list Z :=
  [0xd76aa478; 0xe8c7b756; 0x242070db; 0xc1bdceee; 0xf57c0faf; 0x4787c62a; 0xa8304613; 0xfd469501; 0x698098d8; 0x8b44f7af; 0xffff5bb1; 0x895cd7be; 0x6b901122; 0xfd987193; 0xa679438e; 0x49b40821; 0xf61e2562; 0xc040b340; 0x265e5a51; 0xe9b6c7aa; 0xd62f105d; 0x02441453; 0xd8a1e681; 0xe7d3fbc8; 0x21e1cde6; 0xc33707d6; 0xf4d50d87; 0x455a14ed; 0xa9e3e905; 0xfcefa3f8; 0x676f02d9; 0x8d2a4c8a; 0xfffa3942; 0x8771f681; 0x6d9d6122; 0xfde5380c; 0xa4beea44; 0x4bdecfa9; 0xf6bb4b60; 0xbebfbc70; 0x289b7ec6; 0xeaa127fa; 0xd4ef3085; 0x04881d05; 0xd9d4d039; 0xe6db99e5; 0x1fa27cf8; 0xc4ac5665; 0xf4292244; 0x432aff97; 0xab9423a7; 0xfc93a039; 0x655b59c3; 0x8f0ccc92; 0xffeff47d; 0x85845dd1; 0x6fa87e4f; 0xfe2ce6e0; 0xa3014314; 0x4e0811a1; 0xf7537e82; 0xbd3af235; 0x2ad7d2bb; 0xeb86d391].

Definition shifts : list Z :=
  [7; 12; 17; 22; 7; 12; 17; 22; 7; 12; 17; 22; 7; 12; 17; 22;
   5; 9; 14; 20; 5; 9; 14; 20; 5; 9; 14; 20; 5; 9; 14; 20;
   4; 11; 16; 23; 4; 11; 16; 23; 4; 11; 16; 23; 4; 11; 16; 23;
   6; 10; 15; 21; 6; 10; 15; 21; 6; 10; 15; 21; 6; 10; 15; 21].

Fixpoint bytes_of (s : string) : list Z :=
  match s with
  | EmptyString => []
  | String c s' => Z.of_nat (nat_of_ascii c) :: bytes_of s'
  end.

(** [n] bytes of [x], least significant first *)
Fixpoint le_bytes (n : nat) (x : Z) : list Z :=
  match n with
  | O => []
  | S n' => Z.land x 0xff :: le_bytes n' (Z.shiftr x 8)
  end.

Definition pad (msg : list Z) : list Z :=
  let len := Z.of_nat (length msg) in
  msg ++ [0x80] ++ replicate (Z.to_nat ((55 - len) mod 64)) 0 ++ le_bytes 8 (8 * len).

Fixpoint words (bytes : list Z) : list Z :=
  match bytes with
  | b0 :: b1 :: b2 :: b3 :: rest =>
      Z.lor b0 (Z.lor (Z.shiftl b1 8) (Z.lor (Z.shiftl b2 16) (Z.shiftl b3 24))) :: words rest
  | _ => []
  end.

Definition round (M : list Z) (st : Z * Z * Z * Z) (i : nat) : Z * Z * Z * Z :=
  let '(a, b, c, d) := st in
  let nb := Z.lxor b 0xffffffff in
  let nd := Z.lxor d 0xffffffff in
  let '(f, g) :=
    if (i <? 16)%nat then (Z.lor (Z.land b c) (Z.land nb d), i)
    else if (i <? 32)%nat then (Z.lor (Z.land d b) (Z.land nd c), ((5 * i + 1) mod 16)%nat)
    else if (i <? 48)%nat then (Z.lxor (Z.lxor b c) d, ((3 * i + 5) mod 16)%nat)
    else (Z.lxor c (Z.lor b nd), ((7 * i) mod 16)%nat) in
  let f' := mask (f + a + nth i K 0 + nth g M 0) in
  (d, mask (b + rotl f' (nth i shifts 0)), b, c).

Definition block (st : Z * Z * Z * Z) (M : list Z) : Z * Z * Z * Z :=
  let '(a, b, c, d) := st in
  let '(a', b', c', d') := foldl (round M) st (seq 0 64) in
  (mask (a + a'), mask (b + b'), mask (c + c'), mask (d + d')).

Fixpoint blocks (n : nat) (st : Z * Z * Z * Z) (ws : list Z) : Z * Z * Z * Z :=
  match n with
  | O => st
  | S n' => blocks n' (block st (take 16 ws)) (drop 16 ws)
  end.

Definition digest (msg : list Z) : list Z :=
  let ws := words (pad msg) in
  let '(a, b, c, d) :=
    blocks (length ws / 16) (0x67452301, 0xefcdab89, 0x98badcfe, 0x10325476) ws in
  le_bytes 4 a ++ le_bytes 4 b ++ le_bytes 4 c ++ le_bytes 4 d.

Definition hex_digit (x : Z) : ascii :=
  if x <? 10 then ascii_of_nat (48 + Z.to_nat x) else ascii_of_nat (87 + Z.to_nat x).

Fixpoint hex (bytes : list Z) : string :=
  match bytes with
  | [] => EmptyString
  | b :: bs => String (hex_digit (Z.shiftr b 4)) (String (hex_digit (Z.land b 0xf)) (hex bs))
  end.

(** [h = hashlib.md5(); h.update(s); h.hexdigest()] *)
Definition md5_hexdigest (s : string) : string := hex (digest (bytes_of s)).

End hashlib.

(** ** rules/rule.py *)

Module Rule.

(** [self.__class__] *)
Inductive cls := HostnameRule | AffectedEntityRule | AffectedEntityTagRule.

#[global] Instance cls_eq_dec : EqDecision cls.
Proof. solve_decision. Defined.

Definition class_name (c : cls) : string :=
  match c with
  | HostnameRule => "HostnameRule"
  | AffectedEntityRule => "AffectedEntityRule"
  | AffectedEntityTagRule => "AffectedEntityTagRule"
  end.

Record t := mk {
  class : cls;
  value : string;
  operator : string;
  eval_function : string → string → bool;
  minimum_score : option number;
  stop_after_match : bool;
  params : gmap string string;
}.

(** The abstract property [supported_operators] *)
Definition supported_operators (c : cls) : dict (string → string → bool) :=
  match c with
  | HostnameRule => HostnameRule.SUPPORTED_OPERATORS
  | AffectedEntityRule => AffectedEntityRule.SUPPORTED_OPERATORS
  | AffectedEntityTagRule => AffectedEntityTagRule.SUPPORTED_OPERATORS
  end.

(** The abstract property [target_attribute_name] *)
Definition target_attribute_name (c : cls) : string :=
  match c with
  | HostnameRule => HostnameRule.target_attribute_name
  | AffectedEntityRule => AffectedEntityRule.target_attribute_name
  | AffectedEntityTagRule => AffectedEntityTagRule.target_attribute_name
  end.

(** The abstract method [_get_match_and_remainder] *)
Definition get_match_and_remainder (c : cls)
  : SecurityData.t → gset string → M (SecurityData.t * SecurityData.t) :=
  match c with
  | HostnameRule => HostnameRule.get_match_and_remainder
  | AffectedEntityRule => AffectedEntityRule.get_match_and_remainder
  | AffectedEntityTagRule => AffectedEntityTagRule.get_match_and_remainder
  end.

(** [minimum_score and (minimum_score < 0 or minimum_score > 10)] *)
Definition minimum_score_rejected (minimum_score : option number) : bool :=
  match minimum_score with
  | None => false
  | Some m =>
      negb (Qeq_bool (to_Q m) 0) && (Qlt_bool (to_Q m) 0 || Qlt_bool 10 (to_Q m))
  end.

(** [Rule.__init__], as the subclasses call it.  [value] may be [None]. *)
Definition init (c : cls) (value : option string) (operator : string)
    (minimum_score : option number) (stop_after_match : bool)
    (params : gmap string string) : result t :=
  match value with
  | None => Raise (ValueError "Rule: value required")
  | Some v =>
      if decide (operator = "") then Raise (ValueError "Rule: operator required")
      else if minimum_score_rejected minimum_score
      then Raise (ValueError "Rule: 0<=minimum_score<=10 required")
      else if decide (params = ∅) then Raise (ValueError "Rule: params required")
      else match dict_get operator (supported_operators c) with
           | None => Raise (ValueError ("Rule: operator not supported: " +:+ operator))
           | Some f => Ok (mk c v operator f minimum_score stop_after_match params)
           end
  end.

(** [str(self.minimum_score)]: ["None"], the decimal digits of an [int], or
    the text Python prints for a [float], which is a parameter. *)
Definition str_minimum_score (str_float : Q → string) (m : option number) : string :=
  match m with
  | None => "None"
  | Some (PyInt z) => NilZero.string_of_int (Z.to_int z)
  | Some (PyFloat q) => str_float q
  end.

(** What the five [h.update] calls of [hex_id] feed to MD5, in order. *)
Definition hash_input (str_float : Q → string) (self : t) : string :=
  class_name (class self) +:+ operator self +:+ value self
    +:+ str_minimum_score str_float (minimum_score self)
    +:+ str_bool (stop_after_match self).

Definition hex_id (str_float : Q → string) (self : t) : string :=
  String.substring 0 6 (hashlib.md5_hexdigest (hash_input str_float self)).

(** [getattr(security_data, self.target_attribute_name)], as the sequence
    the dict comprehension of [match] walks through.  All three targets are
    collections. *)
Definition target_attribute_values (self : t) (security_data : SecurityData.t)
  : M (list string) :=
  match class self with
  | HostnameRule =>
      st <- get_store ;; ret (SecurityData.related_hostnames st security_data)
  | AffectedEntityRule => ret (SecurityData.affected_entity_names security_data)
  | AffectedEntityTagRule =>
      tags <- lift (SecurityData.affected_entity_tags security_data) ;; ret (elements tags)
  end.

(** [self.minimum_score and security_data.risk_score < self.minimum_score] *)
Definition below_minimum_score (self : t) (security_data : SecurityData.t) : bool :=
  match minimum_score self with
  | None => false
  | Some m =>
      negb (Qeq_bool (to_Q m) 0) && Qlt_bool (SecurityData.risk_score security_data) (to_Q m)
  end.

(** [Rule.match].  [matches] lists each target value with its verdict; the
    Python dict has one entry per distinct value, with the same verdict. *)
Definition match_ (self : t) (security_data : option SecurityData.t)
  : M (option SecurityData.t * option SecurityData.t) :=
  match security_data with
  | None => ret (None, None)
  | Some security_data =>
      if below_minimum_score self security_data then ret (None, Some security_data)
      else
        target_attribute_values <- target_attribute_values self security_data ;;
        let matches :=
          (λ x, (x, eval_function self x (value self))) <$> target_attribute_values in
        if negb (existsb snd matches) then ret (None, Some security_data)
        else if stop_after_match self then ret (Some security_data, None)
        else
          r <- get_match_and_remainder (class self) security_data
                 (list_to_set (fst <$> filter (λ kv, kv.2 = true) matches)) ;;
          ret (Some r.1, Some r.2)
  end.

(** One entry of the [rules] list of the configuration: a JSON object, a
    key it lacks being [None].  ['value'] may be present and [null]. *)
Record config := {
  cfg_type : option string;
  cfg_value : option (option string);
  cfg_operator : option string;
  cfg_params : option (gmap string string);
  cfg_minimumScore : option number;
  cfg_stopAfterMatch : option bool;
}.

Definition supported_rule_types : dict cls :=
  [("hostname", HostnameRule);
   ("affectedEntity", AffectedEntityRule);
   ("affectedEntityTag", AffectedEntityTagRule)].

(** [Rule.create] *)
Definition create (rule : config) : result t :=
  match cfg_type rule with
  | None => Raise (ValueError "Rule: need type to create rule")
  | Some ty =>
      match dict_get ty supported_rule_types with
      | None => Raise (ValueError ("Rule: unsupported type: " +:+ ty))
      | Some c =>
          match cfg_value rule, cfg_operator rule, cfg_params rule with
          | Some value, Some operator, Some params =>
              init c value operator (cfg_minimumScore rule)
                (default false (cfg_stopAfterMatch rule)) params
          | _, _, _ => Raise (ValueError "Rule: need value, operator, params")
          end
      end
  end.

End Rule.

(** ** Graphs that the program can hold

    What [create] establishes and every operation below keeps: the dict is
    keyed by the id of the instance it holds, it is the only owner of that
    instance, and a live member of a host's WeakSet is one of the dict's
    instances.  All of it is decidable, so it can be checked on a concrete
    graph. *)

Definition store_wf (st : Store) : Prop :=
  map_Forall (λ a _, (a < next st)%positive) (refs st).

Definition members_of (h : RelatedEntity.t) : list Ref := RelatedEntity.affected_entities h.

Record graph_wf (st : Store) (sd : SecurityData.t) : Prop := {
  wf_store : store_wf st;
  wf_keys : NoDup (dict_keys (SecurityData.affected_entities sd));
  wf_keyed :
    Forall (λ kv, AffectedEntity.entity_id (obj kv.2) = kv.1) (SecurityData.affected_entities sd);
  wf_owned :
    Forall (λ kv, refs st !! addr_of kv.2 = Some 1) (SecurityData.affected_entities sd);
  wf_addrs : NoDup (addr_of <$> dict_values (SecurityData.affected_entities sd));
  wf_weak :
    Forall (λ h, Forall (λ r, alive st (addr_of r) →
                              r ∈ dict_values (SecurityData.affected_entities sd))
                        (members_of h))
           (SecurityData.related_hosts sd);
  wf_bound :
    Forall (λ h, Forall (λ r, (addr_of r < next st)%positive) (members_of h))
           (SecurityData.related_hosts sd);
}.

(** Every tag of every affected entity has the key the code reads. *)
Definition tags_ok (sd : SecurityData.t) : Prop :=
  Forall (λ r, Forall (λ t : gmap string string, is_Some (t !! "stringRepresentation"))
                      (AffectedEntity.tags (obj r)))
         (dict_values (SecurityData.affected_entities sd)).

(** pydantic's [confloat(ge=0, le=10)] *)
Definition score_in_range (sd : SecurityData.t) : Prop :=
  Qle_bool 0 (SecurityData.risk_score sd) = true ∧
  Qle_bool (SecurityData.risk_score sd) 10 = true.

(** The set of affected-entity ids of a graph *)
Definition affected_ids (sd : SecurityData.t) : gset string :=
  list_to_set (dict_keys (SecurityData.affected_entities sd)).

(** The relation set of a related entity: the ids of its live members *)
Definition relation_ids (st : Store) (h : RelatedEntity.t) : gset string :=
  list_to_set ((λ r, AffectedEntity.entity_id (obj r)) <$> WeakSet_iter st (members_of h)).

(** The addresses a graph mentions, strongly or weakly *)
Definition footprint (sd : SecurityData.t) : list addr :=
  (addr_of <$> dict_values (SecurityData.affected_entities sd)) ++
  (h ← SecurityData.related_hosts sd; addr_of <$> members_of h).

(** The three removal operations, as data *)
Inductive removal :=
  | ByName (names : gset string) (remove_matches : bool)
  | ByTags (tags : gset string) (remove_matches : bool)
  | ByRelatedHostnames (hostnames : gset string) (remove_matches : bool).

Definition apply_removal (sd : SecurityData.t) (op : removal) : M SecurityData.t :=
  match op with
  | ByName s b => SecurityData.remove_affected_entities_by_name sd s b
  | ByTags s b => SecurityData.remove_affected_entities_by_tags sd s b
  | ByRelatedHostnames s b => SecurityData.remove_affected_entities_by_related_hostnames sd s b
  end.

Fixpoint apply_removals (sd : SecurityData.t) (ops : list removal) : M SecurityData.t :=
  match ops with
  | [] => ret sd
  | op :: ops' => sd' <- apply_removal sd op ;; apply_removals sd' ops'
  end.

(** ** Derived notions used to state the properties *)

Definition freed (st st' : Store) (dead : list positive) : Prop :=
  next st' = next st ∧
  ∀ a, refs st' !! a = if decide (a ∈ dead) then None else refs st !! a.

Definition tag_strings (ae : AffectedEntity.t) : list string :=
  omap (λ t : gmap string string, t !! "stringRepresentation") (AffectedEntity.tags ae).

Definition tagged (tags : gset string) (r : Ref) : Prop :=
  existsb (λ x, bool_decide (x ∈ tag_strings (obj r))) (elements tags) = true.

Definition related_to (st : Store) (hosts : list RelatedEntity.t) (names : gset string)
    (r : Ref) : Prop :=
  Exists (λ h, RelatedEntity.entity_name h ∈ names ∧ r ∈ WeakSet_iter st (members_of h)) hosts.

#[global] Instance tagged_dec tags r : Decision (tagged tags r).
Proof. unfold tagged. apply _. Defined.

#[global] Instance related_to_dec st hosts names r : Decision (related_to st hosts names r).
Proof. unfold related_to. apply _. Defined.

Definition copy_at (a : positive) (x : Ref) : Ref := {| addr_of := a; obj := obj x |}.

Fixpoint fresh_dict (a : positive) (d : list (string * Ref)) : list (string * Ref) :=
  match d with
  | [] => []
  | (k, x) :: d' => (k, copy_at a x) :: fresh_dict (Pos.succ a) d'
  end.

Fixpoint memo_of (a : positive) (d : list (string * Ref)) (m : list (positive * Ref))
  : list (positive * Ref) :=
  match d with
  | [] => m
  | (k, x) :: d' => memo_of (Pos.succ a) d' ((addr_of x, copy_at a x) :: m)
  end.

Fixpoint store_copied (st : Store) (d : list (string * Ref)) : Store :=
  match d with
  | [] => st
  | _ :: d' => store_copied (incref (next st) (alloc st).2) d'
  end.

Definition cp (m : list (positive * Ref)) (x : Ref) : Ref :=
  default x (memo_get (addr_of x) m).

Definition copy_host (m : list (positive * Ref)) (st : Store) (h : RelatedEntity.t)
  : RelatedEntity.t :=
  RelatedEntity.mk (RelatedEntity.entity_id h) (RelatedEntity.entity_name h)
    (cp m <$> WeakSet_iter st (members_of h)).

Definition clone_memo (st : Store) (sd : SecurityData.t) : list (positive * Ref) :=
  memo_of (next st) (SecurityData.affected_entities sd) [].

Definition clone_of (st : Store) (sd : SecurityData.t) : SecurityData.t :=
  SecurityData.with_entities
    (fresh_dict (next st) (SecurityData.affected_entities sd))
    (copy_host (clone_memo st sd) st <$> SecurityData.related_hosts sd) sd.

Definition store_cloned (st : Store) (sd : SecurityData.t) : Store :=
  foldl (λ s e, decref (addr_of e.2) s)
        (store_copied st (SecurityData.affected_entities sd)) (clone_memo st sd).

Record shrinks (st : Store) (sd : SecurityData.t) (st' : Store) (sd' : SecurityData.t)
  : Prop := {
  sh_wf : graph_wf st' sd';
  sh_tags : tags_ok sd → tags_ok sd';
  sh_entries : ∀ kv, kv ∈ SecurityData.affected_entities sd' →
                     kv ∈ SecurityData.affected_entities sd;
  sh_hosts : ∀ h, h ∈ SecurityData.related_hosts sd' → h ∈ SecurityData.related_hosts sd;
  sh_next : next st' = next st;
  sh_frame : ∀ a, a ∉ addr_of <$> dict_values (SecurityData.affected_entities sd) →
                  refs st' !! a = refs st !! a;
  sh_alive : ∀ a, alive st' a → alive st a;
}.

Definition selected (op : removal) (st : Store) (sd : SecurityData.t) (r : Ref) : Prop :=
  match op with
  | ByName names _ => AffectedEntity.entity_name (obj r) ∈ names
  | ByTags tags _ => tagged tags r
  | ByRelatedHostnames names _ => related_to st (SecurityData.related_hosts sd) names r
  end.

#[global] Instance selected_dec op st sd r : Decision (selected op st sd r).
Proof. destruct op; simpl; apply _. Defined.

Definition remove_matches_of (op : removal) : bool :=
  match op with ByName _ b | ByTags _ b | ByRelatedHostnames _ b => b end.

(** The partition strategy of a rule class, as a removal *)
Definition strategy (c : Rule.cls) (matches : gset string) (remove_matches : bool) : removal :=
  match c with
  | Rule.HostnameRule => ByRelatedHostnames matches remove_matches
  | Rule.AffectedEntityRule => ByName matches remove_matches
  | Rule.AffectedEntityTagRule => ByTags matches remove_matches
  end.

(** The target view of a rule class, as a function of the graph *)
Definition target_view (c : Rule.cls) (st : Store) (sd : SecurityData.t) : list string :=
  match c with
  | Rule.HostnameRule => SecurityData.related_hostnames st sd
  | Rule.AffectedEntityRule => SecurityData.affected_entity_names sd
  | Rule.AffectedEntityTagRule =>
      elements (list_to_set
        (omap (λ t : gmap string string, t !! "stringRepresentation")
              (x ← dict_values (SecurityData.affected_entities sd); AffectedEntity.tags (obj x)))
        : gset string)
  end.

(** [any(matches.values())] *)
Definition some_match (r : Rule.t) (view : list string) : bool :=
  existsb (λ x, Rule.eval_function r x (Rule.value r)) view.

(** [set([k for k, v in matches.items() if v])] *)
Definition match_set (r : Rule.t) (view : list string) : gset string :=
  list_to_set (filter (λ x, Rule.eval_function r x (Rule.value r) = true) view).

(** A stand-in for pydantic's [AnyHttpUrl] check where a fixture is built *)
Definition http_url (s : string) : bool :=
  String.prefix "http://" s || String.prefix "https://" s.

(** tests/test_security_data.py: [GOOD_DATA] and its two lookup tables *)
Definition GOOD_DATA : Raw.SecurityProblem :=
  {| Raw.securityProblemId := Some "the_id";
     Raw.displayId := Some "S-123";
     Raw.title := Some "the_title";
     Raw.url := Some "https://fake.example/the_id";
     Raw.riskAssessment :=
       Some {| Raw.riskScore := Some (92 # 10)%Q; Raw.riskLevel := Some "high";
               Raw.exposure := Some "foo"; Raw.dataAssets := Some "bar" |};
     Raw.description := Some "desc";
     Raw.technology := Some "tech";
     Raw.vulnerableComponents := Some [ {| Raw.displayName := Some "foo" |} ];
     Raw.affectedEntities := Some ["the_process_id1"; "the_process_id2"];
     Raw.relatedEntities :=
       Some {| Raw.hosts :=
         Some [ {| Raw.id := Some "the_host_id1";
                   Raw.host_affectedEntities := Some ["the_process_id1"] |};
                {| Raw.id := Some "the_host_id2";
                   Raw.host_affectedEntities := Some ["the_process_id2"] |} ] |} |}.

Definition my_tag : gmap string string := {[ "stringRepresentation" := "my_tag" ]}.

Definition ALL_AFFECTED_ENTITIES : gmap string EntityDetails.t :=
  list_to_map
    [("the_process_id1", EntityDetails.mk "the_process_id1" "the_process_name1" [my_tag]);
     ("the_process_id2", EntityDetails.mk "the_process_id2" "the_process_name2" [])].

Definition ALL_RELATED_HOST_ENTITIES : gmap string EntityDetails.t :=
  list_to_map
    [("the_host_id1", EntityDetails.mk "the_host_id1" "the_host_name1" []);
     ("the_host_id2", EntityDetails.mk "the_host_id2" "the_host_name2" [])].

Definition process1 : Ref :=
  {| addr_of := 1;
     obj := AffectedEntity.mk "the_process_id1" "the_process_name1" [my_tag] |}.

Definition process2 : Ref :=
  {| addr_of := 2; obj := AffectedEntity.mk "the_process_id2" "the_process_name2" [] |}.

Definition host1 : RelatedEntity.t :=
  RelatedEntity.mk "the_host_id1" "the_host_name1" [process1].

Definition host2 : RelatedEntity.t :=
  RelatedEntity.mk "the_host_id2" "the_host_name2" [process2].

(** The graph [SecurityData.create] builds from [GOOD_DATA], and the store
    it leaves when it starts from the empty one *)
Definition good_graph : SecurityData.t :=
  {| SecurityData.identifier := "the_id";
     SecurityData.display_id := "S-123";
     SecurityData.title := "the_title";
     SecurityData.url := "https://fake.example/the_id";
     SecurityData.risk_score := (92 # 10)%Q;
     SecurityData.risk_level := "HIGH";
     SecurityData.exposure := "FOO";
     SecurityData.data_assets := "BAR";
     SecurityData.technology := "TECH";
     SecurityData.description := "desc";
     SecurityData.vulnerable_components := {["foo"]};
     SecurityData.affected_entities :=
       [("the_process_id1", process1); ("the_process_id2", process2)];
     SecurityData.related_hosts := [host1; host2] |}.

Definition good_store : Store :=
  {| refs := list_to_map [(1%positive, 1); (2%positive, 1)]; next := 3 |}.

(** tests/test_hostname_rule.py: [SECURITY_PROBLEM_DATA] with the keys
    [create] reads, and the lookup tables of [setUp] *)
Definition SECURITY_PROBLEM_DATA : Raw.SecurityProblem :=
  {| Raw.securityProblemId := Some "the_id";
     Raw.displayId := Some "the_display_id";
     Raw.title := Some "Man-in-the-Middle (MitM)";
     Raw.url := Some "https://fake.example/the_id";
     Raw.riskAssessment :=
       Some {| Raw.riskScore := Some (43 # 10)%Q; Raw.riskLevel := Some "MEDIUM";
               Raw.exposure := Some "PUBLIC_NETWORK"; Raw.dataAssets := Some "REACHABLE" |};
     Raw.description := Some "vulnerability description";
     Raw.technology := Some "the_tech";
     Raw.vulnerableComponents := Some [ {| Raw.displayName := Some "component:1.2" |} ];
     Raw.affectedEntities :=
       Some ["PROCESS_GROUP_INSTANCE-1"; "PROCESS_GROUP_INSTANCE-2"; "PROCESS_GROUP_INSTANCE-3"];
     Raw.relatedEntities :=
       Some {| Raw.hosts :=
         Some [ {| Raw.id := Some "HOST-1";
                   Raw.host_affectedEntities :=
                     Some ["PROCESS_GROUP_INSTANCE-1"; "PROCESS_GROUP_INSTANCE-2"] |};
                {| Raw.id := Some "HOST-2";
                   Raw.host_affectedEntities := Some ["PROCESS_GROUP_INSTANCE-3"] |} ] |} |}.

Definition all_affected_entities : gmap string EntityDetails.t :=
  list_to_map
    [("PROCESS_GROUP_INSTANCE-1", EntityDetails.mk "PROCESS_GROUP_INSTANCE-1" "process1" []);
     ("PROCESS_GROUP_INSTANCE-2", EntityDetails.mk "PROCESS_GROUP_INSTANCE-2" "process2" []);
     ("PROCESS_GROUP_INSTANCE-3", EntityDetails.mk "PROCESS_GROUP_INSTANCE-3" "process3" [])].

Definition all_related_hosts : gmap string EntityDetails.t :=
  list_to_map
    [("HOST-1", EntityDetails.mk "HOST-1" "host1" []);
     ("HOST-2", EntityDetails.mk "HOST-2" "host2" [])].

(** What a test looks at in a graph: [related_hostnames] and
    [affected_entity_names] *)
Definition views (st : Store) (sd : SecurityData.t) : list string * list string :=
  (SecurityData.related_hostnames st sd, SecurityData.affected_entity_names sd).

(** [setUp], then [HostnameRule(...)], then [match]: the views of the match
    and of the remainder *)
Definition hostname_rule_test (value : string) (operator : string)
    (minimum_score : option number) (stop_after_match : bool)
  : option (option (list string * list string) * option (list string * list string)) :=
  match create http_url SECURITY_PROBLEM_DATA all_affected_entities all_related_hosts
               empty_store,
        Rule.init Rule.HostnameRule (Some value) operator minimum_score stop_after_match
                  {[ "foo" := "bar" ]} with
  | Ok (sd, st), Ok r =>
      match Rule.match_ r (Some sd) st with
      | Ok ((m, rem), st') => Some (views st' <$> m, views st' <$> rem)
      | Raise _ => None
      end
  | _, _ => None
  end.

(** The record [{}] *)
Definition empty_record : Raw.SecurityProblem :=
  {| Raw.securityProblemId := None; Raw.displayId := None; Raw.title := None;
     Raw.url := None; Raw.riskAssessment := None; Raw.description := None;
     Raw.technology := None; Raw.vulnerableComponents := None;
     Raw.affectedEntities := None; Raw.relatedEntities := None |}.

(** The state of the dict comprehension of [create]: [done] are the
    instances already stored, [rest] those still to come. *)
Record building (done rest : list Ref) (d : list (string * Ref)) (st : Store) : Prop := {
  b_keys : NoDup (dict_keys d);
  b_keyed : Forall (λ kv, AffectedEntity.entity_id (obj kv.2) = kv.1) d;
  b_values : ∀ kv, kv ∈ d → kv.2 ∈ done;
  b_in : ∀ z, z ∈ done → z ∈ dict_values d → refs st !! addr_of z = Some 2;
  b_out : ∀ z, z ∈ done → z ∉ dict_values d → refs st !! addr_of z = Some 1;
  b_rest : ∀ z, z ∈ rest → refs st !! addr_of z = Some 1;
}.

(** The rule of [test_match_partial_match], on affected-entity names *)
Definition rule_process1 : Rule.t :=
  Rule.mk Rule.AffectedEntityRule "the_process_name1" "equals" operators.equals
          None false {[ "foo" := "bar" ]}.

(** What stays the same about a graph [g] between two stores: it is still
    well formed, none of the addresses it mentions has changed its reference
    count, and every related entity shows the same relation set. *)
Definition unchanged (st st' : Store) (g : SecurityData.t) : Prop :=
  graph_wf st' g ∧
  (∀ a, a ∈ footprint g → refs st' !! a = refs st !! a) ∧
  Forall (λ h, WeakSet_iter st' (members_of h) = WeakSet_iter st (members_of h))
         (SecurityData.related_hosts g).

(** A hostname rule with a threshold, on the graph of [GOOD_DATA]
    (risk score 9.2) *)
Definition rule_host_at (minimum_score : number) : Rule.t :=
  Rule.mk Rule.HostnameRule "host" "containsIgnoreCase" operators.contains_ignore_case
          (Some minimum_score) false {[ "foo" := "bar" ]}.

Definition with_minimum_score (m : option number) (r : Rule.t) : Rule.t :=
  Rule.mk (Rule.class r) (Rule.value r) (Rule.operator r) (Rule.eval_function r)
          m (Rule.stop_after_match r) (Rule.params r).

(** The hostname rule of [test_empty_string_match_works], with a minimum
    score of 10 *)
Definition catch_all_above : Rule.t :=
  Rule.mk Rule.HostnameRule "" "contains" operators.contains (Some (PyInt 10)) false
          {[ "foo" := "bar" ]}.

(** The rule of [test_empty_string_match_works] *)
Definition catch_all : Rule.t :=
  Rule.mk Rule.HostnameRule "" "contains" operators.contains None false {[ "foo" := "bar" ]}.




(** [GOOD_DATA] with the given affected-entity list and a single related
    host that has no ['affectedEntities'] key *)
Definition host_without_list (affected : list string) : Raw.SecurityProblem :=
  {| Raw.securityProblemId := Raw.securityProblemId GOOD_DATA;
     Raw.displayId := Raw.displayId GOOD_DATA;
     Raw.title := Raw.title GOOD_DATA;
     Raw.url := Raw.url GOOD_DATA;
     Raw.riskAssessment := Raw.riskAssessment GOOD_DATA;
     Raw.description := Raw.description GOOD_DATA;
     Raw.technology := Raw.technology GOOD_DATA;
     Raw.vulnerableComponents := Raw.vulnerableComponents GOOD_DATA;
     Raw.affectedEntities := Some affected;
     Raw.relatedEntities :=
       Some {| Raw.hosts :=
         Some [ {| Raw.id := Some "the_host_id1"; Raw.host_affectedEntities := None |} ] |} |}.

(** What [create] needs of one related host: its id, known to the table of
    related hosts, and, unless the record lists no affected entity, its
    list of affected-entity ids. *)
Definition host_readable (hosts : gmap string EntityDetails.t) (ids : list string)
    (x : Raw.Host) : Prop :=
  (∃ i, Raw.id x = Some i ∧ is_Some (hosts !! i)) ∧
  (ids = [] ∨ is_Some (Raw.host_affectedEntities x)).

(** Every key [create] reads is there, and every id it looks up is in its
    table. *)
Definition readable (sp : Raw.SecurityProblem) (aff hosts : gmap string EntityDetails.t)
  : Prop :=
  ∃ ids rel hs risk comps,
    Raw.affectedEntities sp = Some ids ∧ Forall (λ x, is_Some (aff !! x)) ids ∧
    Raw.relatedEntities sp = Some rel ∧ Raw.hosts rel = Some hs ∧
    Forall (host_readable hosts ids) hs ∧
    is_Some (Raw.securityProblemId sp) ∧ is_Some (Raw.displayId sp) ∧
    is_Some (Raw.title sp) ∧ is_Some (Raw.url sp) ∧
    Raw.riskAssessment sp = Some risk ∧
    is_Some (Raw.riskScore risk) ∧ is_Some (Raw.riskLevel risk) ∧
    is_Some (Raw.exposure risk) ∧ is_Some (Raw.dataAssets risk) ∧
    is_Some (Raw.description sp) ∧ is_Some (Raw.technology sp) ∧
    Raw.vulnerableComponents sp = Some comps ∧
    Forall (λ c, is_Some (Raw.displayName c)) comps.

(** A computation that raises nothing but [KeyError] *)
Definition only_KeyError {A} (m : M A) : Prop :=
  ∀ st e, m st = Raise e → ∃ k, e = KeyError k.

(** * Properties *)

(** ** The store *)

Lemma decref_next a st : next (decref a st) = next st.
Proof. reflexivity. Qed.

Lemma decref_owned a st :
  refs st !! a = Some 1 → refs (decref a st) = delete a (refs st).
Proof. intros H. unfold decref. simpl. by rewrite H. Qed.

Lemma decref_other a b st : a ≠ b → refs (decref a st) !! b = refs st !! b.
Proof.
  intros Hne. unfold decref. simpl.
  destruct (refs st !! a) as [[|[|n]]|]; by simplify_map_eq.
Qed.

Lemma incref_other a b st : a ≠ b → refs (incref a st) !! b = refs st !! b.
Proof. intros Hne. unfold incref. simpl. by rewrite lookup_alter_ne. Qed.

Lemma incref_same a st : refs (incref a st) !! a = S <$> refs st !! a.
Proof. unfold incref. simpl. by rewrite lookup_alter_eq. Qed.

(** ** Lists *)

Lemma filter_all {A} (P : A → Prop) `{!∀ x, Decision (P x)} (l : list A) :
  Forall P l → filter P l = l.
Proof.
  induction 1 as [|x l Hx _ IH]; [done|].
  rewrite filter_cons. rewrite decide_True by done. by rewrite IH.
Qed.

Lemma filter_ext_in {A} (P Q : A → Prop) `{!∀ x, Decision (P x)} `{!∀ x, Decision (Q x)}
    (l : list A) :
  (∀ x, x ∈ l → (P x ↔ Q x)) → filter P l = filter Q l.
Proof.
  induction l as [|x l IH]; intros Hext; [done|].
  rewrite !filter_cons.
  rewrite IH by (intros y Hy; apply Hext; by right).
  destruct (decide (P x)) as [HP|HP], (decide (Q x)) as [HQ|HQ]; try done.
  - exfalso. apply HQ, Hext; [left|done].
  - exfalso. apply HP, Hext; [left|done].
Qed.

Lemma NoDup_fmap_elem_inj {A B} (f : A → B) (l : list A) x y :
  NoDup (f <$> l) → x ∈ l → y ∈ l → f x = f y → x = y.
Proof.
  induction l as [|z l IH]; intros Hnd Hx Hy Hf; [by apply elem_of_nil in Hx|].
  rewrite fmap_cons in Hnd. apply NoDup_cons in Hnd as [Hz Hnd].
  apply elem_of_cons in Hx as [->|Hx]; apply elem_of_cons in Hy as [->|Hy]; auto.
  - exfalso. apply Hz. rewrite Hf. by apply list_elem_of_fmap_2.
  - exfalso. apply Hz. rewrite <- Hf. by apply list_elem_of_fmap_2.
Qed.

Lemma NoDup_fmap_filter {A B} (f : A → B) (P : A → Prop) `{!∀ x, Decision (P x)} (l : list A) :
  NoDup (f <$> l) → NoDup (f <$> filter P l).
Proof.
  intros Hnd. apply (sublist_NoDup _ _ Hnd).
  apply fmap_sublist, sublist_filter.
Qed.

(** ** Dicts *)

Lemma dict_del_spec {V} (k : string) (d : dict V) :
  NoDup (dict_keys d) →
  match dict_del k d with
  | Some (v, d') => (k, v) ∈ d ∧ d' = filter (λ kv, kv.1 ≠ k) d
  | None => k ∉ dict_keys d
  end.
Proof.
  unfold dict_keys. induction d as [|[k' v] d IH]; intros Hnd.
  - apply not_elem_of_nil.
  - rewrite fmap_cons in Hnd. apply NoDup_cons in Hnd as [Hk' Hnd]. simpl in Hk'.
    cbn [dict_del]. destruct (decide (k = k')) as [->|Hne].
    + split; [left|].
      rewrite filter_cons. simpl. rewrite decide_False by tauto.
      symmetry. apply filter_all. apply Forall_forall. intros [k2 v2] Hin. simpl.
      intros ->. apply Hk'. by apply (list_elem_of_fmap_2 fst) in Hin.
    + specialize (IH Hnd). destruct (dict_del k d) as [[x d'']|].
      * destruct IH as [Hin ->]. split; [by right|].
        rewrite filter_cons. simpl. by rewrite decide_True by congruence.
      * rewrite fmap_cons. simpl. intros Hin. apply elem_of_cons in Hin as [?|?]; tauto.
Qed.

Lemma dict_key_unique {V} (d : dict V) k v v' :
  NoDup (dict_keys d) → (k, v) ∈ d → (k, v') ∈ d → v = v'.
Proof.
  intros Hnd H1 H2.
  assert ((k, v) = (k, v')) by (eapply (NoDup_fmap_elem_inj fst); eauto).
  congruence.
Qed.

Lemma filter_none {A} (P : A → Prop) `{!∀ x, Decision (P x)} (l : list A) :
  Forall (λ x, ¬ P x) l → filter P l = [].
Proof.
  induction 1 as [|x l Hx _ IH]; [done|].
  rewrite filter_cons. by rewrite decide_False.
Qed.

Lemma del_all_spec ids (d : list (string * Ref)) st :
  NoDup ids → (∀ x, x ∈ ids → x ∈ dict_keys d) →
  NoDup (dict_keys d) → NoDup (addr_of <$> dict_values d) →
  Forall (λ kv, refs st !! addr_of kv.2 = Some 1) d →
  ∃ st', SecurityData.del_all ids d st = Ok (filter (λ kv, kv.1 ∉ ids) d, st')
         ∧ freed st st' (addr_of <$> dict_values (filter (λ kv, kv.1 ∈ ids) d)).
Proof.
  revert d st. induction ids as [|x ids IH]; intros d st Hids Hsub Hkeys Haddrs Hown.
  - exists st. split; [|split; [done|]].
    + simpl. unfold ret. f_equal. f_equal. symmetry. apply filter_all.
      apply Forall_forall. intros kv _. apply not_elem_of_nil.
    + intros a. rewrite filter_none; [done|].
      apply Forall_forall. intros kv _. apply not_elem_of_nil.
  - apply NoDup_cons in Hids as [Hx Hids].
    pose proof (dict_del_spec x d Hkeys) as Hdel.
    destruct (dict_del x d) as [[r d1]|] eqn:Ed; last first.
    { exfalso. apply Hdel, Hsub. left. }
    destruct Hdel as [Hin ->].
    set (d1 := filter (λ kv : string * Ref, kv.1 ≠ x) d).
    assert (Hr : refs st !! addr_of r = Some 1).
    { rewrite Forall_forall in Hown. apply (Hown _ Hin). }
    destruct (IH d1 (decref (addr_of r) st)) as (st' & Hrun & Hnext & Hrefs).
    + done.
    + intros y Hy. unfold dict_keys, d1.
      assert (y ∈ dict_keys d) as Hyd by (apply Hsub; by right).
      unfold dict_keys in Hyd. apply list_elem_of_fmap in Hyd as ([k v] & -> & Hkv).
      apply list_elem_of_fmap. exists (k, v). split; [done|].
      apply list_elem_of_filter. split; [|done]. simpl. intros ->. by apply Hx.
    + unfold dict_keys, d1. by apply NoDup_fmap_filter.
    + unfold dict_values, d1. rewrite <- list_fmap_compose.
      apply NoDup_fmap_filter. by rewrite list_fmap_compose.
    + apply Forall_forall. intros kv Hkv. unfold d1 in Hkv.
      apply list_elem_of_filter in Hkv as [Hne Hkv].
      rewrite decref_other.
      * rewrite Forall_forall in Hown. by apply Hown.
      * intros Heq. apply Hne.
        assert ((x, r) = kv) as <-; [|done].
        unfold dict_values in Haddrs. rewrite <- list_fmap_compose in Haddrs.
        eapply (NoDup_fmap_elem_inj _ _ _ _ Haddrs); eauto.
    + exists st'. split; [|split].
      * cbn [SecurityData.del_all]. rewrite Ed. unfold bind, modify. simpl.
        change (SecurityData.del_all ids d1 (decref (addr_of r) st) =
                Ok (filter (λ kv, kv.1 ∉ x :: ids) d, st')).
        rewrite Hrun. f_equal. f_equal. unfold d1. rewrite list_filter_filter.
        apply filter_ext_in. intros kv _. rewrite not_elem_of_cons. tauto.
      * by rewrite Hnext.
      * intros a. rewrite Hrefs. clear Hrefs Hrun IH.
        assert (Hsplit : ∀ b, b ∈ addr_of <$> dict_values (filter (λ kv, kv.1 ∈ x :: ids) d)
                  ↔ b = addr_of r ∨ b ∈ addr_of <$> dict_values (filter (λ kv, kv.1 ∈ ids) d1)).
        { intros b. unfold dict_values, d1. rewrite <- !list_fmap_compose.
          rewrite !list_elem_of_fmap. split.
          - intros ([k v] & -> & Hkv). apply list_elem_of_filter in Hkv as [Hk Hkv].
            simpl in Hk. destruct (decide (k = x)) as [->|Hne].
            + left. simpl. f_equal. eapply dict_key_unique; eauto.
            + right. exists (k, v). split; [done|].
              apply list_elem_of_filter. split.
              * simpl. apply elem_of_cons in Hk as [?|?]; [done|done].
              * apply list_elem_of_filter. by split.
          - intros [->|([k v] & -> & Hkv)].
            + exists (x, r). split; [done|]. apply list_elem_of_filter. split; [left|done].
            + apply list_elem_of_filter in Hkv as [Hk Hkv].
              apply list_elem_of_filter in Hkv as [Hne Hkv].
              exists (k, v). split; [done|]. apply list_elem_of_filter. split; [by right|done]. }
        destruct (decide (a = addr_of r)) as [->|Hne].
        -- rewrite (decide_True (P := addr_of r ∈ _ <$> dict_values (filter _ d)))
             by (apply Hsplit; by left).
           rewrite decref_owned by done. rewrite lookup_delete_eq. by case_decide.
        -- rewrite decref_other by done.
           destruct (decide (a ∈ addr_of <$> dict_values (filter (λ kv, kv.1 ∈ ids) d1))) as [Hi|Hi].
           ++ rewrite decide_True; [done|]. apply Hsplit. by right.
           ++ rewrite decide_False; [done|]. rewrite Hsplit. tauto.
Qed.

Lemma del_matching (P : Ref → Prop) `{!∀ r, Decision (P r)}
    (entity_ids : gset string) (b : bool) (d : list (string * Ref)) st :
  NoDup (dict_keys d) → NoDup (addr_of <$> dict_values d) →
  Forall (λ kv, refs st !! addr_of kv.2 = Some 1) d →
  (∀ k r, (k, r) ∈ d → (k ∈ entity_ids ↔ P r)) →
  (∀ k, k ∈ entity_ids → k ∈ dict_keys d) →
  ∃ st', SecurityData.del_all
           (elements (if b then entity_ids else list_to_set (dict_keys d) ∖ entity_ids)) d st
         = Ok (filter (λ kv, bool_decide (P kv.2) ≠ b) d, st') ∧
         freed st st' (addr_of <$> dict_values (filter (λ kv, bool_decide (P kv.2) = b) d)).
Proof.
  intros Hkeys Haddrs Hown HP Hsub.
  set (ids := if b then entity_ids else list_to_set (dict_keys d) ∖ entity_ids).
  assert (Hids : ∀ k r, (k, r) ∈ d → (k ∈ elements ids ↔ bool_decide (P r) = b)).
  { intros k r Hin. rewrite elem_of_elements. unfold ids. destruct b.
    - rewrite bool_decide_eq_true. by apply HP.
    - rewrite bool_decide_eq_false, elem_of_difference, elem_of_list_to_set.
      rewrite (HP k r Hin). split; [tauto|]. intros HnP. split; [|done].
      by apply (list_elem_of_fmap_2 fst) in Hin. }
  destruct (del_all_spec (elements ids) d st) as (st' & Hrun & Hfreed); try done.
  - apply NoDup_elements.
  - intros x. rewrite elem_of_elements. unfold ids. destruct b; [apply Hsub|].
    rewrite elem_of_difference, elem_of_list_to_set. tauto.
  - exists st'. split.
    + rewrite Hrun. f_equal. f_equal. apply filter_ext_in. intros [k r] Hin. simpl.
      rewrite (Hids k r Hin). done.
    + replace (filter (λ kv, bool_decide (P kv.2) = b) d)
        with (filter (λ kv : string * Ref, kv.1 ∈ elements ids) d); [done|].
      apply filter_ext_in. intros [k r] Hin. simpl. by apply Hids.
Qed.

(** The ids of the dict's instances that satisfy [P] single out the entries
    whose instance satisfies [P]. *)
Lemma ids_of_matching (P : Ref → Prop) `{!∀ r, Decision (P r)} (d : list (string * Ref)) :
  NoDup (dict_keys d) →
  Forall (λ kv, AffectedEntity.entity_id (obj kv.2) = kv.1) d →
  let ids : gset string :=
    list_to_set ((λ x, AffectedEntity.entity_id (obj x)) <$> filter P (dict_values d)) in
  (∀ k r, (k, r) ∈ d → (k ∈ ids ↔ P r)) ∧ (∀ k, k ∈ ids → k ∈ dict_keys d).
Proof.
  intros Hkeys Hkeyed ids. rewrite Forall_forall in Hkeyed.
  assert (Hchar : ∀ k, k ∈ ids ↔ ∃ r, (k, r) ∈ d ∧ P r).
  { intros k. unfold ids. rewrite elem_of_list_to_set, list_elem_of_fmap. split.
    - intros (r & -> & Hr). apply list_elem_of_filter in Hr as [HPr Hr].
      unfold dict_values in Hr. apply list_elem_of_fmap in Hr as ([k' r'] & -> & Hin).
      exists r'. split; [|done]. simpl.
      pose proof (Hkeyed _ Hin) as E. simpl in E. by rewrite E.
    - intros (r & Hin & HPr). exists r. split.
      + pose proof (Hkeyed _ Hin) as E. simpl in E. by rewrite E.
      + apply list_elem_of_filter. split; [done|].
        by apply (list_elem_of_fmap_2 snd) in Hin. }
  split.
  - intros k r Hin. rewrite Hchar. split.
    + intros (r' & Hin' & HP'). by rewrite (dict_key_unique d k r r' Hkeys Hin Hin').
    + intros HPr. eauto.
  - intros k (r & Hin & _)%Hchar. by apply (list_elem_of_fmap_2 fst) in Hin.
Qed.

Lemma remove_by_name_spec sd (names : gset string) (b : bool) st :
  graph_wf st sd →
  let d := SecurityData.affected_entities sd in
  let P := λ r, AffectedEntity.entity_name (obj r) ∈ names in
  ∃ st', SecurityData.remove_affected_entities_by_name sd names b st
         = Ok (SecurityData.with_entities (filter (λ kv, bool_decide (P kv.2) ≠ b) d)
                 (SecurityData.related_hosts sd) sd, st') ∧
         freed st st' (addr_of <$> dict_values (filter (λ kv, bool_decide (P kv.2) = b) d)).
Proof.
  intros Hwf d P. destruct Hwf as [_ Hkeys Hkeyed Hown Haddrs _ _].
  destruct (ids_of_matching P d) as [HP Hsub]; [done..|].
  destruct (del_matching P _ b d st Hkeys Haddrs Hown HP Hsub) as (st' & Hrun & Hfreed).
  exists st'. split; [|done].
  unfold SecurityData.remove_affected_entities_by_name, bind.
  subst d P. cbv zeta. by rewrite Hrun.
Qed.

Lemma traverse_string_representation (l : list (gmap string string)) :
  Forall (λ t, is_Some (t !! "stringRepresentation")) l →
  traverse string_representation l = Ok (omap (λ t, t !! "stringRepresentation") l).
Proof.
  induction 1 as [|t l [s Hs] _ IH]; [done|].
  cbn [traverse omap list_omap]. unfold string_representation at 1. rewrite Hs, IH. done.
Qed.

Lemma tagged_entity_ids_ok (tags : gset string) (l : list Ref) :
  Forall (λ r, Forall (λ t : gmap string string, is_Some (t !! "stringRepresentation"))
                      (AffectedEntity.tags (obj r))) l →
  SecurityData.tagged_entity_ids tags l
  = Ok (list_to_set ((λ x, AffectedEntity.entity_id (obj x)) <$> filter (tagged tags) l)).
Proof.
  induction 1 as [|r l Hr _ IH]; [done|].
  cbn [SecurityData.tagged_entity_ids]. unfold SecurityData.has_any_tag.
  rewrite (traverse_string_representation _ Hr), IH.
  rewrite filter_cons. unfold tagged at 2, tag_strings.
  destruct (existsb _ _) eqn:E.
  - rewrite decide_True by exact E. rewrite fmap_cons. reflexivity.
  - rewrite decide_False; [done|]. unfold tagged, tag_strings. by rewrite E.
Qed.

Lemma remove_by_tags_spec sd (tags : gset string) (b : bool) st :
  graph_wf st sd → tags_ok sd →
  let d := SecurityData.affected_entities sd in
  ∃ st', SecurityData.remove_affected_entities_by_tags sd tags b st
         = Ok (SecurityData.with_entities
                 (filter (λ kv, bool_decide (tagged tags kv.2) ≠ b) d)
                 (SecurityData.related_hosts sd) sd, st') ∧
         freed st st' (addr_of <$> dict_values (filter (λ kv, bool_decide (tagged tags kv.2) = b) d)).
Proof.
  intros Hwf Htags d. destruct Hwf as [_ Hkeys Hkeyed Hown Haddrs _ _].
  destruct (ids_of_matching (tagged tags) d) as [HP Hsub]; [done..|].
  destruct (del_matching (tagged tags) _ b d st Hkeys Haddrs Hown HP Hsub)
    as (st' & Hrun & Hfreed).
  exists st'. split; [|done].
  unfold SecurityData.remove_affected_entities_by_tags, bind, lift.
  rewrite (tagged_entity_ids_ok tags _ Htags).
  subst d. cbv zeta. by rewrite Hrun.
Qed.

Lemma related_ids_spec sd (names : gset string) st :
  graph_wf st sd →
  let d := SecurityData.affected_entities sd in
  let ids : gset string :=
    list_to_set (related_host ← SecurityData.related_hosts sd;
                 affected_entity ← WeakSet_iter st (RelatedEntity.affected_entities related_host);
                 if decide (RelatedEntity.entity_name related_host ∈ names)
                 then [AffectedEntity.entity_id (obj affected_entity)] else []) in
  (∀ k r, (k, r) ∈ d → (k ∈ ids ↔ related_to st (SecurityData.related_hosts sd) names r)) ∧
  (∀ k, k ∈ ids → k ∈ dict_keys d).
Proof.
  intros Hwf d ids. destruct Hwf as [_ Hkeys Hkeyed _ _ Hweak _].
  rewrite Forall_forall in Hkeyed. rewrite Forall_forall in Hweak.
  assert (Hchar : ∀ k, k ∈ ids ↔
            ∃ h m, h ∈ SecurityData.related_hosts sd ∧ RelatedEntity.entity_name h ∈ names ∧
                   m ∈ WeakSet_iter st (members_of h) ∧ (k, m) ∈ d).
  { intros k. unfold ids. rewrite elem_of_list_to_set, list_elem_of_bind. split.
    - intros (h & Hk & Hh). apply list_elem_of_bind in Hk as (m & Hk & Hm).
      destruct (decide _) as [Hn|Hn]; [|by apply elem_of_nil in Hk].
      apply list_elem_of_singleton in Hk as ->.
      exists h, m. repeat split; try done.
      pose proof Hm as Hm'. apply list_elem_of_filter in Hm' as [Hal Hmem].
      specialize (Hweak h Hh). rewrite Forall_forall in Hweak.
      specialize (Hweak m Hmem Hal). unfold dict_values in Hweak.
      apply list_elem_of_fmap in Hweak as ([k' m'] & -> & Hin).
      pose proof (Hkeyed _ Hin) as E. simpl in E. simpl. by rewrite E.
    - intros (h & m & Hh & Hn & Hm & Hin). exists h. split; [|done].
      apply list_elem_of_bind. exists m. split; [|done].
      rewrite decide_True by done. apply list_elem_of_singleton.
      pose proof (Hkeyed _ Hin) as E. simpl in E. by rewrite E. }
  split.
  - intros k r Hin. rewrite Hchar. unfold related_to. rewrite Exists_exists. split.
    + intros (h & m & Hh & Hn & Hm & Hin'). exists h. split; [done|]. split; [done|].
      by rewrite (dict_key_unique d k r m Hkeys Hin Hin').
    + intros (h & Hh & Hn & Hm). eauto 10.
  - intros k (h & m & _ & _ & _ & Hin)%Hchar. by apply (list_elem_of_fmap_2 fst) in Hin.
Qed.

Lemma remove_by_related_hostnames_spec sd (names : gset string) (b : bool) st :
  graph_wf st sd →
  let d := SecurityData.affected_entities sd in
  let P := related_to st (SecurityData.related_hosts sd) names in
  ∃ st', SecurityData.remove_affected_entities_by_related_hostnames sd names b st
         = Ok (SecurityData.with_entities
                 (filter (λ kv, bool_decide (P kv.2) ≠ b) d)
                 (filter (λ x, WeakSet_nonempty st' (RelatedEntity.affected_entities x))
                         (SecurityData.related_hosts sd)) sd, st') ∧
         freed st st' (addr_of <$> dict_values (filter (λ kv, bool_decide (P kv.2) = b) d)).
Proof.
  intros Hwf d P.
  destruct (related_ids_spec sd names st Hwf) as [HP Hsub].
  destruct Hwf as [_ Hkeys Hkeyed Hown Haddrs _ _].
  destruct (del_matching P _ b d st Hkeys Haddrs Hown HP Hsub) as (st' & Hrun & Hfreed).
  exists st'. split; [|done].
  unfold SecurityData.remove_affected_entities_by_related_hostnames,
    SecurityData.remove_affected_entities_by_related_entity_name, bind, get_store, ret.
  destruct b.
  - subst d P. cbv zeta in Hrun. simpl in Hrun. simpl. by rewrite Hrun.
  - match goal with |- context [SecurityData.del_all (elements ?s)] =>
      replace s with (list_to_set (dict_keys d) ∖
        (list_to_set (related_host ← SecurityData.related_hosts sd;
                 affected_entity ← WeakSet_iter st (RelatedEntity.affected_entities related_host);
                 if decide (RelatedEntity.entity_name related_host ∈ names)
                 then [AffectedEntity.entity_id (obj affected_entity)] else []) : gset string))
    end.
    + subst d P. cbv zeta in Hrun. simpl in Hrun. simpl. by rewrite Hrun.
    + apply set_eq. intros x.
      rewrite elem_of_difference, !elem_of_list_to_set, list_elem_of_filter.
      rewrite elem_of_list_to_set. tauto.
Qed.

(** *** The closed form of [deepcopy] on a well-formed graph *)

Lemma deepcopy_dict_spec (d : list (string * Ref)) m st :
  NoDup (addr_of <$> dict_values d) →
  Forall (λ kv, memo_get (addr_of kv.2) m = None) d →
  deepcopy_dict d m st = Ok ((fresh_dict (next st) d, memo_of (next st) d m), store_copied st d).
Proof.
  revert m st. induction d as [|[k x] d IH]; intros m st Hnd Hm; [done|].
  unfold dict_values in Hnd. rewrite !fmap_cons in Hnd. simpl in Hnd.
  apply NoDup_cons in Hnd as [Hx Hnd].
  apply Forall_cons in Hm as [Hmx Hm]. simpl in Hmx.
  cbn [deepcopy_dict]. unfold bind at 1. unfold deepcopy_AffectedEntity. rewrite Hmx.
  cbn [alloc]. unfold bind at 1. unfold modify. cbn [fst snd addr_of].
  unfold bind at 1.
  rewrite IH.
  - reflexivity.
  - exact Hnd.
  - apply Forall_forall. intros [k' x'] Hin. simpl.
    rewrite decide_False.
    + rewrite Forall_forall in Hm. apply (Hm _ Hin).
    + intros Heq. apply Hx. rewrite <- Heq.
      apply list_elem_of_fmap. exists x'. split; [done|].
      by apply (list_elem_of_fmap_2 snd) in Hin.
Qed.

Lemma fresh_dict_keys a (d : list (string * Ref)) : (fresh_dict a d).*1 = d.*1.
Proof. revert a. induction d as [|[k x] d IH]; intros a; [done|]. simpl. by rewrite IH. Qed.

Lemma fresh_dict_objs a (d : list (string * Ref)) :
  obj <$> (fresh_dict a d).*2 = obj <$> d.*2.
Proof. revert a. induction d as [|[k x] d IH]; intros a; [done|]. simpl. by rewrite IH. Qed.

Lemma fresh_dict_lower a (d : list (string * Ref)) :
  Forall (λ kv, (a ≤ addr_of kv.2)%positive) (fresh_dict a d).
Proof.
  revert a. induction d as [|[k x] d IH]; intros a; [by constructor|].
  simpl. constructor; [simpl; lia|].
  eapply Forall_impl; [apply IH|]. simpl. intros; lia.
Qed.

Lemma fresh_dict_NoDup a (d : list (string * Ref)) :
  NoDup (addr_of <$> (fresh_dict a d).*2).
Proof.
  revert a. induction d as [|[k x] d IH]; intros a; [constructor|].
  simpl. apply NoDup_cons. split; [|apply IH].
  intros Hin. apply list_elem_of_fmap in Hin as (y & Ha & Hin).
  apply list_elem_of_fmap in Hin as (kv & -> & Hin).
  pose proof (fresh_dict_lower (Pos.succ a) d) as Hlow.
  rewrite Forall_forall in Hlow. specialize (Hlow _ Hin). lia.
Qed.

Lemma store_copied_next st (d : list (string * Ref)) :
  (next st ≤ next (store_copied st d))%positive.
Proof.
  revert st. induction d as [|kv d IH]; intros st; [simpl; lia|].
  simpl. etransitivity; [|apply IH]. simpl. lia.
Qed.

Lemma store_copied_frame st (d : list (string * Ref)) b :
  (b < next st)%positive → refs (store_copied st d) !! b = refs st !! b.
Proof.
  revert st. induction d as [|kv d IH]; intros st Hb; [done|].
  simpl. rewrite IH by (simpl; lia).
  rewrite incref_other by lia. simpl. rewrite lookup_insert_ne by lia. done.
Qed.

Lemma store_copied_fresh st (d : list (string * Ref)) :
  Forall (λ kv, (next st ≤ addr_of kv.2 < next (store_copied st d))%positive ∧
                refs (store_copied st d) !! addr_of kv.2 = Some 2)
         (fresh_dict (next st) d).
Proof.
  revert st. induction d as [|[k x] d IH]; intros st; [constructor|].
  simpl. constructor.
  - simpl. set (st1 := incref (next st) _).
    pose proof (store_copied_next st1 d) as Hn. simpl in Hn.
    split; [lia|]. rewrite store_copied_frame by (simpl; lia).
    unfold st1. rewrite incref_same. simpl. by rewrite lookup_insert_eq.
  - specialize (IH (incref (next st) (alloc st).2)). simpl in IH.
    eapply Forall_impl; [apply IH|]. simpl. intros kv [? ?]. split; [lia|done].
Qed.

Lemma store_copied_wf st (d : list (string * Ref)) :
  store_wf st → store_wf (store_copied st d).
Proof.
  revert st. induction d as [|kv d IH]; intros st Hwf; [done|].
  simpl. apply IH. unfold store_wf in *. simpl.
  intros a n. unfold incref. simpl. intros Hl.
  destruct (decide (a = next st)) as [->|Hne]; [lia|].
  rewrite lookup_alter_ne, lookup_insert_ne in Hl by done.
  specialize (Hwf a n Hl). simpl in Hwf. lia.
Qed.

Lemma memo_of_other a (d : list (string * Ref)) m b :
  b ∉ addr_of <$> d.*2 → memo_get b (memo_of a d m) = memo_get b m.
Proof.
  revert a m. induction d as [|[k x] d IH]; intros a m Hb; [done|].
  simpl in Hb. apply not_elem_of_cons in Hb as [Hne Hb].
  simpl. rewrite IH by done. simpl. by rewrite decide_False.
Qed.

Lemma fresh_dict_cp a (d : list (string * Ref)) m :
  NoDup (addr_of <$> d.*2) →
  fresh_dict a d = (λ kv, (kv.1, cp (memo_of a d m) kv.2)) <$> d.
Proof.
  revert a m. induction d as [|[k x] d IH]; intros a m Hnd; [done|].
  simpl in Hnd. apply NoDup_cons in Hnd as [Hx Hnd].
  cbn [fresh_dict memo_of fmap list_fmap]. f_equal.
  - simpl. unfold cp. rewrite memo_of_other by done. simpl.
    by rewrite decide_True.
  - apply IH, Hnd.
Qed.

Lemma memo_of_addrs a (d : list (string * Ref)) m :
  addr_of <$> (memo_of a d m).*2
  = reverse (addr_of <$> (fresh_dict a d).*2) ++ (addr_of <$> m.*2).
Proof.
  revert a m. induction d as [|[k x] d IH]; intros a m; [done|].
  simpl. rewrite IH. simpl. rewrite reverse_cons, <- app_assoc. done.
Qed.

Lemma release_spec (l : list positive) st :
  NoDup l → Forall (λ a, refs st !! a = Some 2) l →
  let st' := foldl (λ s a, decref a s) st l in
  next st' = next st ∧
  ∀ b, refs st' !! b = if decide (b ∈ l) then Some 1 else refs st !! b.
Proof.
  revert st. induction l as [|a l IH]; intros st Hnd Hl.
  - split; [done|]. intros b. cbn [foldl].
    rewrite decide_False; [done|apply not_elem_of_nil].
  - apply NoDup_cons in Hnd as [Ha Hnd]. apply Forall_cons in Hl as [Hla Hl].
    cbn [foldl]. destruct (IH (decref a st) Hnd) as [Hnext Hrefs].
    + apply Forall_forall. intros b Hb. rewrite decref_other.
      * rewrite Forall_forall in Hl. by apply Hl.
      * intros ->. done.
    + split; [by rewrite Hnext|].
      intros b. rewrite Hrefs.
      destruct (decide (b ∈ l)) as [Hb|Hb].
      * rewrite decide_True; [done|by right].
      * destruct (decide (b = a)) as [->|Hne].
        -- rewrite decide_True by left. unfold decref. simpl. rewrite Hla.
           by rewrite lookup_insert_eq.
        -- rewrite decide_False by (rewrite not_elem_of_cons; tauto).
           by rewrite decref_other.
Qed.

Lemma deepcopy_members_hit (l : list Ref) m st :
  Forall (λ x, is_Some (memo_get (addr_of x) m)) l →
  deepcopy_members l m st = Ok ((cp m <$> l, m), st).
Proof.
  induction 1 as [|x l [y Hy] _ IH]; [done|].
  cbn [deepcopy_members]. unfold bind at 1. unfold deepcopy_AffectedEntity. rewrite Hy.
  unfold ret at 1. unfold bind at 1. cbn [fst snd]. rewrite IH.
  unfold ret. rewrite fmap_cons.
  replace (cp m x) with y by (unfold cp; by rewrite Hy). done.
Qed.

Lemma deepcopy_hosts_hit (hosts : list RelatedEntity.t) m st :
  Forall (λ h, Forall (λ x, is_Some (memo_get (addr_of x) m)) (WeakSet_iter st (members_of h)))
         hosts →
  deepcopy_hosts hosts m st = Ok ((copy_host m st <$> hosts, m), st).
Proof.
  induction 1 as [|h hosts Hh _ IH]; [done|].
  cbn [deepcopy_hosts]. unfold bind at 1. unfold RelatedEntity_deepcopy.
  unfold bind at 1. unfold get_store. unfold bind at 1.
  unfold members_of in Hh. rewrite (deepcopy_members_hit _ _ _ Hh).
  unfold ret at 1. cbn [fst snd]. unfold bind at 1. rewrite IH.
  reflexivity.
Qed.

Lemma memo_of_hit a (d : list (string * Ref)) m b :
  b ∈ addr_of <$> d.*2 → is_Some (memo_get b (memo_of a d m)).
Proof.
  revert a m. induction d as [|[k y] d IH]; intros a m Hb; [by apply elem_of_nil in Hb|].
  simpl in Hb. simpl.
  destruct (decide (b ∈ addr_of <$> d.*2)) as [Hin|Hnin]; [by apply IH|].
  rewrite memo_of_other by done. apply elem_of_cons in Hb as [->|Hb]; [|done].
  simpl. rewrite decide_True by done. eauto.
Qed.

Lemma graph_wf_addr_bound st sd kv :
  graph_wf st sd → kv ∈ SecurityData.affected_entities sd → (addr_of kv.2 < next st)%positive.
Proof.
  intros [Hst _ _ Hown _ _ _] Hin. rewrite Forall_forall in Hown.
  apply (Hst _ 1). by apply Hown.
Qed.

Lemma WeakSet_iter_agree st st' (ws : list Ref) :
  (∀ r, r ∈ ws → refs st' !! addr_of r = refs st !! addr_of r) →
  WeakSet_iter st' ws = WeakSet_iter st ws.
Proof.
  intros Hagree. unfold WeakSet_iter. apply filter_ext_in.
  intros r Hr. unfold alive. by rewrite Hagree.
Qed.

Lemma deepcopy_spec sd st :
  graph_wf st sd → deepcopy sd st = Ok (clone_of st sd, store_cloned st sd).
Proof.
  intros Hwf. pose proof Hwf as [Hst Hkeys Hkeyed Hown Haddrs Hweak Hbound].
  unfold deepcopy. unfold bind at 1.
  rewrite deepcopy_dict_spec; [|done|by apply Forall_forall].
  cbn [fst snd]. unfold bind at 1.
  rewrite deepcopy_hosts_hit.
  - cbn [fst snd]. unfold bind, release_memo, modify, ret.
    unfold clone_of, store_cloned, clone_memo. do 3 f_equal.
    apply list_fmap_ext. intros i h Hh. unfold copy_host. f_equal. f_equal.
    apply WeakSet_iter_agree. intros r Hr. apply store_copied_frame.
    rewrite Forall_forall in Hbound.
    apply list_elem_of_lookup_2 in Hh. specialize (Hbound h Hh).
    rewrite Forall_forall in Hbound. by apply Hbound.
  - apply Forall_forall. intros h Hh. apply Forall_forall. intros x Hx.
    apply memo_of_hit. apply list_elem_of_fmap_2.
    apply list_elem_of_filter in Hx as [Hal Hx].
    rewrite Forall_forall in Hweak. specialize (Hweak h Hh).
    rewrite Forall_forall in Hweak. apply (Hweak x Hx).
    unfold alive in *. rewrite <- (store_copied_frame st (SecurityData.affected_entities sd)); [done|].
    rewrite Forall_forall in Hbound. specialize (Hbound h Hh).
    rewrite Forall_forall in Hbound. by apply Hbound.
Qed.

Lemma foldl_decref_entries (m : list (positive * Ref)) st :
  foldl (λ s e, decref (addr_of e.2) s) st m
  = foldl (λ s a, decref a s) st (addr_of <$> m.*2).
Proof. revert st. induction m as [|e m IH]; intros st; [done|]. simpl. apply IH. Qed.

Lemma store_cloned_spec sd st :
  let fresh := addr_of <$> (fresh_dict (next st) (SecurityData.affected_entities sd)).*2 in
  next (store_cloned st sd) = next (store_copied st (SecurityData.affected_entities sd)) ∧
  ∀ b, refs (store_cloned st sd) !! b =
       if decide (b ∈ fresh) then Some 1
       else refs (store_copied st (SecurityData.affected_entities sd)) !! b.
Proof.
  intros fresh. unfold store_cloned. rewrite foldl_decref_entries.
  unfold clone_memo. rewrite memo_of_addrs. simpl. rewrite app_nil_r. fold fresh.
  destruct (release_spec (reverse fresh)
              (store_copied st (SecurityData.affected_entities sd))) as [Hn Hr].
  - rewrite reverse_Permutation. apply fresh_dict_NoDup.
  - apply Forall_reverse. unfold fresh.
    pose proof (store_copied_fresh st (SecurityData.affected_entities sd)) as Hf.
    rewrite Forall_forall in Hf. apply Forall_forall. intros a Ha.
    apply list_elem_of_fmap in Ha as (y & -> & Hy).
    apply list_elem_of_fmap in Hy as (kv & -> & Hkv). by apply Hf.
  - split; [done|]. intros b. rewrite Hr.
    destruct (decide (b ∈ reverse fresh)) as [Hb|Hb].
    + rewrite elem_of_reverse in Hb. by rewrite decide_True.
    + rewrite elem_of_reverse in Hb. by rewrite decide_False.
Qed.

Lemma store_cloned_next sd st : (next st ≤ next (store_cloned st sd))%positive.
Proof.
  destruct (store_cloned_spec sd st) as [-> _]. apply store_copied_next.
Qed.

Lemma store_cloned_frame sd st b :
  (b < next st)%positive → refs (store_cloned st sd) !! b = refs st !! b.
Proof.
  intros Hb. destruct (store_cloned_spec sd st) as [_ ->].
  rewrite decide_False.
  - by apply store_copied_frame.
  - intros Hin. apply list_elem_of_fmap in Hin as (y & -> & Hy).
    apply list_elem_of_fmap in Hy as (kv & -> & Hkv).
    pose proof (fresh_dict_lower (next st) (SecurityData.affected_entities sd)) as Hlow.
    rewrite Forall_forall in Hlow. specialize (Hlow _ Hkv). lia.
Qed.

Lemma store_cloned_fresh sd st kv :
  kv ∈ fresh_dict (next st) (SecurityData.affected_entities sd) →
  (next st ≤ addr_of kv.2 < next (store_cloned st sd))%positive ∧
  refs (store_cloned st sd) !! addr_of kv.2 = Some 1.
Proof.
  intros Hkv. destruct (store_cloned_spec sd st) as [-> ->].
  pose proof (store_copied_fresh st (SecurityData.affected_entities sd)) as Hf.
  rewrite Forall_forall in Hf. destruct (Hf _ Hkv) as [Hb _]. split; [done|].
  rewrite decide_True; [done|].
  apply list_elem_of_fmap. exists kv.2. split; [done|]. by apply list_elem_of_fmap_2.
Qed.

Lemma store_cloned_wf sd st : store_wf st → store_wf (store_cloned st sd).
Proof.
  intros Hst a n Ha. destruct (store_cloned_spec sd st) as [Hn Hr].
  rewrite Hr in Ha. rewrite Hn. destruct (decide _) as [Hin|Hnin].
  - apply list_elem_of_fmap in Hin as (y & -> & Hy).
    apply list_elem_of_fmap in Hy as (kv & -> & Hkv).
    pose proof (store_copied_fresh st (SecurityData.affected_entities sd)) as Hf.
    rewrite Forall_forall in Hf. by destruct (Hf _ Hkv) as [[_ ?] _].
  - by apply (store_copied_wf st _ Hst a n).
Qed.

(** ** Well-formedness is kept *)

Lemma elem_of_footprint sd a :
  a ∈ footprint sd ↔
  a ∈ addr_of <$> dict_values (SecurityData.affected_entities sd) ∨
  ∃ h r, h ∈ SecurityData.related_hosts sd ∧ r ∈ members_of h ∧ a = addr_of r.
Proof.
  unfold footprint. rewrite elem_of_app, list_elem_of_bind. split.
  - intros [?|(h & Ha & Hh)]; [by left|right].
    apply list_elem_of_fmap in Ha as (r & -> & Hr). eauto.
  - intros [?|(h & r & Hh & Hr & ->)]; [by left|right].
    exists h. split; [|done]. by apply list_elem_of_fmap_2.
Qed.

Lemma graph_wf_agree st st' sd :
  graph_wf st sd → store_wf st' → (next st ≤ next st')%positive →
  (∀ a, a ∈ footprint sd → refs st' !! a = refs st !! a) →
  graph_wf st' sd.
Proof.
  intros [Hst Hkeys Hkeyed Hown Haddrs Hweak Hbound] Hst' Hnext Hagree.
  split; try done.
  - apply Forall_forall. intros kv Hkv. rewrite Hagree.
    + rewrite Forall_forall in Hown. by apply Hown.
    + apply elem_of_footprint. left.
      apply list_elem_of_fmap_2. by apply list_elem_of_fmap_2.
  - apply Forall_forall. intros h Hh. apply Forall_forall. intros r Hr Hal.
    rewrite Forall_forall in Hweak. specialize (Hweak h Hh).
    rewrite Forall_forall in Hweak. apply (Hweak r Hr).
    unfold alive in *. rewrite <- Hagree; [done|].
    apply elem_of_footprint. right. eauto.
  - apply Forall_forall. intros h Hh. apply Forall_forall. intros r Hr.
    rewrite Forall_forall in Hbound. specialize (Hbound h Hh).
    rewrite Forall_forall in Hbound. specialize (Hbound r Hr). lia.
Qed.

Lemma freed_alive st st' dead a :
  freed st st' dead → (alive st' a ↔ alive st a ∧ a ∉ dead).
Proof.
  intros [_ Hr]. unfold alive. rewrite Hr. destruct (decide (a ∈ dead)).
  - split; [by intros [? ?]|tauto].
  - tauto.
Qed.

Lemma freed_store_wf st st' dead : store_wf st → freed st st' dead → store_wf st'.
Proof.
  intros Hst [Hn Hr] a n Ha. rewrite Hr in Ha. rewrite Hn.
  destruct (decide (a ∈ dead)); [done|]. by apply (Hst a n).
Qed.

(** A removal keeps the entries that satisfy [keep], frees the instances of
    the others, and leaves a sublist of the hosts. *)
Lemma graph_wf_restrict (keep drop : string * Ref → Prop)
    `{!∀ kv, Decision (keep kv)} `{!∀ kv, Decision (drop kv)}
    st st' sd (hosts' : list RelatedEntity.t) :
  graph_wf st sd →
  (∀ kv, kv ∈ SecurityData.affected_entities sd → (drop kv ↔ ¬ keep kv)) →
  freed st st' (addr_of <$> dict_values (filter drop (SecurityData.affected_entities sd))) →
  (∀ h, h ∈ hosts' → h ∈ SecurityData.related_hosts sd) →
  graph_wf st' (SecurityData.with_entities
                  (filter keep (SecurityData.affected_entities sd)) hosts' sd).
Proof.
  intros [Hst Hkeys Hkeyed Hown Haddrs Hweak Hbound] Hdrop Hfreed Hsub.
  set (d := SecurityData.affected_entities sd) in *.
  assert (Hdead : ∀ kv, kv ∈ d → addr_of kv.2 ∈ addr_of <$> dict_values (filter drop d) → drop kv).
  { intros kv Hkv Hin. unfold dict_values in Hin. rewrite <- list_fmap_compose in Hin.
    apply list_elem_of_fmap in Hin as (kv' & Heq & Hkv').
    apply list_elem_of_filter in Hkv' as [Hd Hkv'].
    unfold dict_values in Haddrs. rewrite <- list_fmap_compose in Haddrs.
    by rewrite (NoDup_fmap_elem_inj _ _ kv kv' Haddrs Hkv Hkv' Heq). }
  split; simpl.
  - by eapply freed_store_wf.
  - unfold dict_keys. by apply NoDup_fmap_filter.
  - apply Forall_forall. intros kv [_ Hkv]%list_elem_of_filter.
    rewrite Forall_forall in Hkeyed. by apply Hkeyed.
  - apply Forall_forall. intros kv [Hk Hkv]%list_elem_of_filter.
    destruct Hfreed as [_ ->]. rewrite decide_False.
    + rewrite Forall_forall in Hown. by apply Hown.
    + intros Hin. by apply (Hdrop kv Hkv); [apply Hdead|].
  - unfold dict_values. rewrite <- list_fmap_compose. apply NoDup_fmap_filter.
    by rewrite list_fmap_compose.
  - apply Forall_forall. intros h Hh. apply Forall_forall. intros r Hr Hal.
    apply (freed_alive _ _ _ _ Hfreed) in Hal as [Hal Hnd].
    rewrite Forall_forall in Hweak. specialize (Hweak h (Hsub h Hh)).
    rewrite Forall_forall in Hweak. specialize (Hweak r Hr Hal).
    unfold dict_values in Hweak. apply list_elem_of_fmap in Hweak as ([k r'] & -> & Hin).
    apply list_elem_of_fmap. exists (k, r'). split; [done|].
    apply list_elem_of_filter. split; [|done].
    destruct (decide (keep (k, r'))) as [|Hnk]; [done|]. exfalso. apply Hnd.
    unfold dict_values. rewrite <- list_fmap_compose.
    apply list_elem_of_fmap. exists (k, r'). split; [done|].
    apply list_elem_of_filter. split; [|done]. by apply Hdrop.
  - apply Forall_forall. intros h Hh. destruct Hfreed as [-> _].
    rewrite Forall_forall in Hbound. by apply Hbound, Hsub.
Qed.

Lemma fresh_dict_elem a (d : list (string * Ref)) kv :
  kv ∈ fresh_dict a d → ∃ x, (kv.1, x) ∈ d ∧ obj kv.2 = obj x.
Proof.
  revert a. induction d as [|[k x] d IH]; intros a Hin; [by apply elem_of_nil in Hin|].
  simpl in Hin. apply elem_of_cons in Hin as [->|Hin].
  - exists x. split; [left|done].
  - destruct (IH _ Hin) as (y & Hy & Ho). exists y. split; [by right|done].
Qed.

Lemma clone_wf sd st : graph_wf st sd → graph_wf (store_cloned st sd) (clone_of st sd).
Proof.
  intros Hwf. pose proof Hwf as [Hst Hkeys Hkeyed Hown Haddrs Hweak Hbound].
  set (d := SecurityData.affected_entities sd) in *.
  pose proof (fresh_dict_cp (next st) d [] Haddrs) as Hcp. fold (clone_memo st sd) in Hcp.
  split; simpl.
  - by apply store_cloned_wf.
  - unfold dict_keys. by rewrite fresh_dict_keys.
  - apply Forall_forall. intros kv Hkv.
    destruct (fresh_dict_elem _ _ _ Hkv) as (x & Hx & ->).
    rewrite Forall_forall in Hkeyed. apply (Hkeyed _ Hx).
  - apply Forall_forall. intros kv Hkv. by apply store_cloned_fresh.
  - apply fresh_dict_NoDup.
  - apply Forall_fmap. apply Forall_forall. intros h Hh. simpl.
    unfold members_of. simpl. apply Forall_fmap. apply Forall_forall. intros r Hr _. simpl.
    apply list_elem_of_filter in Hr as [Hal Hr].
    rewrite Forall_forall in Hweak. specialize (Hweak h Hh).
    rewrite Forall_forall in Hweak. specialize (Hweak r Hr Hal).
    fold d. rewrite Hcp. unfold dict_values. rewrite <- list_fmap_compose.
    unfold dict_values in Hweak. apply list_elem_of_fmap in Hweak as (kv & -> & Hkv).
    apply list_elem_of_fmap. by exists kv.
  - apply Forall_fmap. apply Forall_forall. intros h Hh. simpl.
    unfold members_of. simpl. apply Forall_fmap. apply Forall_forall. intros r Hr. simpl.
    apply list_elem_of_filter in Hr as [Hal Hr].
    rewrite Forall_forall in Hweak. specialize (Hweak h Hh).
    rewrite Forall_forall in Hweak. specialize (Hweak r Hr Hal).
    unfold dict_values in Hweak. apply list_elem_of_fmap in Hweak as (kv & -> & Hkv).
    assert ((kv.1, cp (clone_memo st sd) kv.2) ∈ fresh_dict (next st) d) as Hf.
    { rewrite Hcp. apply list_elem_of_fmap. by exists kv. }
    by destruct (store_cloned_fresh sd st _ Hf) as [[_ ?] _].
Qed.

Lemma source_wf_after_clone sd st : graph_wf st sd → graph_wf (store_cloned st sd) sd.
Proof.
  intros Hwf. apply (graph_wf_agree st); [done| |apply store_cloned_next|].
  - apply store_cloned_wf, Hwf.
  - intros a Ha. apply store_cloned_frame.
    apply elem_of_footprint in Ha as [Ha|(h & r & Hh & Hr & ->)].
    + apply list_elem_of_fmap in Ha as (y & -> & Hy).
      apply list_elem_of_fmap in Hy as (kv & -> & Hkv).
      by eapply graph_wf_addr_bound.
    + destruct Hwf as [_ _ _ _ _ _ Hbound].
      rewrite Forall_forall in Hbound. specialize (Hbound h Hh).
      rewrite Forall_forall in Hbound. by apply Hbound.
Qed.

(** ** What a removal does to its graph and to the store *)

Lemma shrinks_restrict (keep drop : string * Ref → Prop)
    `{!∀ kv, Decision (keep kv)} `{!∀ kv, Decision (drop kv)}
    st st' sd (hosts' : list RelatedEntity.t) :
  graph_wf st sd →
  (∀ kv, kv ∈ SecurityData.affected_entities sd → (drop kv ↔ ¬ keep kv)) →
  freed st st' (addr_of <$> dict_values (filter drop (SecurityData.affected_entities sd))) →
  (∀ h, h ∈ hosts' → h ∈ SecurityData.related_hosts sd) →
  shrinks st sd st'
    (SecurityData.with_entities (filter keep (SecurityData.affected_entities sd)) hosts' sd).
Proof.
  intros Hwf Hdrop Hfreed Hsub. split; simpl.
  - by eapply graph_wf_restrict.
  - unfold tags_ok. simpl. intros Ht. apply Forall_forall. intros r Hr.
    rewrite Forall_forall in Ht. apply Ht.
    unfold dict_values in *. apply list_elem_of_fmap in Hr as (kv & -> & Hkv).
    apply list_elem_of_filter in Hkv as [_ Hkv]. by apply list_elem_of_fmap_2.
  - by intros kv [_ ?]%list_elem_of_filter.
  - done.
  - by destruct Hfreed.
  - intros a Ha. destruct Hfreed as [_ ->]. rewrite decide_False; [done|].
    intros Hin. apply Ha. unfold dict_values in *.
    apply list_elem_of_fmap in Hin as (y & -> & Hy).
    apply list_elem_of_fmap in Hy as (kv & -> & Hkv).
    apply list_elem_of_filter in Hkv as [_ Hkv].
    apply list_elem_of_fmap_2. by apply list_elem_of_fmap_2.
  - intros a Ha. by apply (freed_alive _ _ _ _ Hfreed) in Ha as [? _].
Qed.

Lemma bool_decide_drop_keep (P : Prop) `{!Decision P} (b : bool) :
  bool_decide P = b ↔ ¬ bool_decide P ≠ b.
Proof. destruct (bool_decide P), b; naive_solver. Qed.

Lemma apply_removal_shrinks sd op st :
  graph_wf st sd → tags_ok sd →
  ∃ sd' st', apply_removal sd op st = Ok (sd', st') ∧ shrinks st sd st' sd'.
Proof.
  intros Hwf Htags. destruct op as [names b|tags b|names b]; simpl.
  - destruct (remove_by_name_spec sd names b st Hwf) as (st' & Hrun & Hfreed).
    eexists _, st'. split; [exact Hrun|].
    eapply shrinks_restrict; [done| |exact Hfreed|done].
    intros kv _. apply bool_decide_drop_keep.
  - destruct (remove_by_tags_spec sd tags b st Hwf Htags) as (st' & Hrun & Hfreed).
    eexists _, st'. split; [exact Hrun|].
    eapply shrinks_restrict; [done| |exact Hfreed|done].
    intros kv _. apply bool_decide_drop_keep.
  - destruct (remove_by_related_hostnames_spec sd names b st Hwf) as (st' & Hrun & Hfreed).
    eexists _, st'. split; [exact Hrun|].
    eapply shrinks_restrict; [done| |exact Hfreed|].
    + intros kv _. apply bool_decide_drop_keep.
    + by intros h [_ ?]%list_elem_of_filter.
Qed.

Lemma shrinks_refl st sd : graph_wf st sd → shrinks st sd st sd.
Proof. intros Hwf. by split. Qed.

Lemma shrinks_trans st1 sd1 st2 sd2 st3 sd3 :
  shrinks st1 sd1 st2 sd2 → shrinks st2 sd2 st3 sd3 → shrinks st1 sd1 st3 sd3.
Proof.
  intros H12 H23. split.
  - apply H23.
  - intros Ht. apply H23, H12, Ht.
  - intros kv Hkv. apply H12, H23, Hkv.
  - intros h Hh. apply H12, H23, Hh.
  - rewrite (sh_next _ _ _ _ H23). apply H12.
  - intros a Ha. rewrite (sh_frame _ _ _ _ H23).
    + by apply H12.
    + intros Hin. apply Ha. unfold dict_values in *.
      apply list_elem_of_fmap in Hin as (y & -> & Hy).
      apply list_elem_of_fmap in Hy as (kv & -> & Hkv).
      apply list_elem_of_fmap_2, list_elem_of_fmap_2. by apply H12.
  - intros a Ha. by apply H12, H23.
Qed.

Lemma apply_removals_shrinks ops sd st :
  graph_wf st sd → tags_ok sd →
  ∃ sd' st', apply_removals sd ops st = Ok (sd', st') ∧ shrinks st sd st' sd'.
Proof.
  revert sd st. induction ops as [|op ops IH]; intros sd st Hwf Htags.
  - exists sd, st. split; [done|]. by apply shrinks_refl.
  - destruct (apply_removal_shrinks sd op st Hwf Htags) as (sd1 & st1 & Hrun1 & Hsh1).
    destruct (IH sd1 st1) as (sd2 & st2 & Hrun2 & Hsh2).
    + apply Hsh1.
    + by apply Hsh1.
    + exists sd2, st2. split; [|by eapply shrinks_trans].
      cbn [apply_removals]. unfold bind. by rewrite Hrun1.
Qed.

(** A graph that shares no address with the entries of the graph being
    reduced is untouched. *)
Lemma shrinks_frame st sd st' sd' g :
  shrinks st sd st' sd' → graph_wf st g →
  (∀ a, a ∈ footprint g → a ∉ addr_of <$> dict_values (SecurityData.affected_entities sd)) →
  graph_wf st' g ∧
  (∀ a, a ∈ footprint g → refs st' !! a = refs st !! a) ∧
  Forall (λ h, WeakSet_iter st' (members_of h) = WeakSet_iter st (members_of h))
         (SecurityData.related_hosts g).
Proof.
  intros Hsh Hwf Hdisj.
  assert (Hagree : ∀ a, a ∈ footprint g → refs st' !! a = refs st !! a).
  { intros a Ha. apply Hsh. by apply Hdisj. }
  split; [|split; [done|]].
  - apply (graph_wf_agree st); [done| | |done].
    + apply Hsh.
    + rewrite (sh_next _ _ _ _ Hsh). lia.
  - apply Forall_forall. intros h Hh. apply WeakSet_iter_agree.
    intros r Hr. apply Hagree. apply elem_of_footprint. right. eauto.
Qed.

(** ** The entries a removal selects *)

Lemma apply_removal_spec sd op st :
  graph_wf st sd → tags_ok sd →
  ∃ sd' st', apply_removal sd op st = Ok (sd', st') ∧ shrinks st sd st' sd' ∧
    SecurityData.affected_entities sd'
    = filter (λ kv, bool_decide (selected op st sd kv.2) ≠ remove_matches_of op)
             (SecurityData.affected_entities sd) ∧
    (match op with
     | ByRelatedHostnames _ _ =>
         SecurityData.related_hosts sd'
         = filter (λ h, WeakSet_nonempty st' (members_of h)) (SecurityData.related_hosts sd)
     | _ => SecurityData.related_hosts sd' = SecurityData.related_hosts sd
     end).
Proof.
  intros Hwf Htags. destruct op as [names b|tags b|names b]; simpl.
  - destruct (remove_by_name_spec sd names b st Hwf) as (st' & Hrun & Hfreed).
    eexists _, st'. split; [exact Hrun|]. split; [|done].
    eapply shrinks_restrict; [done| |exact Hfreed|done].
    intros kv _. apply bool_decide_drop_keep.
  - destruct (remove_by_tags_spec sd tags b st Hwf Htags) as (st' & Hrun & Hfreed).
    eexists _, st'. split; [exact Hrun|]. split; [|done].
    eapply shrinks_restrict; [done| |exact Hfreed|done].
    intros kv _. apply bool_decide_drop_keep.
  - destruct (remove_by_related_hostnames_spec sd names b st Hwf) as (st' & Hrun & Hfreed).
    eexists _, st'. split; [exact Hrun|]. split; [|done].
    eapply shrinks_restrict; [done| |exact Hfreed|].
    + intros kv _. apply bool_decide_drop_keep.
    + by intros h [_ ?]%list_elem_of_filter.
Qed.

Lemma get_match_and_remainder_unfold c sd matches :
  Rule.get_match_and_remainder c sd matches =
  (remainder <- deepcopy sd ;;
   security_data <- apply_removal sd (strategy c matches false) ;;
   remainder <- apply_removal remainder (strategy c matches true) ;;
   ret (security_data, remainder)).
Proof. by destruct c. Qed.

(** *** The clone selects the copies of what the source selects *)

Lemma clone_entries sd st :
  graph_wf st sd →
  SecurityData.affected_entities (clone_of st sd)
  = (λ kv, (kv.1, cp (clone_memo st sd) kv.2)) <$> SecurityData.affected_entities sd.
Proof. intros Hwf. simpl. apply fresh_dict_cp, Hwf. Qed.

Lemma cp_obj sd st kv :
  graph_wf st sd → kv ∈ SecurityData.affected_entities sd →
  obj (cp (clone_memo st sd) kv.2) = obj kv.2.
Proof.
  intros Hwf Hkv.
  assert ((kv.1, cp (clone_memo st sd) kv.2) ∈ SecurityData.affected_entities (clone_of st sd)) as Hf.
  { rewrite clone_entries by done. apply list_elem_of_fmap. by exists kv. }
  simpl in Hf. destruct (fresh_dict_elem _ _ _ Hf) as (x & Hx & Ho). simpl in *.
  rewrite Ho. f_equal. destruct kv as [k r]. simpl in *.
  symmetry. eapply dict_key_unique; eauto. apply Hwf.
Qed.

Lemma cp_inj sd st kv kv' :
  graph_wf st sd →
  kv ∈ SecurityData.affected_entities sd → kv' ∈ SecurityData.affected_entities sd →
  cp (clone_memo st sd) kv.2 = cp (clone_memo st sd) kv'.2 → kv = kv'.
Proof.
  intros Hwf Hkv Hkv' Heq.
  pose proof (clone_wf sd st Hwf) as [_ Hk _ _ Ha _ _].
  rewrite clone_entries in Ha by done. unfold dict_values in Ha.
  rewrite <- !list_fmap_compose in Ha.
  apply (NoDup_fmap_elem_inj _ _ kv kv' Ha Hkv Hkv'). simpl. by rewrite Heq.
Qed.

Lemma tags_ok_clone sd st : graph_wf st sd → tags_ok sd → tags_ok (clone_of st sd).
Proof.
  intros Hwf Ht. unfold tags_ok. rewrite clone_entries by done.
  unfold dict_values. rewrite <- list_fmap_compose. apply Forall_fmap.
  apply Forall_forall. intros kv Hkv. simpl. rewrite cp_obj by done.
  unfold tags_ok in Ht. rewrite Forall_forall in Ht. apply Ht.
  by apply list_elem_of_fmap_2.
Qed.

Lemma clone_footprint_fresh sd st a :
  graph_wf st sd → a ∈ footprint (clone_of st sd) → (next st ≤ a)%positive.
Proof.
  intros Hwf Ha. pose proof Hwf as [_ _ _ _ _ Hweak _].
  assert (Hd : ∀ kv, kv ∈ fresh_dict (next st) (SecurityData.affected_entities sd) →
               (next st ≤ addr_of kv.2)%positive).
  { intros kv Hkv. by destruct (store_cloned_fresh sd st kv Hkv) as [[? _] _]. }
  apply elem_of_footprint in Ha as [Ha|(h & r & Hh & Hr & ->)].
  - apply list_elem_of_fmap in Ha as (y & -> & Hy).
    apply list_elem_of_fmap in Hy as (kv & -> & Hkv). by apply Hd.
  - simpl in Hh. apply list_elem_of_fmap in Hh as (h0 & -> & Hh0).
    unfold members_of in Hr. simpl in Hr.
    apply list_elem_of_fmap in Hr as (x & -> & Hx).
    apply list_elem_of_filter in Hx as [Hal Hx].
    rewrite Forall_forall in Hweak. specialize (Hweak h0 Hh0).
    rewrite Forall_forall in Hweak. specialize (Hweak x Hx Hal).
    unfold dict_values in Hweak. apply list_elem_of_fmap in Hweak as (kv & -> & Hkv).
    apply (Hd (kv.1, cp (clone_memo st sd) kv.2)).
    pose proof (clone_entries sd st Hwf) as Hce. simpl in Hce. rewrite Hce.
    apply list_elem_of_fmap. by exists kv.
Qed.

Lemma source_footprint_old sd st a :
  graph_wf st sd → a ∈ footprint sd → (a < next st)%positive.
Proof.
  intros Hwf Ha. apply elem_of_footprint in Ha as [Ha|(h & r & Hh & Hr & ->)].
  - apply list_elem_of_fmap in Ha as (y & -> & Hy).
    apply list_elem_of_fmap in Hy as (kv & -> & Hkv). by eapply graph_wf_addr_bound.
  - destruct Hwf as [_ _ _ _ _ _ Hbound].
    rewrite Forall_forall in Hbound. specialize (Hbound h Hh).
    rewrite Forall_forall in Hbound. by apply Hbound.
Qed.

Lemma tagged_obj tags r r' : obj r = obj r' → (tagged tags r ↔ tagged tags r').
Proof. unfold tagged. by intros ->. Qed.

Lemma shrinks_footprint st sd st' sd' a :
  shrinks st sd st' sd' → a ∈ footprint sd' → a ∈ footprint sd.
Proof.
  intros Hsh. rewrite !elem_of_footprint. intros [Ha|(h & r & Hh & Hr & ->)].
  - left. unfold dict_values in *.
    apply list_elem_of_fmap in Ha as (y & -> & Hy).
    apply list_elem_of_fmap in Hy as (kv & -> & Hkv).
    apply list_elem_of_fmap_2, list_elem_of_fmap_2. by apply Hsh.
  - right. exists h, r. split; [by apply Hsh|done].
Qed.

Lemma selected_clone c matches sd st st2 m kv :
  graph_wf st sd →
  shrinks (store_cloned st sd) sd st2 m →
  kv ∈ SecurityData.affected_entities sd →
  selected (strategy c matches true) st2 (clone_of st sd) (cp (clone_memo st sd) kv.2)
  ↔ selected (strategy c matches false) (store_cloned st sd) sd kv.2.
Proof.
  intros Hwf Hsh Hkv. pose proof (cp_obj sd st kv Hwf Hkv) as Hobj.
  destruct c; simpl.
  - (* by related host name *)
    unfold related_to. rewrite Exists_fmap, !Exists_exists.
    enough (Hiff : ∀ h, h ∈ SecurityData.related_hosts sd →
              (RelatedEntity.entity_name (copy_host (clone_memo st sd) st h) ∈ matches ∧
               cp (clone_memo st sd) kv.2
                 ∈ WeakSet_iter st2 (members_of (copy_host (clone_memo st sd) st h)))
              ↔ (RelatedEntity.entity_name h ∈ matches ∧
                 kv.2 ∈ WeakSet_iter (store_cloned st sd) (members_of h))).
    { split; intros (h & Hh & HP); exists h; (split; [done|]); by apply (Hiff h Hh). }
    intros h Hh. unfold copy_host at 1 2. cbn [RelatedEntity.entity_name].
    unfold members_of at 1. cbn [RelatedEntity.affected_entities].
    set (L := WeakSet_iter st (members_of h)).
    assert (HL : ∀ x, x ∈ L → ∃ k, (k, x) ∈ SecurityData.affected_entities sd).
    { intros x [Hal Hx]%list_elem_of_filter. destruct Hwf as [_ _ _ _ _ Hweak _].
      rewrite Forall_forall in Hweak. specialize (Hweak h Hh).
      rewrite Forall_forall in Hweak. specialize (Hweak x Hx Hal).
      unfold dict_values in Hweak. apply list_elem_of_fmap in Hweak as ([k x'] & -> & Hin).
      eauto. }
    assert (WeakSet_iter (store_cloned st sd) (members_of h) = L) as ->.
    { apply WeakSet_iter_agree. intros r Hr. apply store_cloned_frame.
      apply (source_footprint_old sd st _ Hwf). apply elem_of_footprint. right. eauto. }
    assert (WeakSet_iter st2 (cp (clone_memo st sd) <$> L) = cp (clone_memo st sd) <$> L) as ->.
    { unfold WeakSet_iter at 1. apply filter_all. apply Forall_fmap.
      apply Forall_forall. intros x Hx. simpl. destruct (HL x Hx) as [k Hin].
      assert ((k, cp (clone_memo st sd) x) ∈ fresh_dict (next st) (SecurityData.affected_entities sd))
        as Hf.
      { pose proof (clone_entries sd st Hwf) as Hce. simpl in Hce. rewrite Hce.
        apply list_elem_of_fmap. by exists (k, x). }
      destruct (store_cloned_fresh sd st _ Hf) as [[Hlo _] Hone]. simpl in *.
      unfold alive. rewrite (sh_frame _ _ _ _ Hsh); [by rewrite Hone|].
      intros Hin'. unfold dict_values in Hin'.
      apply list_elem_of_fmap in Hin' as (y & Heq & Hy).
      apply list_elem_of_fmap in Hy as (kv' & -> & Hkv').
      pose proof (graph_wf_addr_bound st sd kv' Hwf Hkv'). lia. }
    split; intros [Hn Hin]; (split; [done|]).
    + apply list_elem_of_fmap in Hin as (x & Heq & Hx).
      destruct (HL x Hx) as [k Hkx].
      assert (kv = (k, x)) as -> by (by apply (cp_inj sd st)). done.
    + by apply list_elem_of_fmap_2.
  - (* by name *) by rewrite Hobj.
  - (* by tag *) by apply tagged_obj.
Qed.

Lemma partition_ids (d : list (string * Ref)) (f : Ref → Ref) (P Q : Ref → Prop)
    `{!∀ r, Decision (P r)} `{!∀ r, Decision (Q r)} :
  NoDup (dict_keys d) →
  (∀ kv, kv ∈ d → (Q (f kv.2) ↔ P kv.2)) →
  let matched : gset string :=
    list_to_set (dict_keys (filter (λ kv, bool_decide (P kv.2) ≠ false) d)) in
  let remainder : gset string :=
    list_to_set (dict_keys (filter (λ kv, bool_decide (Q kv.2) ≠ true)
                                   ((λ kv, (kv.1, f kv.2)) <$> d))) in
  matched ## remainder ∧ matched ∪ remainder = list_to_set (dict_keys d).
Proof.
  intros Hkeys HPQ matched remainder.
  assert (Hm : ∀ k, k ∈ matched ↔ ∃ r, (k, r) ∈ d ∧ P r).
  { intros k. unfold matched, dict_keys. rewrite elem_of_list_to_set, list_elem_of_fmap. split.
    - intros ([k' r] & -> & [HP Hin]%list_elem_of_filter). exists r. split; [done|].
      simpl in HP. by destruct (decide (P r)); [|rewrite bool_decide_eq_false_2 in HP].
    - intros (r & Hin & HP). exists (k, r). split; [done|].
      apply list_elem_of_filter. split; [|done]. simpl. by rewrite bool_decide_eq_true_2. }
  assert (Hr : ∀ k, k ∈ remainder ↔ ∃ r, (k, r) ∈ d ∧ ¬ P r).
  { intros k. unfold remainder, dict_keys. rewrite elem_of_list_to_set, list_elem_of_fmap. split.
    - intros ([k' r'] & -> & [HQ Hin]%list_elem_of_filter).
      apply list_elem_of_fmap in Hin as ([k0 r0] & [= -> ->] & Hin).
      exists r0. split; [done|]. simpl in HQ. intros HP. apply HQ.
      apply bool_decide_eq_true_2. by apply (HPQ (k0, r0)).
    - intros (r & Hin & HnP). exists (k, f r). split; [done|].
      apply list_elem_of_filter. split.
      + simpl. rewrite bool_decide_eq_false_2; [done|]. intros HQ. apply HnP.
        by apply (HPQ (k, r)).
      + apply list_elem_of_fmap. by exists (k, r). }
  split.
  - intros k (r & Hin & HP)%Hm (r' & Hin' & HnP)%Hr.
    apply HnP. by rewrite (dict_key_unique d k r' r Hkeys Hin' Hin).
  - apply set_eq. intros k. rewrite elem_of_union, Hm, Hr, elem_of_list_to_set.
    unfold dict_keys. rewrite list_elem_of_fmap. split.
    + intros [(r & Hin & _)|(r & Hin & _)]; by exists (k, r).
    + intros ([k' r] & -> & Hin). destruct (decide (P r)); [left|right]; eauto.
Qed.

Lemma get_match_and_remainder_spec c sd matches st :
  graph_wf st sd → tags_ok sd →
  ∃ m rem st', Rule.get_match_and_remainder c sd matches st = Ok ((m, rem), st') ∧
    graph_wf st' m ∧ graph_wf st' rem ∧
    affected_ids m ## affected_ids rem ∧
    affected_ids m ∪ affected_ids rem = affected_ids sd.
Proof.
  intros Hwf Htags.
  pose proof (deepcopy_spec sd st Hwf) as Hcopy.
  pose proof (source_wf_after_clone sd st Hwf) as Hwf1.
  destruct (apply_removal_spec sd (strategy c matches false) _ Hwf1 Htags)
    as (m & st2 & Hrun1 & Hsh1 & Hm & _).
  assert (Hdisj : ∀ a, a ∈ footprint (clone_of st sd) →
            a ∉ addr_of <$> dict_values (SecurityData.affected_entities sd)).
  { intros a Ha Hin. pose proof (clone_footprint_fresh sd st a Hwf Ha).
    assert (a ∈ footprint sd) as Hfp by (apply elem_of_footprint; by left).
    pose proof (source_footprint_old sd st a Hwf Hfp). lia. }
  destruct (shrinks_frame _ _ _ _ (clone_of st sd) Hsh1 (clone_wf sd st Hwf) Hdisj)
    as (Hwfc & _ & _).
  destruct (apply_removal_spec (clone_of st sd) (strategy c matches true) st2 Hwfc
              (tags_ok_clone sd st Hwf Htags))
    as (rem & st3 & Hrun2 & Hsh2 & Hrem & _).
  exists m, rem, st3. split; [|split; [|split]].
  - rewrite get_match_and_remainder_unfold. unfold bind.
    rewrite Hcopy, Hrun1, Hrun2. done.
  - apply (shrinks_frame _ _ _ _ m Hsh2 (sh_wf _ _ _ _ Hsh1)).
    intros a Ha Hin.
    pose proof (shrinks_footprint _ _ _ _ a Hsh1 Ha) as Ha'.
    pose proof (source_footprint_old sd st a Hwf Ha').
    assert (a ∈ footprint (clone_of st sd)) as Hc by (apply elem_of_footprint; by left).
    pose proof (clone_footprint_fresh sd st a Hwf Hc). lia.
  - apply Hsh2.
  - unfold affected_ids. rewrite Hm, Hrem, (clone_entries sd st Hwf).
    assert (strategy_flag : ∀ b, remove_matches_of (strategy c matches b) = b) by (by destruct c).
    rewrite !strategy_flag.
    apply (partition_ids (SecurityData.affected_entities sd) (cp (clone_memo st sd))
             (selected (strategy c matches false) (store_cloned st sd) sd)
             (selected (strategy c matches true) st2 (clone_of st sd))).
    + apply Hwf.
    + intros kv Hkv. by apply (selected_clone c matches sd st st2 m).
Qed.

(** ** Rule.match *)

Lemma target_attribute_values_ok r sd st :
  tags_ok sd →
  Rule.target_attribute_values r sd st = Ok (target_view (Rule.class r) st sd, st).
Proof.
  intros Ht. unfold Rule.target_attribute_values, target_view.
  destruct (Rule.class r); try done.
  unfold bind, lift, SecurityData.affected_entity_tags.
  rewrite traverse_string_representation; [done|].
  unfold tags_ok in Ht. apply Forall_forall. intros t Hin.
  apply list_elem_of_bind in Hin as (x & Hin & Hx).
  rewrite Forall_forall in Ht. specialize (Ht x Hx).
  rewrite Forall_forall in Ht. by apply Ht.
Qed.

Lemma matches_any (f : string → bool) (view : list string) :
  existsb snd ((λ x, (x, f x)) <$> view) = existsb f view.
Proof.
  induction view as [|x l IH]; [done|].
  rewrite fmap_cons. cbn [existsb snd]. by rewrite IH.
Qed.

Lemma matches_keys (f : string → bool) (view : list string) :
  fst <$> filter (λ kv : string * bool, kv.2 = true) ((λ x, (x, f x)) <$> view)
  = filter (λ x, f x = true) view.
Proof.
  induction view as [|x l IH]; [done|].
  rewrite fmap_cons, !filter_cons. simpl.
  destruct (decide (f x = true)); [rewrite fmap_cons; simpl|]; by rewrite IH.
Qed.

Lemma match_spec r sd st :
  tags_ok sd →
  let view := target_view (Rule.class r) st sd in
  Rule.match_ r (Some sd) st =
    if Rule.below_minimum_score r sd then Ok ((None, Some sd), st)
    else if negb (some_match r view) then Ok ((None, Some sd), st)
    else if Rule.stop_after_match r then Ok ((Some sd, None), st)
    else match Rule.get_match_and_remainder (Rule.class r) sd (match_set r view) st with
         | Ok (p, st') => Ok ((Some p.1, Some p.2), st')
         | Raise e => Raise e
         end.
Proof.
  intros Ht view. unfold Rule.match_.
  destruct (Rule.below_minimum_score r sd); [done|].
  unfold bind at 1. rewrite target_attribute_values_ok by done. fold view.
  rewrite matches_any. fold (some_match r view).
  destruct (some_match r view); [|done]. simpl.
  destruct (Rule.stop_after_match r); [done|].
  rewrite matches_keys. fold (match_set r view). unfold bind.
  by destruct (Rule.get_match_and_remainder _ _ _ _) as [[[? ?] ?]|].
Qed.

(** ** Fixtures of the test suite *)

Example create_good_data :
  create http_url GOOD_DATA ALL_AFFECTED_ENTITIES ALL_RELATED_HOST_ENTITIES empty_store
  = Ok (good_graph, good_store).
Proof. vm_compute. reflexivity. Qed.

Lemma good_graph_wf : graph_wf good_store good_graph.
Proof. split; apply (bool_decide_unpack _); vm_compute; exact I. Qed.

Lemma good_graph_tags_ok : tags_ok good_graph.
Proof. apply (bool_decide_unpack _); vm_compute; exact I. Qed.

Example good_graph_views :
  SecurityData.affected_entity_names good_graph = ["the_process_name1"; "the_process_name2"] ∧
  SecurityData.related_hostnames good_store good_graph = ["the_host_name1"; "the_host_name2"] ∧
  SecurityData.affected_entity_tags good_graph = Ok {["my_tag"]}.
Proof. repeat split; vm_compute; reflexivity. Qed.

(** ** The scenarios of the test suite *)

Example test_match_partial_match :
  hostname_rule_test "host1" "startswith" None false
  = Some (Some (["host1"], ["process1"; "process2"]), Some (["host2"], ["process3"])).
Proof. vm_compute. reflexivity. Qed.

Example test_stop_after_match :
  hostname_rule_test "host1" "startswith" None true
  = Some (Some (["host1"; "host2"], ["process1"; "process2"; "process3"]), None).
Proof. vm_compute. reflexivity. Qed.

Example test_match_no_match :
  hostname_rule_test "not_matching" "startswith" None false
  = Some (None, Some (["host1"; "host2"], ["process1"; "process2"; "process3"])).
Proof. vm_compute. reflexivity. Qed.

Example test_match_full_match :
  hostname_rule_test "host" "contains" None false
  = Some (Some (["host1"; "host2"], ["process1"; "process2"; "process3"]), Some ([], [])).
Proof. vm_compute. reflexivity. Qed.

Example test_minimum_score_equals :
  hostname_rule_test "host" "containsIgnoreCase" None false
  = Some (Some (["host1"; "host2"], ["process1"; "process2"; "process3"]), Some ([], [])).
Proof. vm_compute. reflexivity. Qed.

Example test_empty_string_match_works :
  hostname_rule_test "" "contains" None false
  = Some (Some (["host1"; "host2"], ["process1"; "process2"; "process3"]), Some ([], [])).
Proof. vm_compute. reflexivity. Qed.

Example test_minimum_score_too_low :
  hostname_rule_test "host" "containsIgnoreCase" (Some (PyFloat (53 # 10))) false
  = Some (None, Some (["host1"; "host2"], ["process1"; "process2"; "process3"])).
Proof. vm_compute. reflexivity. Qed.

Example test_minimum_score_higher :
  hostname_rule_test "host" "containsIgnoreCase" (Some (PyFloat (33 # 10))) false
  = Some (Some (["host1"; "host2"], ["process1"; "process2"; "process3"]), Some ([], [])).
Proof. vm_compute. reflexivity. Qed.

Example test_init_unsupported_operator :
  Rule.init Rule.HostnameRule (Some "random") "not_supported" None false {[ "foo" := "bar" ]}
  = Raise (ValueError "Rule: operator not supported: not_supported").
Proof. reflexivity. Qed.

(** tests/test_security_data.py *)
Example test_remove_affected_entities_by_name :
  (sd1 <- SecurityData.remove_affected_entities_by_name good_graph {["the_process_name1"]} true ;;
   sd2 <- SecurityData.remove_affected_entities_by_name sd1 {["the_process_name2"]} false ;;
   sd3 <- SecurityData.remove_affected_entities_by_name sd2 {["the_process_name1"]} false ;;
   ret (SecurityData.affected_entity_names sd1, SecurityData.affected_entity_names sd2,
        SecurityData.affected_entity_names sd3)) good_store
  = Ok ((["the_process_name2"], ["the_process_name2"], []), {| refs := ∅; next := 3 |}).
Proof. vm_compute. reflexivity. Qed.

Example test_remove_affected_entities_by_tags :
  (sd1 <- SecurityData.remove_affected_entities_by_tags good_graph {["my_tag"]} true ;;
   ret (SecurityData.affected_entity_names sd1)) good_store
  = Ok (["the_process_name2"], {| refs := {[ 2%positive := 1 ]}; next := 3 |}).
Proof. vm_compute. reflexivity. Qed.

Example test_remove_affected_entities_by_related_hostnames :
  (sd1 <- SecurityData.remove_affected_entities_by_related_hostnames
            good_graph {["the_host_name1"]} true ;;
   st1 <- get_store ;;
   sd2 <- SecurityData.remove_affected_entities_by_related_hostnames
            sd1 {["the_host_name2"]} false ;;
   st2 <- get_store ;;
   sd3 <- SecurityData.remove_affected_entities_by_related_hostnames
            sd2 {["the_host_name1"]} false ;;
   st3 <- get_store ;;
   ret (views st1 sd1, views st2 sd2, views st3 sd3)) good_store
  = Ok (((["the_host_name2"], ["the_process_name2"]),
         (["the_host_name2"], ["the_process_name2"]),
         ([], [])),
        {| refs := ∅; next := 3 |}).
Proof. vm_compute. reflexivity. Qed.

Example test_create_invalid_input :
  create http_url GOOD_DATA ALL_AFFECTED_ENTITIES ∅ empty_store
  = Raise (ValueError "SecurityData: missing data; 'the_host_id1'") ∧
  create http_url GOOD_DATA ∅ ALL_RELATED_HOST_ENTITIES empty_store
  = Raise (ValueError "SecurityData: missing data; 'the_process_id1'") ∧
  create http_url empty_record ALL_AFFECTED_ENTITIES ALL_RELATED_HOST_ENTITIES empty_store
  = Raise (ValueError "SecurityData: missing data; 'affectedEntities'").
Proof. repeat split; vm_compute; reflexivity. Qed.

(** ** SecurityData.create builds a well-formed graph *)

Lemma bind_Ok {A B} (m : M A) (k : A → M B) st b st'' :
  bind m k st = Ok (b, st'') → ∃ a st', m st = Ok (a, st') ∧ k a st' = Ok (b, st'').
Proof.
  unfold bind. destruct (m st) as [[a st']|e]; [|done]. intros Hk. eauto.
Qed.

Lemma require_Ok {A} key (o : option A) st a st' :
  require key o st = Ok (a, st') → o = Some a ∧ st' = st.
Proof. destruct o; [|done]. by intros [= -> ->]. Qed.

Lemma dict_get_Some {V} (k : string) (v : V) (d : list (string * V)) :
  NoDup (dict_keys d) → (dict_get k d = Some v ↔ (k, v) ∈ d).
Proof.
  unfold dict_keys. induction d as [|[k' v'] d IH]; intros Hnd; simpl.
  - split; [done|]. intros Hin. by apply elem_of_nil in Hin.
  - rewrite fmap_cons in Hnd. apply NoDup_cons in Hnd as [Hk' Hnd]. simpl in Hk'.
    rewrite elem_of_cons. destruct (decide (k = k')) as [->|Hne].
    + split.
      * intros [= ->]. by left.
      * intros [[= ->]|Hin]; [done|].
        exfalso. apply Hk'. by apply (list_elem_of_fmap_2 fst) in Hin.
    + rewrite (IH Hnd). split; [tauto|]. intros [[= -> ->]|Hin]; [done|done].
Qed.

Lemma dict_set_keys {V} (k : string) (v : V) (d : list (string * V)) :
  NoDup (dict_keys d) → NoDup (dict_keys (dict_set k v d)) ∧
  ∀ k', k' ∈ dict_keys (dict_set k v d) ↔ k' = k ∨ k' ∈ dict_keys d.
Proof.
  unfold dict_keys. induction d as [|[k0 v0] d IH]; intros Hnd.
  - simpl. split; [apply NoDup_singleton|]. intros k'.
    rewrite list_elem_of_singleton. split; [by left|]. intros [?|Hin]; [done|].
    by apply elem_of_nil in Hin.
  - rewrite fmap_cons in Hnd. apply NoDup_cons in Hnd as [Hk0 Hnd]. simpl in Hk0.
    cbn [dict_set]. destruct (decide (k = k0)) as [->|Hne].
    + rewrite !fmap_cons. simpl. split; [by apply NoDup_cons|].
      intros k'. rewrite !elem_of_cons. split; [intros [?|?]|intros [?|[?|?]]]; auto.
    + destruct (IH Hnd) as [IHnd IHin]. rewrite !fmap_cons. simpl. split.
      * apply NoDup_cons. split; [|done]. rewrite IHin. intros [?|?]; auto.
      * intros k'. rewrite !elem_of_cons, IHin.
        split; [intros [?|[?|?]]|intros [?|[?|?]]]; auto.
Qed.

Lemma dict_set_elem {V} (k : string) (v : V) (d : list (string * V)) k' v' :
  NoDup (dict_keys d) →
  ((k', v') ∈ dict_set k v d ↔ (k' = k ∧ v' = v) ∨ (k' ≠ k ∧ (k', v') ∈ d)).
Proof.
  unfold dict_keys. induction d as [|[k0 v0] d IH]; intros Hnd.
  - simpl. rewrite list_elem_of_singleton. split.
    + intros [= -> ->]. by left.
    + intros [[-> ->]|[_ Hin]]; [done|]. by apply elem_of_nil in Hin.
  - rewrite fmap_cons in Hnd. apply NoDup_cons in Hnd as [Hk0 Hnd]. simpl in Hk0.
    cbn [dict_set]. destruct (decide (k = k0)) as [->|Hne].
    + rewrite !elem_of_cons. split.
      * intros [[= -> ->]|Hin]; [by left|]. right. split; [|by right].
        intros ->. apply Hk0. by apply (list_elem_of_fmap_2 fst) in Hin.
      * intros [[-> ->]|[Hne [[= ? ?]|Hin]]]; [by left|done|by right].
    + rewrite !elem_of_cons, (IH Hnd). split.
      * intros [[= -> ->]|[?|[? ?]]]; [right; split; [done|by left]|by left|].
        right. split; [done|by right].
      * intros [?|[Hk [[= -> ->]|Hin]]]; [right; by left|by left|].
        right. right. done.
Qed.

Lemma decref_shared a st :
  refs st !! a = Some 2 → refs (decref a st) !! a = Some 1.
Proof. intros H. unfold decref. simpl. rewrite H. by rewrite lookup_insert_eq. Qed.

Lemma elem_of_dict_values {V} (v : V) (d : list (string * V)) :
  v ∈ dict_values d ↔ ∃ k, (k, v) ∈ d.
Proof.
  unfold dict_values. rewrite list_elem_of_fmap. split.
  - intros ([k v'] & -> & Hin). eauto.
  - intros (k & Hin). by exists (k, v).
Qed.

Lemma dict_of_entities_spec (rest done : list Ref) (d : list (string * Ref)) st :
  NoDup (addr_of <$> (done ++ rest)) → building done rest d st →
  ∃ d' st', dict_of_entities rest d st = Ok (d', st') ∧
    building (done ++ rest) [] d' st' ∧ next st' = next st ∧
    (∀ a, a ∉ addr_of <$> (done ++ rest) → refs st' !! a = refs st !! a).
Proof.
  revert done d st. induction rest as [|z rest IH]; intros done d st Hnd Hb.
  - exists d, st. rewrite app_nil_r. split; [done|]. split; [|done].
    destruct Hb. by split.
  - pose proof Hb as [Hkeys Hkeyed Hvalues Hin Hout Hrest].
    set (k := AffectedEntity.entity_id (obj z)).
    assert (Hinj : ∀ x y, x ∈ done ++ z :: rest → y ∈ done ++ z :: rest →
                           addr_of x = addr_of y → x = y).
    { intros x y. by apply NoDup_fmap_elem_inj. }
    assert (Hz : z ∈ done ++ z :: rest) by (apply elem_of_app; right; left).
    assert (Hdone : ∀ x, x ∈ done → x ∈ done ++ z :: rest)
      by (intros x ?; apply elem_of_app; by left).
    assert (Hzdone : ∀ x, x ∈ done → addr_of x ≠ addr_of z).
    { intros x Hx Heq. apply Hinj in Heq; [|by apply Hdone|done]. subst x.
      rewrite fmap_app, fmap_cons in Hnd. apply NoDup_app in Hnd as (_ & Hd & _).
      apply (Hd (addr_of z)); [by apply list_elem_of_fmap_2|left]. }
    assert (Hzrest : ∀ x, x ∈ rest → addr_of x ≠ addr_of z).
    { intros x Hx Heq.
      rewrite fmap_app, fmap_cons in Hnd. apply NoDup_app in Hnd as (_ & _ & Hd).
      apply NoDup_cons in Hd as [Hd _]. apply Hd. rewrite <- Heq.
      by apply list_elem_of_fmap_2. }
    assert (Hdr : ∀ x y, x ∈ done → y ∈ rest → addr_of x ≠ addr_of y).
    { intros x y Hx Hy Heq.
      rewrite fmap_app, fmap_cons in Hnd. apply NoDup_app in Hnd as (_ & Hd & _).
      apply (Hd (addr_of x)); [by apply list_elem_of_fmap_2|].
      right. rewrite Heq. by apply list_elem_of_fmap_2. }
    set (st1 := incref (addr_of z) st).
    set (st2 := match dict_get k d with
                | Some old => decref (addr_of old) st1
                | None => st1
                end).
    assert (Hrun : dict_of_entities (z :: rest) d st
                   = dict_of_entities rest (dict_set k z d) st2).
    { cbn [dict_of_entities]. fold k. unfold bind, modify. fold st1. unfold st2.
      by destruct (dict_get k d). }
    assert (Hst1z : refs st1 !! addr_of z = Some 2).
    { unfold st1. rewrite incref_same. rewrite (Hrest z); [done|left]. }
    assert (Hst1 : ∀ a, a ≠ addr_of z → refs st1 !! a = refs st !! a).
    { intros a Ha. unfold st1. by rewrite incref_other. }
    assert (Hold : ∀ old, dict_get k d = Some old → (k, old) ∈ d ∧ old ∈ done).
    { intros old Hg. apply dict_get_Some in Hg; [|done]. split; [done|].
      apply (Hvalues _ Hg). }
    assert (Hst2 : ∀ a, (∀ old, dict_get k d = Some old → a ≠ addr_of old) →
                        refs st2 !! a = refs st1 !! a).
    { intros a Ha. unfold st2. destruct (dict_get k d) as [old|]; [|done].
      rewrite decref_other; [done|]. intros Heq. by apply (Ha old). }
    assert (Hd' : ∀ k' v', (k', v') ∈ dict_set k z d
                           ↔ (k' = k ∧ v' = z) ∨ (k' ≠ k ∧ (k', v') ∈ d))
      by (intros; by apply dict_set_elem).
    destruct (IH (done ++ [z]) (dict_set k z d) st2) as (d' & st' & Hrun' & Hb' & Hn' & Hf').
    + by rewrite <- app_assoc.
    + split.
      * by apply dict_set_keys.
      * apply Forall_forall. intros [k' v'] [[-> ->]|[_ Hkv]]%Hd'; [done|].
        rewrite Forall_forall in Hkeyed. by apply Hkeyed.
      * intros [k' v'] [[-> ->]|[_ Hkv]]%Hd'; simpl.
        -- apply elem_of_app. right. left.
        -- apply elem_of_app. left. apply (Hvalues _ Hkv).
      * intros x Hx [k' Hkx]%elem_of_dict_values. apply Hd' in Hkx as [[-> ->]|[Hne Hkx]].
        -- rewrite Hst2; [done|]. intros old Hg. destruct (Hold old Hg) as [_ Ho].
           intros Heq. by apply (Hzdone old Ho).
        -- pose proof (Hvalues _ Hkx) as Hxd. simpl in Hxd.
           rewrite Hst2, Hst1.
           ++ apply Hin; [done|]. apply elem_of_dict_values. eauto.
           ++ by apply Hzdone.
           ++ intros old Hg. destruct (Hold old Hg) as [Hko Ho]. intros Heq.
              apply Hinj in Heq; [|by apply Hdone|by apply Hdone]. subst old.
              rewrite Forall_forall in Hkeyed.
              pose proof (Hkeyed _ Hkx) as E1. pose proof (Hkeyed _ Hko) as E2.
              simpl in E1, E2. congruence.
      * intros x Hx Hnot. apply elem_of_app in Hx as [Hx|Hx]; last first.
        { apply list_elem_of_singleton in Hx as ->. exfalso. apply Hnot.
          apply elem_of_dict_values. exists k. apply Hd'. by left. }
        destruct (decide (x ∈ dict_values d)) as [Hxd|Hxd].
        -- apply elem_of_dict_values in Hxd as [k' Hkx].
           destruct (decide (k' = k)) as [->|Hne].
           ++ assert (dict_get k d = Some x) as Hg by (by apply dict_get_Some).
              unfold st2. rewrite Hg. apply decref_shared.
              rewrite Hst1 by (by apply Hzdone). apply Hin; [done|].
              apply elem_of_dict_values. eauto.
           ++ exfalso. apply Hnot. apply elem_of_dict_values. exists k'.
              apply Hd'. by right.
        -- rewrite Hst2, Hst1.
           ++ by apply Hout.
           ++ by apply Hzdone.
           ++ intros old Hg. destruct (Hold old Hg) as [Hko Ho]. intros Heq.
              apply Hinj in Heq; [|by apply Hdone|by apply Hdone]. subst old.
              apply Hxd. apply elem_of_dict_values. eauto.
      * intros x Hx. rewrite Hst2, Hst1.
        -- apply Hrest. by right.
        -- by apply Hzrest.
        -- intros old Hg. destruct (Hold old Hg) as [_ Ho]. intros Heq.
           by apply (Hdr old x Ho Hx).
    + exists d', st'. rewrite Hrun. split; [done|].
      rewrite <- app_assoc in Hb', Hf'. split; [done|].
      split; [rewrite Hn'; unfold st2, st1; by destruct (dict_get k d)|].
      intros a Ha. rewrite Hf' by done.
      assert (a ≠ addr_of z).
      { intros ->. apply Ha. by apply list_elem_of_fmap_2. }
      rewrite Hst2, Hst1; [done|done|].
      intros old Hg. destruct (Hold old Hg) as [_ Ho]. intros ->.
      apply Ha. apply list_elem_of_fmap_2. by apply Hdone.
Qed.

Lemma decref_all (l : list positive) st :
  NoDup l →
  let st' := foldl (λ s a, decref a s) st l in
  next st' = next st ∧
  ∀ b, refs st' !! b =
       if decide (b ∈ l)
       then match refs st !! b with Some (S (S n)) => Some (S n) | _ => None end
       else refs st !! b.
Proof.
  revert st. induction l as [|a l IH]; intros st Hnd.
  - split; [done|]. intros b. cbn [foldl].
    rewrite decide_False; [done|apply not_elem_of_nil].
  - apply NoDup_cons in Hnd as [Ha Hnd]. cbn [foldl].
    destruct (IH (decref a st) Hnd) as [Hnext Hrefs].
    split; [by rewrite Hnext|]. intros b. rewrite Hrefs.
    destruct (decide (b = a)) as [->|Hne].
    + rewrite decide_False by done. rewrite decide_True by left.
      unfold decref. simpl. destruct (refs st !! a) as [[|[|n]]|] eqn:E.
      * by rewrite lookup_delete_eq.
      * by rewrite lookup_delete_eq.
      * by rewrite lookup_insert_eq.
      * by rewrite lookup_delete_eq.
    + rewrite decref_other by done.
      destruct (decide (b ∈ l)) as [Hb|Hb].
      * rewrite decide_True; [done|by right].
      * rewrite decide_False; [done|]. rewrite not_elem_of_cons. tauto.
Qed.

Lemma new_affected_entities_Ok aff ids st zs st' :
  new_affected_entities aff ids st = Ok (zs, st') →
  (next st ≤ next st')%positive ∧
  (∀ a, (a < next st)%positive → refs st' !! a = refs st !! a) ∧
  NoDup (addr_of <$> zs) ∧
  Forall (λ z, (next st ≤ addr_of z < next st')%positive ∧ refs st' !! addr_of z = Some 1) zs ∧
  Forall2 (λ x z, ∃ e, aff !! x = Some e ∧
                       obj z = AffectedEntity.mk (EntityDetails.entity_id e)
                                 (EntityDetails.entity_name e) (EntityDetails.tags e))
          ids zs ∧
  (store_wf st → store_wf st').
Proof.
  revert st zs st'. induction ids as [|x ids IH]; intros st zs st' Hrun.
  - injection Hrun as <- <-. split; [lia|]. split; [done|].
    split; [constructor|]. split; [constructor|]. split; [constructor|done].
  - cbn [new_affected_entities] in Hrun.
    apply bind_Ok in Hrun as (e & st0 & He & Hrun). apply require_Ok in He as [He ->].
    apply bind_Ok in Hrun as (z & st1 & Hz & Hrun).
    injection Hz as <- <-.
    apply bind_Ok in Hrun as (zs' & st2 & Hrec & Hrun).
    injection Hrun as <- <-.
    destruct (IH _ _ _ Hrec) as (Hn & Hf & Hnd & Hzs & Hobj & Hwf). simpl in Hn, Hf.
    assert (Hhead : refs st2 !! next st = Some 1).
    { rewrite Hf by lia. simpl. by rewrite lookup_insert_eq. }
    split; [lia|]. split; [|split; [|split; [|split]]].
    + intros a Ha. rewrite Hf by lia. simpl. by rewrite lookup_insert_ne by lia.
    + rewrite fmap_cons. apply NoDup_cons. split; [|done]. simpl.
      intros (y & Heq & Hy)%list_elem_of_fmap.
      rewrite Forall_forall in Hzs. destruct (Hzs y Hy) as [[Hlo _] _]. simpl in Hlo. lia.
    + constructor; [simpl; split; [lia|done]|].
      eapply Forall_impl; [exact Hzs|]. simpl. intros y [[? ?] ?]. split; [lia|done].
    + constructor; [|done]. exists e. done.
    + intros Hst. apply Hwf. intros a n. simpl. intros Ha.
      destruct (decide (a = next st)) as [->|Hne]; [lia|].
      rewrite lookup_insert_ne in Ha by done. specialize (Hst a n Ha). simpl in Hst. lia.
Qed.

Lemma host_members_Ok x zs st ms st' :
  host_members x zs st = Ok (ms, st') → st' = st ∧ ∀ r, r ∈ ms → r ∈ zs.
Proof.
  revert ms st'. induction zs as [|z zs IH]; intros ms st' Hrun.
  - injection Hrun as <- <-. split; [done|]. intros r Hr. by apply elem_of_nil in Hr.
  - cbn [host_members] in Hrun.
    apply bind_Ok in Hrun as (l & st0 & Hl & Hrun). apply require_Ok in Hl as [Hl ->].
    apply bind_Ok in Hrun as (ms' & st1 & Hrec & Hrun).
    destruct (IH _ _ Hrec) as [-> Hsub]. injection Hrun as <- <-. split; [done|].
    intros r Hr. destruct (decide _).
    + apply elem_of_cons in Hr as [->|Hr]; [left|right; by apply Hsub].
    + right. by apply Hsub.
Qed.

Lemma new_related_hosts_Ok tab zs hs st hs' st' :
  new_related_hosts tab zs hs st = Ok (hs', st') →
  st' = st ∧ Forall (λ h, ∀ r, r ∈ members_of h → r ∈ zs) hs'.
Proof.
  revert hs' st'. induction hs as [|x hs IH]; intros hs' st' Hrun.
  - injection Hrun as <- <-. split; [done|constructor].
  - cbn [new_related_hosts] in Hrun.
    apply bind_Ok in Hrun as (i & st0 & Hi & Hrun). apply require_Ok in Hi as [Hi ->].
    apply bind_Ok in Hrun as (e & st0 & He & Hrun). apply require_Ok in He as [He ->].
    apply bind_Ok in Hrun as (ms & st0 & Hms & Hrun).
    apply host_members_Ok in Hms as [-> Hsub].
    apply bind_Ok in Hrun as (hs0 & st1 & Hrec & Hrun).
    destruct (IH _ _ Hrec) as [-> Hall]. injection Hrun as <- <-. split; [done|].
    constructor; [|done]. exact Hsub.
Qed.

Lemma display_names_Ok l st ns st' : display_names l st = Ok (ns, st') → st' = st.
Proof.
  revert ns st'. induction l as [|x l IH]; intros ns st' Hrun.
  - by injection Hrun as <- <-.
  - cbn [display_names] in Hrun.
    apply bind_Ok in Hrun as (n & st0 & Hn & Hrun). apply require_Ok in Hn as [Hn ->].
    apply bind_Ok in Hrun as (ns' & st1 & Hrec & Hrun).
    apply IH in Hrec as ->. by injection Hrun as <- <-.
Qed.

Lemma foldl_decref_refs (zs : list Ref) st :
  foldl (λ s z, decref (addr_of z) s) st zs = foldl (λ s a, decref a s) st (addr_of <$> zs).
Proof. revert st. induction zs as [|z zs IH]; intros st; [done|]. simpl. apply IH. Qed.

Lemma create_data_Ok sp aff hosts st zs data st' :
  create_data sp aff hosts st = Ok ((zs, data), st') →
  ∃ ids st1,
    Raw.affectedEntities sp = Some ids ∧
    new_affected_entities aff ids st = Ok (zs, st1) ∧
    dict_of_entities zs [] st1 = Ok (SecurityData.affected_entities data, st') ∧
    Forall (λ h, ∀ r, r ∈ members_of h → r ∈ zs) (SecurityData.related_hosts data) ∧
    Raw.riskAssessment sp ≫= Raw.riskScore = Some (SecurityData.risk_score data).
Proof.
  unfold create_data. intros Hrun.
  apply bind_Ok in Hrun as (ids & st0 & Hids & Hrun). apply require_Ok in Hids as [Hids ->].
  apply bind_Ok in Hrun as (zs0 & st1 & Hzs & Hrun).
  apply bind_Ok in Hrun as (rel & st0 & Hrel & Hrun). apply require_Ok in Hrel as [Hrel ->].
  apply bind_Ok in Hrun as (hs & st0 & Hhs & Hrun). apply require_Ok in Hhs as [Hhs ->].
  apply bind_Ok in Hrun as (rh & st0 & Hrh & Hrun).
  apply new_related_hosts_Ok in Hrh as [-> Hmem].
  do 4 (apply bind_Ok in Hrun as (? & st0 & Hreq & Hrun);
        apply require_Ok in Hreq as [_ ->]).
  apply bind_Ok in Hrun as (risk & st0 & Hrisk & Hrun). apply require_Ok in Hrisk as [Hrisk ->].
  apply bind_Ok in Hrun as (score & st0 & Hscore & Hrun).
  apply require_Ok in Hscore as [Hscore ->].
  do 6 (apply bind_Ok in Hrun as (? & st0 & Hreq & Hrun);
        apply require_Ok in Hreq as [_ ->]).
  apply bind_Ok in Hrun as (ns & st0 & Hns & Hrun). apply display_names_Ok in Hns as ->.
  apply bind_Ok in Hrun as (d & st2 & Hd & Hrun).
  injection Hrun as <- <- <-. exists ids, st1. simpl.
  rewrite Hrisk. simpl. done.
Qed.

(** Whatever the record and the tables, a graph that [create] returns is
    well formed and has its risk score in range. *)
Lemma create_wf AnyHttpUrl sp aff hosts st sd st' :
  store_wf st → create AnyHttpUrl sp aff hosts st = Ok (sd, st') →
  graph_wf st' sd ∧ score_in_range sd.
Proof.
  intros Hst Hrun. unfold create in Hrun.
  apply bind_Ok in Hrun as ([zs data] & st1 & Hdata & Hrun).
  assert (Hdata' : create_data sp aff hosts st = Ok ((zs, data), st1)).
  { unfold missing_data in Hdata.
    destruct (create_data sp aff hosts st) as [?|[]]; done. }
  clear Hdata. apply create_data_Ok in Hdata' as (ids & sta & _ & Hnew & Hdict & Hmem & _).
  apply bind_Ok in Hrun as (sd0 & st2 & Hval & Hrun). simpl in Hval.
  apply bind_Ok in Hrun as ([] & st3 & Hrel & Hrun).
  injection Hrun as -> <-. injection Hrel as <-.
  unfold validate in Hval.
  destruct (negb (AnyHttpUrl (SecurityData.url data))); [done|].
  destruct (Qle_bool 0 (SecurityData.risk_score data)) eqn:E0; [|done].
  destruct (Qle_bool (SecurityData.risk_score data) 10) eqn:E10; [|done].
  injection Hval as <- <-. split; [|by split].
  destruct (new_affected_entities_Ok _ _ _ _ _ Hnew) as (Hn & Hf & Hnd & Hzs & _ & Hwfa).
  specialize (Hwfa Hst). rewrite Forall_forall in Hzs.
  destruct (dict_of_entities_spec zs [] [] sta) as (d & stb & Hrun & Hb & Hnb & Hfb).
  { done. }
  { split.
    - constructor.
    - constructor.
    - intros kv Hkv. by apply elem_of_nil in Hkv.
    - intros z Hz. by apply elem_of_nil in Hz.
    - intros z Hz. by apply elem_of_nil in Hz.
    - intros z Hz. by apply Hzs. }
  rewrite Hdict in Hrun. injection Hrun as <- <-. simpl in Hb, Hfb.
  destruct Hb as [Hkeys Hkeyed Hvalues Hin Hout _].
  set (d := SecurityData.affected_entities data) in *.
  rewrite foldl_decref_refs.
  destruct (decref_all (addr_of <$> zs) st1 Hnd) as [Hnext Hrefs].
  set (st' := foldl (λ s a, decref a s) st1 (addr_of <$> zs)) in *.
  assert (Hlive : ∀ z, z ∈ zs → z ∈ dict_values d → refs st' !! addr_of z = Some 1).
  { intros z Hz Hzd. rewrite Hrefs. rewrite decide_True by (by apply list_elem_of_fmap_2).
    by rewrite (Hin z Hz Hzd). }
  assert (Hdead : ∀ z, z ∈ zs → z ∉ dict_values d → refs st' !! addr_of z = None).
  { intros z Hz Hzd. rewrite Hrefs. rewrite decide_True by (by apply list_elem_of_fmap_2).
    by rewrite (Hout z Hz Hzd). }
  split; simpl.
  - intros a n Ha. rewrite Hnext, Hnb. rewrite Hrefs in Ha.
    destruct (decide (a ∈ addr_of <$> zs)) as [Hin'|Hnin].
    + apply list_elem_of_fmap in Hin' as (z & -> & Hz). by destruct (Hzs z Hz) as [[_ ?] _].
    + rewrite Hfb in Ha by done. by apply (Hwfa a n).
  - done.
  - done.
  - apply Forall_forall. intros kv Hkv. apply Hlive; [by apply Hvalues|].
    apply elem_of_dict_values. exists kv.1. by destruct kv.
  - unfold dict_values. rewrite <- list_fmap_compose.
    apply NoDup_fmap_2_strong; [|by apply (NoDup_fmap_1 fst)].
    intros [k1 v1] [k2 v2] H1 H2 Heq. simpl in Heq.
    assert (v1 = v2) as ->.
    { apply (NoDup_fmap_elem_inj addr_of zs); [done| | |done].
      - apply (Hvalues _ H1).
      - apply (Hvalues _ H2). }
    rewrite Forall_forall in Hkeyed.
    pose proof (Hkeyed _ H1) as E1. pose proof (Hkeyed _ H2) as E2. simpl in *. congruence.
  - eapply Forall_impl; [exact Hmem|]. simpl. intros h Hh.
    apply Forall_forall. intros r Hr Hal. specialize (Hh r Hr).
    destruct (decide (r ∈ dict_values d)) as [|Hnot]; [done|].
    unfold alive in Hal. rewrite (Hdead r Hh Hnot) in Hal. by destruct Hal.
  - eapply Forall_impl; [exact Hmem|]. simpl. intros h Hh.
    apply Forall_forall. intros r Hr. specialize (Hh r Hr).
    rewrite Hnext, Hnb. by destruct (Hzs r Hh) as [[_ ?] _].
Qed.

Example rule_process1_init :
  Rule.init Rule.AffectedEntityRule (Some "the_process_name1") "equals" None false
            {[ "foo" := "bar" ]}
  = Ok rule_process1.
Proof. reflexivity. Qed.

(** ** C1: partition completeness *)

(** C1. For every well-formed graph and every rule: when the threshold does
    not stop the rule and an element of the target view matches, a rule
    without [stop_after_match] returns a matched graph and a remainder whose
    affected-entity id sets are disjoint and together are the id set of the
    input; a rule with [stop_after_match] returns the input graph itself as
    matched and no remainder.  In every other case nothing is matched and
    the input graph is the remainder. *)
Theorem partition_completeness (r : Rule.t) (sd : SecurityData.t) (st : Store) :
  graph_wf st sd → tags_ok sd →
  let view := target_view (Rule.class r) st sd in
  (Rule.below_minimum_score r sd = false → some_match r view = true →
   Rule.stop_after_match r = false →
   ∃ matched remainder st',
     Rule.match_ r (Some sd) st = Ok ((Some matched, Some remainder), st') ∧
     affected_ids matched ## affected_ids remainder ∧
     affected_ids matched ∪ affected_ids remainder = affected_ids sd) ∧
  (Rule.below_minimum_score r sd = false → some_match r view = true →
   Rule.stop_after_match r = true →
   Rule.match_ r (Some sd) st = Ok ((Some sd, None), st)) ∧
  (Rule.below_minimum_score r sd = true ∨ some_match r view = false →
   Rule.match_ r (Some sd) st = Ok ((None, Some sd), st)).
Proof.
  intros Hwf Htags view. pose proof (match_spec r sd st Htags) as Hm.
  cbv zeta in Hm. fold view in Hm. repeat split.
  - intros Hb Hs Hstop. rewrite Hb, Hs, Hstop in Hm. simpl in Hm.
    destruct (get_match_and_remainder_spec (Rule.class r) sd (match_set r view) st Hwf Htags)
      as (m & rem & st' & Hrun & _ & _ & Hdisj & Hunion).
    rewrite Hrun in Hm. exists m, rem, st'. done.
  - intros Hb Hs Hstop. by rewrite Hb, Hs, Hstop in Hm.
  - intros [Hb|Hs]; rewrite Hm.
    + by rewrite Hb.
    + rewrite Hs. by destruct (Rule.below_minimum_score r sd).
Qed.

Lemma partition_completeness_witness :
  graph_wf good_store good_graph ∧ tags_ok good_graph ∧
  ∃ matched remainder st',
    Rule.match_ rule_process1 (Some good_graph) good_store
    = Ok ((Some matched, Some remainder), st') ∧
    affected_ids matched ## affected_ids remainder ∧
    affected_ids matched ∪ affected_ids remainder = affected_ids good_graph.
Proof.
  assert (Hwf : graph_wf good_store good_graph)
    by (split; apply (bool_decide_unpack _); vm_compute; exact I).
  assert (Ht : tags_ok good_graph) by (apply (bool_decide_unpack _); vm_compute; exact I).
  split; [exact Hwf|]. split; [exact Ht|].
  apply (partition_completeness rule_process1 good_graph good_store Hwf Ht); reflexivity.
Defined.

(** ** C2: cascade consistency *)

Lemma relation_subset st sd h :
  graph_wf st sd → h ∈ SecurityData.related_hosts sd →
  relation_ids st h ⊆ affected_ids sd.
Proof.
  intros [_ _ Hkeyed _ _ Hweak _] Hh k.
  unfold relation_ids, affected_ids. rewrite !elem_of_list_to_set.
  intros (r & -> & [Hal Hr]%list_elem_of_filter)%list_elem_of_fmap.
  rewrite Forall_forall in Hweak. specialize (Hweak h Hh).
  rewrite Forall_forall in Hweak. specialize (Hweak r Hr Hal).
  unfold dict_values in Hweak. apply list_elem_of_fmap in Hweak as ([k' r'] & -> & Hin).
  rewrite Forall_forall in Hkeyed. specialize (Hkeyed _ Hin). simpl in *.
  rewrite Hkeyed. by apply (list_elem_of_fmap_2 fst) in Hin.
Qed.

Lemma relation_nonempty st h :
  WeakSet_nonempty st (members_of h) ↔ relation_ids st h ≠ ∅.
Proof.
  unfold WeakSet_nonempty, relation_ids.
  destruct (WeakSet_iter st (members_of h)) as [|r l]; simpl.
  - split; [lia|done].
  - split; [|lia]. intros _. set_solver.
Qed.

(** C2, as the code has it.  After each of the three removals every
    remaining RelatedEntity's relation set is a subset of the remaining
    affected-entity id set.  The removal by related-host name also drops the
    RelatedEntities whose relation set is empty; the removals by name and by
    tag leave the sequence as it was, and a RelatedEntity whose relation set
    became empty is only left out of the [related_hostnames] view. *)
Theorem cascade_consistency (sd : SecurityData.t) (op : removal) (st : Store) :
  graph_wf st sd → tags_ok sd →
  ∃ sd' st', apply_removal sd op st = Ok (sd', st') ∧
    (∀ h, h ∈ SecurityData.related_hosts sd' → relation_ids st' h ⊆ affected_ids sd') ∧
    match op with
    | ByRelatedHostnames _ _ =>
        ∀ h, h ∈ SecurityData.related_hosts sd' → relation_ids st' h ≠ ∅
    | ByName _ _ | ByTags _ _ =>
        SecurityData.related_hosts sd' = SecurityData.related_hosts sd
    end ∧
    SecurityData.related_hostnames st' sd'
    = RelatedEntity.entity_name <$>
        filter (λ h, relation_ids st' h ≠ ∅) (SecurityData.related_hosts sd').
Proof.
  intros Hwf Htags.
  destruct (apply_removal_spec sd op st Hwf Htags) as (sd' & st' & Hrun & Hsh & _ & Hhosts).
  exists sd', st'. split; [done|]. split; [|split].
  - intros h Hh. apply relation_subset; [apply Hsh|done].
  - destruct op; try done. intros h Hh. rewrite Hhosts in Hh.
    apply list_elem_of_filter in Hh as [Hne _]. by apply relation_nonempty.
  - unfold SecurityData.related_hostnames. f_equal. apply filter_ext_in.
    intros h _. apply relation_nonempty.
Qed.

Lemma cascade_consistency_witness :
  graph_wf good_store good_graph ∧ tags_ok good_graph ∧
  ∃ sd' st',
    apply_removal good_graph (ByRelatedHostnames {["the_host_name1"]} true) good_store
    = Ok (sd', st') ∧
    (∀ h, h ∈ SecurityData.related_hosts sd' → relation_ids st' h ⊆ affected_ids sd') ∧
    (∀ h, h ∈ SecurityData.related_hosts sd' → relation_ids st' h ≠ ∅).
Proof.
  assert (Hwf : graph_wf good_store good_graph)
    by (split; apply (bool_decide_unpack _); vm_compute; exact I).
  assert (Ht : tags_ok good_graph) by (apply (bool_decide_unpack _); vm_compute; exact I).
  split; [exact Hwf|]. split; [exact Ht|].
  destruct (cascade_consistency good_graph (ByRelatedHostnames {["the_host_name1"]} true)
              good_store Hwf Ht) as (sd' & st' & Hrun & Hsub & Hne & _).
  exists sd', st'. auto.
Defined.

(** After [remove_affected_entities_by_name({'the_process_name1'}, True)] on
    the graph of [GOOD_DATA], the host that ran the removed process is still
    in [related_hosts], with an empty relation set. *)
Lemma cascade_counterexample :
  ∃ sd' st',
    SecurityData.remove_affected_entities_by_name good_graph {["the_process_name1"]} true
      good_store = Ok (sd', st') ∧
    relation_ids good_store host1 = {["the_process_id1"]} ∧
    host1 ∈ SecurityData.related_hosts sd' ∧
    relation_ids st' host1 = ∅ ∧
    SecurityData.related_hostnames st' sd' = ["the_host_name2"].
Proof.
  eexists _, _. split; [vm_compute; reflexivity|].
  split; [vm_compute; reflexivity|]. split; [left|].
  split; vm_compute; reflexivity.
Qed.

(** ** C5: the removal complement law *)

(** C5. On every well-formed graph and for every name set [S] (non-empty
    and meeting the graph's names, or not), removing by name with
    [remove_matches=true] and then, on the result, with
    [remove_matches=false] leaves an empty affected-entity mapping. *)
Theorem removal_complement (sd : SecurityData.t) (names : gset string) (st : Store) :
  graph_wf st sd →
  ∃ sd1 st1 sd2 st2,
    SecurityData.remove_affected_entities_by_name sd names true st = Ok (sd1, st1) ∧
    SecurityData.remove_affected_entities_by_name sd1 names false st1 = Ok (sd2, st2) ∧
    SecurityData.affected_entities sd2 = [].
Proof.
  intros Hwf.
  destruct (remove_by_name_spec sd names true st Hwf) as (st1 & Hrun1 & Hfreed1).
  cbv zeta in Hrun1, Hfreed1.
  set (P := λ r, AffectedEntity.entity_name (obj r) ∈ names) in *.
  set (d := SecurityData.affected_entities sd) in *.
  set (sd1 := SecurityData.with_entities (filter (λ kv, bool_decide (P kv.2) ≠ true) d)
                (SecurityData.related_hosts sd) sd) in *.
  assert (Hwf1 : graph_wf st1 sd1).
  { eapply (graph_wf_restrict _ (λ kv, bool_decide (P kv.2) = true)); [done| |exact Hfreed1|done].
    intros kv _. apply bool_decide_drop_keep. }
  destruct (remove_by_name_spec sd1 names false st1 Hwf1) as (st2 & Hrun2 & _).
  eexists sd1, st1, _, st2. split; [exact Hrun1|]. split; [exact Hrun2|].
  simpl. apply filter_none. apply Forall_forall.
  intros kv [Hk _]%list_elem_of_filter. simpl in *. intros Hq.
  destruct (bool_decide _); congruence.
Qed.

Lemma removal_complement_witness :
  graph_wf good_store good_graph ∧
  ∃ sd1 st1 sd2 st2,
    SecurityData.remove_affected_entities_by_name
      good_graph {["the_process_name1"]} true good_store = Ok (sd1, st1) ∧
    SecurityData.remove_affected_entities_by_name
      sd1 {["the_process_name1"]} false st1 = Ok (sd2, st2) ∧
    SecurityData.affected_entities sd2 = [].
Proof.
  assert (Hwf : graph_wf good_store good_graph)
    by (split; apply (bool_decide_unpack _); vm_compute; exact I).
  split; [exact Hwf|].
  exact (removal_complement good_graph {["the_process_name1"]} good_store Hwf).
Defined.

(** ** C3: clone independence *)

Lemma clone_members_alive sd st h :
  graph_wf st sd → h ∈ SecurityData.related_hosts sd →
  WeakSet_iter (store_cloned st sd) (members_of (copy_host (clone_memo st sd) st h))
  = members_of (copy_host (clone_memo st sd) st h).
Proof.
  intros Hwf Hh. unfold WeakSet_iter. apply filter_all.
  unfold members_of. simpl. apply Forall_fmap. apply Forall_forall.
  intros x [Hal Hx]%list_elem_of_filter. simpl.
  destruct Hwf as [Hst Hkeys Hkeyed Hown Haddrs Hweak Hbound].
  rewrite Forall_forall in Hweak. specialize (Hweak h Hh).
  rewrite Forall_forall in Hweak. specialize (Hweak x Hx Hal).
  unfold dict_values in Hweak. apply list_elem_of_fmap in Hweak as (kv & -> & Hkv).
  assert ((kv.1, cp (clone_memo st sd) kv.2)
            ∈ fresh_dict (next st) (SecurityData.affected_entities sd)) as Hf.
  { rewrite (fresh_dict_cp _ _ [] Haddrs). apply list_elem_of_fmap. by exists kv. }
  destruct (store_cloned_fresh sd st _ Hf) as [_ Hone]. simpl in Hone.
  unfold alive. by rewrite Hone.
Qed.

(** C3. [copy.deepcopy] of a well-formed graph returns a graph with the same
    ids and field values held by new instances: no address the clone
    mentions is one the source mentions, every member of a clone's WeakSet
    is an instance of the clone's own mapping, and each related entity of
    the clone shows the relation set of the one it copies.  Whatever
    removals are then applied to the clone, the source is unchanged, and
    whatever removals are applied to the source, the clone is unchanged. *)
Theorem clone_independence (sd : SecurityData.t) (st : Store) :
  graph_wf st sd → tags_ok sd →
  ∃ c st1,
    deepcopy sd st = Ok (c, st1) ∧
    graph_wf st1 c ∧
    dict_keys (SecurityData.affected_entities c) = dict_keys (SecurityData.affected_entities sd) ∧
    obj <$> dict_values (SecurityData.affected_entities c)
      = obj <$> dict_values (SecurityData.affected_entities sd) ∧
    (∀ a, a ∈ footprint c → a ∉ footprint sd) ∧
    (∀ h r, h ∈ SecurityData.related_hosts c → r ∈ members_of h →
            r ∈ dict_values (SecurityData.affected_entities c)) ∧
    Forall2 (λ h h', RelatedEntity.entity_id h' = RelatedEntity.entity_id h ∧
                     RelatedEntity.entity_name h' = RelatedEntity.entity_name h ∧
                     relation_ids st1 h' = relation_ids st h)
            (SecurityData.related_hosts sd) (SecurityData.related_hosts c) ∧
    unchanged st st1 sd ∧
    (∀ ops, ∃ c' st2, apply_removals c ops st1 = Ok (c', st2) ∧ unchanged st1 st2 sd) ∧
    (∀ ops, ∃ sd' st2, apply_removals sd ops st1 = Ok (sd', st2) ∧ unchanged st1 st2 c).
Proof.
  intros Hwf Htags. exists (clone_of st sd), (store_cloned st sd).
  pose proof (clone_wf sd st Hwf) as Hwfc.
  pose proof (source_wf_after_clone sd st Hwf) as Hwf1.
  assert (Hold : ∀ a, a ∈ footprint sd → (a < next st)%positive)
    by (intros a; apply source_footprint_old, Hwf).
  assert (Hnew : ∀ a, a ∈ footprint (clone_of st sd) → (next st ≤ a)%positive)
    by (intros a; apply clone_footprint_fresh, Hwf).
  split; [by apply deepcopy_spec|]. split; [done|].
  split; [apply fresh_dict_keys|]. split; [apply fresh_dict_objs|].
  split; [intros a Ha Ha'; specialize (Hold a Ha'); specialize (Hnew a Ha); lia|].
  split; [|split; [|split; [|split]]].
  - intros h r Hh Hr. pose proof Hwfc as [_ _ _ _ _ Hweak _].
    rewrite Forall_forall in Hweak. specialize (Hweak h Hh).
    rewrite Forall_forall in Hweak. apply (Hweak r Hr).
    simpl in Hh. apply list_elem_of_fmap in Hh as (h0 & -> & Hh0).
    pose proof (clone_members_alive sd st h0 Hwf Hh0) as Hal.
    rewrite <- Hal in Hr. by apply list_elem_of_filter in Hr as [? _].
  - simpl. apply Forall2_fmap_r. apply Forall_Forall2_diag. apply Forall_forall.
    intros h Hh. split; [done|]. split; [done|].
    unfold relation_ids. rewrite (clone_members_alive sd st h Hwf Hh).
    unfold members_of at 1. simpl. rewrite <- list_fmap_compose. f_equal.
    apply list_fmap_ext. intros i x Hx. simpl. apply list_elem_of_lookup_2 in Hx.
    apply list_elem_of_filter in Hx as [Hal Hx].
    pose proof Hwf as [_ _ _ _ _ Hweak _].
    rewrite Forall_forall in Hweak. specialize (Hweak h Hh).
    rewrite Forall_forall in Hweak. specialize (Hweak x Hx Hal).
    unfold dict_values in Hweak. apply list_elem_of_fmap in Hweak as (kv & -> & Hkv).
    by rewrite (cp_obj sd st kv Hwf Hkv).
  - split; [done|]. split.
    + intros a Ha. apply store_cloned_frame. by apply Hold.
    + apply Forall_forall. intros h Hh. apply WeakSet_iter_agree.
      intros r Hr. apply store_cloned_frame. apply Hold.
      apply elem_of_footprint. right. eauto.
  - intros ops.
    destruct (apply_removals_shrinks ops (clone_of st sd) (store_cloned st sd) Hwfc
                (tags_ok_clone sd st Hwf Htags)) as (c' & st2 & Hrun & Hsh).
    exists c', st2. split; [done|]. apply (shrinks_frame _ _ _ _ sd Hsh Hwf1).
    intros a Ha Hin. specialize (Hold a Ha).
    assert (a ∈ footprint (clone_of st sd)) as Hc by (apply elem_of_footprint; by left).
    specialize (Hnew a Hc). lia.
  - intros ops.
    destruct (apply_removals_shrinks ops sd (store_cloned st sd) Hwf1 Htags)
      as (sd' & st2 & Hrun & Hsh).
    exists sd', st2. split; [done|]. apply (shrinks_frame _ _ _ _ (clone_of st sd) Hsh Hwfc).
    intros a Ha Hin. specialize (Hnew a Ha).
    assert (a ∈ footprint sd) as Hs by (apply elem_of_footprint; by left).
    specialize (Hold a Hs). lia.
Qed.

Lemma clone_independence_witness :
  ∃ c st1,
    deepcopy good_graph good_store = Ok (c, st1) ∧
    (∀ a, a ∈ footprint c → a ∉ footprint good_graph) ∧
    ∃ c' st2,
      apply_removals c [ByName {["the_process_name1"]} true;
                        ByRelatedHostnames {["the_host_name2"]} true] st1 = Ok (c', st2) ∧
      unchanged st1 st2 good_graph.
Proof.
  assert (Hwf : graph_wf good_store good_graph)
    by (split; apply (bool_decide_unpack _); vm_compute; exact I).
  assert (Ht : tags_ok good_graph) by (apply (bool_decide_unpack _); vm_compute; exact I).
  destruct (clone_independence good_graph good_store Hwf Ht)
    as (c & st1 & Hrun & _ & _ & _ & Hfresh & _ & _ & _ & Hops & _).
  exists c, st1. split; [exact Hrun|]. split; [exact Hfresh|]. apply Hops.
Defined.

(** ** C6: the threshold boundary *)

Lemma below_minimum_score_equal r m sd :
  Rule.minimum_score r = Some m → (to_Q m == SecurityData.risk_score sd)%Q →
  Rule.below_minimum_score r sd = false.
Proof.
  intros Hm Heq. unfold Rule.below_minimum_score, Qlt_bool. rewrite Hm.
  assert (Qle_bool (to_Q m) (SecurityData.risk_score sd) = true) as ->.
  { apply Qle_bool_iff. rewrite Heq. apply Qle_refl. }
  apply andb_false_r.
Qed.

Lemma below_minimum_score_greater r m sd :
  score_in_range sd →
  Rule.minimum_score r = Some m → (SecurityData.risk_score sd < to_Q m)%Q →
  Rule.below_minimum_score r sd = true.
Proof.
  intros [Hlo _] Hm Hlt. unfold Rule.below_minimum_score, Qlt_bool. rewrite Hm.
  apply Qle_bool_iff in Hlo. apply andb_true_iff. split; apply negb_true_iff.
  - destruct (Qeq_bool (to_Q m) 0) eqn:E; [|done].
    apply Qeq_bool_iff in E. rewrite E in Hlt. by apply Qlt_not_le in Hlt.
  - destruct (Qle_bool (to_Q m) (SecurityData.risk_score sd)) eqn:E; [|done].
    apply Qle_bool_iff in E. by apply Qlt_not_le in Hlt.
Qed.

(** C6. The minimum score is an inclusive lower bound.  A rule whose
    [minimum_score] equals the graph's [risk_score] goes on to evaluate the
    target view: it returns a matched graph when an element matches, and the
    graph as remainder when none does.  A rule whose [minimum_score] is
    strictly greater returns no match and the graph itself, the store
    untouched. *)
Theorem threshold_boundary (r : Rule.t) (m : number) (sd : SecurityData.t) (st : Store) :
  graph_wf st sd → tags_ok sd → score_in_range sd →
  Rule.minimum_score r = Some m →
  ((to_Q m == SecurityData.risk_score sd)%Q →
   Rule.below_minimum_score r sd = false ∧
   (some_match r (target_view (Rule.class r) st sd) = true →
    ∃ matched remainder st',
      Rule.match_ r (Some sd) st = Ok ((Some matched, remainder), st')) ∧
   (some_match r (target_view (Rule.class r) st sd) = false →
    Rule.match_ r (Some sd) st = Ok ((None, Some sd), st))) ∧
  ((SecurityData.risk_score sd < to_Q m)%Q →
   Rule.match_ r (Some sd) st = Ok ((None, Some sd), st)).
Proof.
  intros Hwf Htags Hrange Hm.
  destruct (partition_completeness r sd st Hwf Htags) as (Hpart & Hstop & Hnone).
  split.
  - intros Heq. pose proof (below_minimum_score_equal r m sd Hm Heq) as Hb.
    split; [done|]. split.
    + intros Hs. destruct (Rule.stop_after_match r) eqn:Es.
      * exists sd, None, st. by apply Hstop.
      * destruct (Hpart Hb Hs eq_refl) as (ma & re & st' & Hrun & _). eauto.
    + intros Hs. apply Hnone. by right.
  - intros Hlt. apply Hnone. left. by apply (below_minimum_score_greater r m sd).
Qed.

Lemma threshold_boundary_witness :
  (∃ matched remainder st',
     Rule.match_ (rule_host_at (PyFloat (92 # 10))) (Some good_graph) good_store
     = Ok ((Some matched, remainder), st')) ∧
  Rule.match_ (rule_host_at (PyInt 10)) (Some good_graph) good_store
  = Ok ((None, Some good_graph), good_store).
Proof.
  assert (Hwf : graph_wf good_store good_graph)
    by (split; apply (bool_decide_unpack _); vm_compute; exact I).
  assert (Ht : tags_ok good_graph) by (apply (bool_decide_unpack _); vm_compute; exact I).
  assert (Hr : score_in_range good_graph) by (split; reflexivity).
  split.
  - apply (threshold_boundary (rule_host_at (PyFloat (92 # 10))) (PyFloat (92 # 10))
             good_graph good_store Hwf Ht Hr eq_refl); reflexivity.
  - apply (threshold_boundary (rule_host_at (PyInt 10)) (PyInt 10)
             good_graph good_store Hwf Ht Hr eq_refl); reflexivity.
Defined.

(** ** C10: a minimum score of zero *)

(** C10. A minimum score of [0] or [0.0] is falsy, so both checks pass it
    by: construction skips the range check and succeeds or fails as it does
    without a minimum score, and [match] never returns at the threshold
    step; it returns what the same rule without a minimum score returns. *)
Theorem zero_minimum_score (z : number) :
  (to_Q z == 0)%Q →
  Rule.minimum_score_rejected (Some z) = false ∧
  (∀ c value operator stop params,
     Rule.init c value operator (Some z) stop params
     = match Rule.init c value operator None stop params with
       | Ok r => Ok (with_minimum_score (Some z) r)
       | Raise e => Raise e
       end) ∧
  (∀ r sd st,
     Rule.minimum_score r = Some z →
     (∀ g, Rule.below_minimum_score r g = false) ∧
     Rule.match_ r sd st = Rule.match_ (with_minimum_score None r) sd st).
Proof.
  intros Hz. apply Qeq_bool_iff in Hz.
  assert (Hrej : Rule.minimum_score_rejected (Some z) = false).
  { unfold Rule.minimum_score_rejected. by rewrite Hz. }
  split; [done|]. split.
  - intros c value operator stop params. unfold Rule.init. rewrite Hrej. simpl.
    destruct value as [v|]; [|done].
    destruct (decide (operator = "")); [done|].
    destruct (decide (params = ∅)); [done|].
    by destruct (dict_get operator (Rule.supported_operators c)).
  - intros r sd st Hm.
    assert (Hb : ∀ g, Rule.below_minimum_score r g = false).
    { intros g. unfold Rule.below_minimum_score. by rewrite Hm, Hz. }
    split; [done|]. destruct sd as [g|]; [|done].
    unfold Rule.match_. rewrite Hb. reflexivity.
Qed.

Lemma zero_minimum_score_witness :
  Rule.minimum_score_rejected (Some (PyFloat 0)) = false ∧
  Rule.match_ (rule_host_at (PyFloat 0)) (Some good_graph) good_store
  = Rule.match_ (with_minimum_score None (rule_host_at (PyFloat 0))) (Some good_graph) good_store.
Proof.
  destruct (zero_minimum_score (PyFloat 0)) as (Hrej & _ & Hmatch); [reflexivity|].
  split; [exact Hrej|].
  apply (Hmatch (rule_host_at (PyFloat 0)) (Some good_graph) good_store eq_refl).
Defined.

(** ** C7: rule construction *)




(** [Rule.create] adds three checks of its own and then calls the
    constructor of the class the type names. *)
Lemma rule_create_init (rule : Rule.config) ty c value operator params :
  Rule.cfg_type rule = Some ty → dict_get ty Rule.supported_rule_types = Some c →
  Rule.cfg_value rule = Some value → Rule.cfg_operator rule = Some operator →
  Rule.cfg_params rule = Some params →
  Rule.create rule
  = Rule.init c value operator (Rule.cfg_minimumScore rule)
      (default false (Rule.cfg_stopAfterMatch rule)) params.
Proof. intros Hty Hc Hv Ho Hp. unfold Rule.create. by rewrite Hty, Hc, Hv, Ho, Hp. Qed.

Lemma rule_create_rejects (rule : Rule.config) :
  Rule.cfg_type rule = None ∨
  (∃ ty, Rule.cfg_type rule = Some ty ∧ dict_get ty Rule.supported_rule_types = None) ∨
  Rule.cfg_value rule = None ∨ Rule.cfg_operator rule = None ∨ Rule.cfg_params rule = None →
  ∃ msg, Rule.create rule = Raise (ValueError msg).
Proof.
  unfold Rule.create. intros [Hty|[(ty & Hty & Hc)|Hrest]].
  - rewrite Hty. eauto.
  - rewrite Hty, Hc. eauto.
  - destruct (Rule.cfg_type rule) as [ty|]; [|eauto].
    destruct (dict_get ty Rule.supported_rule_types) as [c|]; [|eauto].
    destruct Hrest as [->|[H|H]].
    + eauto.
    + rewrite H. destruct (Rule.cfg_value rule); eauto.
    + rewrite H. destruct (Rule.cfg_value rule), (Rule.cfg_operator rule); eauto.
Qed.

(** ** C8: the empty pattern *)

Lemma empty_pattern (candidate : string) :
  operators.startswith candidate "" = true ∧
  operators.startswith_ignore_case candidate "" = true ∧
  operators.contains candidate "" = true ∧
  operators.contains_ignore_case candidate "" = true.
Proof.
  unfold operators.startswith_ignore_case, operators.contains_ignore_case, operators.startswith.
  repeat split.
  - by destruct candidate.
  - by destruct (operators.lower candidate).
  - by destruct candidate.
  - by destruct (operators.lower candidate).
Qed.

(** A rule with the empty value and the contains operator, built by the
    constructor, does not match the graph of [GOOD_DATA], whose related
    host names are not empty: the graph's risk score 9.2 is below the
    rule's minimum score 10. *)
Lemma catch_all_counterexample :
  Rule.init Rule.HostnameRule (Some "") "contains" (Some (PyInt 10)) false {[ "foo" := "bar" ]}
  = Ok catch_all_above ∧
  SecurityData.related_hostnames good_store good_graph = ["the_host_name1"; "the_host_name2"] ∧
  Rule.match_ catch_all_above (Some good_graph) good_store
  = Ok ((None, Some good_graph), good_store).
Proof. repeat split; vm_compute; reflexivity. Qed.

(** C8, as the code has it.  With the empty string as pattern the
    starts-with and contains operators, and their ignoring-case variants,
    hold for every candidate.  So a rule built with the empty value and one
    of these operators matches every well-formed graph whose target view is
    not empty, unless the graph's risk score is below the rule's minimum
    score. *)
Theorem empty_pattern_catch_all :
  (∀ candidate,
     operators.startswith candidate "" = true ∧
     operators.startswith_ignore_case candidate "" = true ∧
     operators.contains candidate "" = true ∧
     operators.contains_ignore_case candidate "" = true) ∧
  (∀ c operator minimum_score stop params r sd st,
     operator ∈ ["startswith"; "startswithIgnoreCase"; "contains"; "containsIgnoreCase"] →
     Rule.init c (Some "") operator minimum_score stop params = Ok r →
     graph_wf st sd → tags_ok sd →
     target_view c st sd ≠ [] →
     Rule.below_minimum_score r sd = false →
     ∃ matched remainder st',
       Rule.match_ r (Some sd) st = Ok ((Some matched, remainder), st')).
Proof.
  split; [apply empty_pattern|].
  intros c operator minimum_score stop params r sd st Hop Hinit Hwf Htags Hview Hb.
  assert (Hr : Rule.class r = c ∧ Rule.value r = "" ∧
               ∀ x, Rule.eval_function r x "" = true).
  { unfold Rule.init in Hinit.
    destruct (decide (operator = "")); [done|].
    destruct (Rule.minimum_score_rejected minimum_score); [done|].
    destruct (decide (params = ∅)); [done|].
    destruct (dict_get operator (Rule.supported_operators c)) as [f|] eqn:Ef; [|done].
    injection Hinit as <-. simpl. split; [done|]. split; [done|]. intros x.
    destruct (empty_pattern x) as (H1 & H2 & H3 & H4).
    repeat (apply elem_of_cons in Hop as [->|Hop]);
      [| | | |by apply elem_of_nil in Hop];
      destruct c; injection Ef as <-; done. }
  destruct Hr as (Hc & Hv & Hf).
  assert (Hs : some_match r (target_view (Rule.class r) st sd) = true).
  { unfold some_match. rewrite Hc, Hv.
    destruct (target_view c st sd) as [|x l]; [done|]. simpl. by rewrite Hf. }
  destruct (partition_completeness r sd st Hwf Htags) as (Hpart & Hstop & _).
  destruct (Rule.stop_after_match r) eqn:Es.
  - exists sd, None, st. by apply Hstop.
  - destruct (Hpart Hb Hs eq_refl) as (ma & re & st' & Hrun & _). eauto.
Qed.

Lemma empty_pattern_catch_all_witness :
  ∃ matched remainder st',
    Rule.match_ catch_all (Some good_graph) good_store = Ok ((Some matched, remainder), st').
Proof.
  assert (Hwf : graph_wf good_store good_graph)
    by (split; apply (bool_decide_unpack _); vm_compute; exact I).
  assert (Ht : tags_ok good_graph) by (apply (bool_decide_unpack _); vm_compute; exact I).
  apply (proj2 empty_pattern_catch_all Rule.HostnameRule "contains" None false
           {[ "foo" := "bar" ]} catch_all good_graph good_store).
  - apply (bool_decide_unpack _); vm_compute; exact I.
  - reflexivity.
  - exact Hwf.
  - exact Ht.
  - vm_compute. discriminate.
  - reflexivity.
Defined.

(** ** C9: the rule id *)










Example hex_id_rule_process1 (str_float : Q → string) :
  Rule.hex_id str_float rule_process1 = "e1f9da".
Proof. vm_compute. reflexivity. Qed.

(** ** C4: construction and missing data *)

(** ** Surplus entries of the lookup tables *)

Lemma bind_step {A B} (m : M A) (k : A → M B) st a st' :
  m st = Ok (a, st') → bind m k st = k a st'.
Proof. unfold bind. by intros ->. Qed.

Lemma new_affected_entities_mono (aff aff' : gmap string EntityDetails.t) ids st r :
  aff ⊆ aff' →
  new_affected_entities aff ids st = Ok r → new_affected_entities aff' ids st = Ok r.
Proof.
  intros Hsub. revert st r. induction ids as [|x ids IH]; intros st [zs st'] Hrun; [done|].
  cbn [new_affected_entities] in *.
  apply bind_Ok in Hrun as (e & st0 & He & Hrun). apply require_Ok in He as [He ->].
  rewrite (lookup_weaken _ _ _ _ He Hsub). cbn [require]. unfold bind at 1, ret at 1.
  apply bind_Ok in Hrun as (z & st1 & Hz & Hrun). rewrite (bind_step _ _ _ _ _ Hz).
  apply bind_Ok in Hrun as (zs' & st2 & Hrec & Hrun).
  by rewrite (bind_step _ _ _ _ _ (IH _ _ Hrec)).
Qed.

Lemma new_related_hosts_mono (tab tab' : gmap string EntityDetails.t) zs hs st r :
  tab ⊆ tab' →
  new_related_hosts tab zs hs st = Ok r → new_related_hosts tab' zs hs st = Ok r.
Proof.
  intros Hsub. revert st r. induction hs as [|x hs IH]; intros st [hs' st'] Hrun; [done|].
  cbn [new_related_hosts] in *.
  apply bind_Ok in Hrun as (i & st0 & Hi & Hrun). rewrite (bind_step _ _ _ _ _ Hi).
  apply require_Ok in Hi as [Hi ->].
  apply bind_Ok in Hrun as (e & st0 & He & Hrun). apply require_Ok in He as [He ->].
  rewrite (lookup_weaken _ _ _ _ He Hsub). cbn [require]. unfold bind at 1, ret at 1.
  apply bind_Ok in Hrun as (ms & st1 & Hms & Hrun). rewrite (bind_step _ _ _ _ _ Hms).
  apply bind_Ok in Hrun as (hs0 & st2 & Hrec & Hrun).
  by rewrite (bind_step _ _ _ _ _ (IH _ _ Hrec)).
Qed.

Lemma create_data_mono sp (aff aff' hosts hosts' : gmap string EntityDetails.t) st r :
  aff ⊆ aff' → hosts ⊆ hosts' →
  create_data sp aff hosts st = Ok r → create_data sp aff' hosts' st = Ok r.
Proof.
  intros Ha Hh Hrun. destruct r as [x st']. unfold create_data in *.
  apply bind_Ok in Hrun as (ids & st0 & Hs & Hrun). rewrite (bind_step _ _ _ _ _ Hs).
  apply bind_Ok in Hrun as (zs & st1 & Hzs & Hrun).
  rewrite (bind_step _ _ _ _ _ (new_affected_entities_mono _ _ _ _ _ Ha Hzs)).
  do 2 (apply bind_Ok in Hrun as (? & ? & Hs' & Hrun); rewrite (bind_step _ _ _ _ _ Hs');
        clear Hs').
  apply bind_Ok in Hrun as (rh & st2 & Hrh & Hrun).
  rewrite (bind_step _ _ _ _ _ (new_related_hosts_mono _ _ _ _ _ _ Hh Hrh)).
  exact Hrun.
Qed.

(** Entries of the lookup tables beyond those the record needs change
    nothing: what [create] returns with the smaller tables it returns with
    the larger ones. *)
Lemma create_surplus AnyHttpUrl sp (aff aff' hosts hosts' : gmap string EntityDetails.t) st r :
  aff ⊆ aff' → hosts ⊆ hosts' →
  create AnyHttpUrl sp aff hosts st = Ok r → create AnyHttpUrl sp aff' hosts' st = Ok r.
Proof.
  intros Ha Hh Hrun. unfold create in *. unfold bind at 1 in Hrun. unfold bind at 1.
  unfold missing_data in *.
  destruct (create_data sp aff hosts st) as [x|e] eqn:E; [|by destruct e].
  by rewrite (create_data_mono _ _ _ _ _ _ _ Ha Hh E).
Qed.

(** The entities of a graph that [create] returns are those the record's
    affected-entity list names, as the lookup table describes them. *)
Lemma create_only_referenced AnyHttpUrl sp aff hosts st sd st' :
  create AnyHttpUrl sp aff hosts st = Ok (sd, st') →
  ∃ ids, Raw.affectedEntities sp = Some ids ∧
    ∀ k r, (k, r) ∈ SecurityData.affected_entities sd →
      ∃ x e, x ∈ ids ∧ aff !! x = Some e ∧ k = EntityDetails.entity_id e ∧
             obj r = AffectedEntity.mk (EntityDetails.entity_id e)
                       (EntityDetails.entity_name e) (EntityDetails.tags e).
Proof.
  intros Hrun. unfold create in Hrun.
  apply bind_Ok in Hrun as ([zs data] & st1 & Hdata & Hrun).
  assert (Hdata' : create_data sp aff hosts st = Ok ((zs, data), st1)).
  { unfold missing_data in Hdata.
    destruct (create_data sp aff hosts st) as [?|[]]; done. }
  clear Hdata. apply create_data_Ok in Hdata' as (ids & sta & Hids & Hnew & Hdict & _ & _).
  apply bind_Ok in Hrun as (sd0 & st2 & Hval & Hrun). simpl in Hval.
  apply bind_Ok in Hrun as ([] & st3 & _ & Hrun). injection Hrun as -> _.
  unfold validate in Hval.
  destruct (negb (AnyHttpUrl (SecurityData.url data))); [done|].
  destruct (negb _); [done|]. injection Hval as <- _. simpl.
  exists ids. split; [done|]. intros k r Hkr.
  destruct (new_affected_entities_Ok _ _ _ _ _ Hnew) as (_ & _ & Hnd & Hzs & Hobj & _).
  destruct (dict_of_entities_spec zs [] [] sta) as (d & stb & Hrun & Hb & _).
  { done. }
  { split.
    - constructor.
    - constructor.
    - intros kv Hkv. by apply elem_of_nil in Hkv.
    - intros z Hz. by apply elem_of_nil in Hz.
    - intros z Hz. by apply elem_of_nil in Hz.
    - intros z Hz. rewrite Forall_forall in Hzs. by apply Hzs. }
  rewrite Hdict in Hrun. injection Hrun as <- _. simpl in Hb.
  destruct Hb as [_ Hkeyed Hvalues _ _ _].
  pose proof (Hvalues _ Hkr) as Hr. simpl in Hr.
  apply list_elem_of_lookup in Hr as [i Hi].
  destruct (Forall2_lookup_r _ _ _ _ _ Hobj Hi) as (x & Hx & e & He & Ho).
  exists x, e. split; [by eapply list_elem_of_lookup_2|]. split; [done|].
  split; [|done]. rewrite Forall_forall in Hkeyed. specialize (Hkeyed _ Hkr).
  simpl in Hkeyed. rewrite <- Hkeyed, Ho. done.
Qed.

(** ** When [create] reports missing data *)

Lemma only_KeyError_ret {A} (a : A) : only_KeyError (ret a).
Proof. by intros st e. Qed.

Lemma only_KeyError_require {A} key (o : option A) : only_KeyError (require key o).
Proof. intros st e. destruct o; [done|]. intros [= <-]. eauto. Qed.

Lemma only_KeyError_bind {A B} (m : M A) (k : A → M B) :
  only_KeyError m → (∀ a, only_KeyError (k a)) → only_KeyError (bind m k).
Proof.
  intros Hm Hk st e. unfold bind. destruct (m st) as [[a st']|e'] eqn:E.
  - apply Hk.
  - intros [= <-]. by apply (Hm st).
Qed.

Lemma only_KeyError_modify f : only_KeyError (modify f).
Proof. by intros st e. Qed.

Lemma only_KeyError_new_affected_entities aff ids :
  only_KeyError (new_affected_entities aff ids).
Proof.
  induction ids as [|x ids IH]; [apply only_KeyError_ret|].
  cbn [new_affected_entities].
  apply only_KeyError_bind; [apply only_KeyError_require|]. intros e.
  apply only_KeyError_bind; [by intros st e'|]. intros z.
  apply only_KeyError_bind; [done|]. intros zs. apply only_KeyError_ret.
Qed.

Lemma only_KeyError_host_members x zs : only_KeyError (host_members x zs).
Proof.
  induction zs as [|z zs IH]; [apply only_KeyError_ret|].
  cbn [host_members].
  apply only_KeyError_bind; [apply only_KeyError_require|]. intros l.
  apply only_KeyError_bind; [done|]. intros ms. apply only_KeyError_ret.
Qed.

Lemma only_KeyError_new_related_hosts tab zs hs :
  only_KeyError (new_related_hosts tab zs hs).
Proof.
  induction hs as [|x hs IH]; [apply only_KeyError_ret|].
  cbn [new_related_hosts].
  apply only_KeyError_bind; [apply only_KeyError_require|]. intros i.
  apply only_KeyError_bind; [apply only_KeyError_require|]. intros e.
  apply only_KeyError_bind; [apply only_KeyError_host_members|]. intros ms.
  apply only_KeyError_bind; [done|]. intros hs'. apply only_KeyError_ret.
Qed.

Lemma only_KeyError_display_names l : only_KeyError (display_names l).
Proof.
  induction l as [|x l IH]; [apply only_KeyError_ret|].
  cbn [display_names].
  apply only_KeyError_bind; [apply only_KeyError_require|]. intros n.
  apply only_KeyError_bind; [done|]. intros ns. apply only_KeyError_ret.
Qed.

Lemma only_KeyError_dict_of_entities l d : only_KeyError (dict_of_entities l d).
Proof.
  revert d. induction l as [|x l IH]; intros d; [apply only_KeyError_ret|].
  cbn [dict_of_entities].
  apply only_KeyError_bind; [apply only_KeyError_modify|]. intros _.
  apply only_KeyError_bind; [|intros _; apply IH].
  destruct (dict_get _ d); [apply only_KeyError_modify|apply only_KeyError_ret].
Qed.

Lemma only_KeyError_create_data sp aff hosts : only_KeyError (create_data sp aff hosts).
Proof.
  unfold create_data.
  repeat first
    [ apply only_KeyError_ret
    | apply only_KeyError_bind;
      [ first [ apply only_KeyError_require
              | apply only_KeyError_new_affected_entities
              | apply only_KeyError_new_related_hosts
              | apply only_KeyError_display_names
              | apply only_KeyError_dict_of_entities ]
      | intros ? ] ].
Qed.

Lemma new_affected_entities_total aff ids st :
  Forall (λ x, is_Some (aff !! x)) ids →
  ∃ zs st', new_affected_entities aff ids st = Ok (zs, st').
Proof.
  intros Hall. revert st. induction Hall as [|x ids [e He] _ IH]; intros st.
  - by exists [], st.
  - cbn [new_affected_entities]. rewrite He. cbn [require]. unfold bind at 1, ret at 1.
    unfold bind at 1. cbn [alloc].
    destruct (IH {| refs := <[next st:=1]> (refs st); next := Pos.succ (next st) |})
      as (zs & st' & Hrec).
    unfold bind at 1. rewrite Hrec. eauto.
Qed.

Lemma host_members_total x zs st :
  zs = [] ∨ is_Some (Raw.host_affectedEntities x) →
  ∃ ms, host_members x zs st = Ok (ms, st).
Proof.
  intros [->|[l Hl]]; [by exists []|].
  induction zs as [|z zs [ms IH]]; [by exists []|].
  cbn [host_members]. rewrite Hl. cbn [require]. unfold bind at 1, ret at 1.
  unfold bind at 1. rewrite IH. eauto.
Qed.

Lemma new_related_hosts_total tab zs hs st :
  Forall (λ x, (∃ i, Raw.id x = Some i ∧ is_Some (tab !! i)) ∧
               (zs = [] ∨ is_Some (Raw.host_affectedEntities x))) hs →
  ∃ hs', new_related_hosts tab zs hs st = Ok (hs', st).
Proof.
  induction 1 as [|x hs [(i & Hi & e & He) Hl] _ [hs' IH]]; [by exists []|].
  cbn [new_related_hosts]. rewrite Hi. cbn [require]. unfold bind at 1, ret at 1.
  rewrite He. cbn [require]. unfold bind at 1, ret at 1.
  destruct (host_members_total x zs st Hl) as [ms Hms].
  unfold bind at 1. rewrite Hms. unfold bind at 1. rewrite IH. eauto.
Qed.

Lemma display_names_total l st :
  Forall (λ c, is_Some (Raw.displayName c)) l → ∃ ns, display_names l st = Ok (ns, st).
Proof.
  induction 1 as [|x l [n Hn] _ [ns IH]]; [by exists []|].
  cbn [display_names]. rewrite Hn. cbn [require]. unfold bind at 1, ret at 1.
  unfold bind at 1. rewrite IH. eauto.
Qed.

Lemma dict_of_entities_total l d st : ∃ d' st', dict_of_entities l d st = Ok (d', st').
Proof.
  revert d st. induction l as [|x l IH]; intros d st; [by exists d, st|].
  cbn [dict_of_entities]. unfold bind at 1, modify at 1. unfold bind at 1.
  destruct (dict_get _ d); apply IH.
Qed.

Lemma host_members_readable x zs st r :
  host_members x zs st = Ok r → zs = [] ∨ is_Some (Raw.host_affectedEntities x).
Proof.
  destruct zs as [|z zs]; [by left|]. destruct r as [ms st']. cbn [host_members].
  intros Hrun. apply bind_Ok in Hrun as (l & st0 & Hl & _).
  apply require_Ok in Hl as [Hl _]. right. eauto.
Qed.

Lemma new_related_hosts_readable tab zs hs st r :
  new_related_hosts tab zs hs st = Ok r →
  Forall (λ x, (∃ i, Raw.id x = Some i ∧ is_Some (tab !! i)) ∧
               (zs = [] ∨ is_Some (Raw.host_affectedEntities x))) hs.
Proof.
  revert st r. induction hs as [|x hs IH]; intros st [hs' st'] Hrun; [constructor|].
  cbn [new_related_hosts] in Hrun.
  apply bind_Ok in Hrun as (i & st0 & Hi & Hrun). apply require_Ok in Hi as [Hi ->].
  apply bind_Ok in Hrun as (e & st0 & He & Hrun). apply require_Ok in He as [He ->].
  apply bind_Ok in Hrun as (ms & st0 & Hms & Hrun).
  apply bind_Ok in Hrun as (hs0 & st1 & Hrec & _).
  constructor; [|by eapply IH]. split; [eauto|]. by eapply host_members_readable.
Qed.

Lemma display_names_readable l st r :
  display_names l st = Ok r → Forall (λ c, is_Some (Raw.displayName c)) l.
Proof.
  revert st r. induction l as [|x l IH]; intros st [ns st'] Hrun; [constructor|].
  cbn [display_names] in Hrun.
  apply bind_Ok in Hrun as (n & st0 & Hn & Hrun). apply require_Ok in Hn as [Hn ->].
  apply bind_Ok in Hrun as (ns' & st1 & Hrec & _).
  constructor; [eauto|by eapply IH].
Qed.

Lemma create_data_readable sp aff hosts st :
  is_ok (create_data sp aff hosts st) = true ↔ readable sp aff hosts.
Proof.
  split.
  - destruct (create_data sp aff hosts st) as [[[zs data] st']|] eqn:Hrun; [|done].
    intros _. unfold create_data in Hrun.
    apply bind_Ok in Hrun as (ids & st0 & Hids & Hrun). apply require_Ok in Hids as [Hids ->].
    apply bind_Ok in Hrun as (zs0 & st1 & Hzs & Hrun).
    apply bind_Ok in Hrun as (rel & st0 & Hrel & Hrun). apply require_Ok in Hrel as [Hrel ->].
    apply bind_Ok in Hrun as (hs & st0 & Hhs & Hrun). apply require_Ok in Hhs as [Hhs ->].
    apply bind_Ok in Hrun as (rh & st0 & Hrh & Hrun).
    pose proof (new_related_hosts_readable _ _ _ _ _ Hrh) as Hhosts.
    apply new_related_hosts_Ok in Hrh as [-> _].
    apply bind_Ok in Hrun as (? & st0 & H1 & Hrun). apply require_Ok in H1 as [H1 ->].
    apply bind_Ok in Hrun as (? & st0 & H2 & Hrun). apply require_Ok in H2 as [H2 ->].
    apply bind_Ok in Hrun as (? & st0 & H3 & Hrun). apply require_Ok in H3 as [H3 ->].
    apply bind_Ok in Hrun as (? & st0 & H4 & Hrun). apply require_Ok in H4 as [H4 ->].
    apply bind_Ok in Hrun as (risk & st0 & H5 & Hrun). apply require_Ok in H5 as [H5 ->].
    apply bind_Ok in Hrun as (? & st0 & H6 & Hrun). apply require_Ok in H6 as [H6 ->].
    apply bind_Ok in Hrun as (? & st0 & H7 & Hrun). apply require_Ok in H7 as [H7 ->].
    apply bind_Ok in Hrun as (? & st0 & H8 & Hrun). apply require_Ok in H8 as [H8 ->].
    apply bind_Ok in Hrun as (? & st0 & H9 & Hrun). apply require_Ok in H9 as [H9 ->].
    apply bind_Ok in Hrun as (? & st0 & H10 & Hrun). apply require_Ok in H10 as [H10 ->].
    apply bind_Ok in Hrun as (? & st0 & H11 & Hrun). apply require_Ok in H11 as [H11 ->].
    apply bind_Ok in Hrun as (comps & st0 & H12 & Hrun). apply require_Ok in H12 as [H12 ->].
    apply bind_Ok in Hrun as (ns & st0 & Hns & _).
    apply display_names_readable in Hns.
    destruct (new_affected_entities_Ok _ _ _ _ _ Hzs) as (_ & _ & _ & _ & Hobj & _).
    exists ids, rel, hs, risk, comps. repeat split; eauto.
    + apply Forall_forall. intros y Hy. apply list_elem_of_lookup in Hy as [i Hi].
      destruct (Forall2_lookup_l _ _ _ _ _ Hobj Hi) as (z & _ & e & He & _). eauto.
    + eapply Forall_impl; [exact Hhosts|]. simpl. intros y [Hid [->|Hl]]; (split; [done|]).
      * left. apply Forall2_length in Hobj. by destruct ids.
      * by right.
  - intros (ids & rel & hs & risk & comps & Hids & Haff & Hrel & Hhs & Hhosts &
            [? H1] & [? H2] & [? H3] & [? H4] & Hrisk & [? H6] & [? H7] & [? H8] & [? H9] &
            [? H10] & [? H11] & Hcomps & Hnames).
    unfold create_data.
    rewrite Hids. cbn [require]. unfold bind at 1, ret at 1.
    destruct (new_affected_entities_total aff ids st Haff) as (zs & st1 & Hzs).
    unfold bind at 1. rewrite Hzs.
    rewrite Hrel. cbn [require]. unfold bind at 1, ret at 1.
    rewrite Hhs. cbn [require]. unfold bind at 1, ret at 1.
    destruct (new_related_hosts_total hosts zs hs st1) as (hs' & Hrh).
    { eapply Forall_impl; [exact Hhosts|]. simpl. intros y [Hid [->|Hl]]; (split; [done|]).
      - left. destruct (new_affected_entities_Ok _ _ _ _ _ Hzs) as (_ & _ & _ & _ & Hobj & _).
        apply Forall2_length in Hobj. by destruct zs.
      - by right. }
    unfold bind at 1. rewrite Hrh.
    rewrite H1, H2, H3, H4, Hrisk. cbn [require]. unfold bind at 1 2 3 4 5, ret at 1 2 3 4 5.
    rewrite H6, H7, H8, H9, H10, H11, Hcomps. cbn [require].
    unfold bind at 1 2 3 4 5 6 7, ret at 1 2 3 4 5 6 7.
    destruct (display_names_total comps st1 Hnames) as (ns & Hns).
    unfold bind at 1. rewrite Hns.
    destruct (dict_of_entities_total zs [] st1) as (d & st2 & Hd).
    unfold bind at 1. rewrite Hd. done.
Qed.

(** [create] raises the missing-data [ValueError] exactly when the record
    or a table lacks something [create] reads. *)
Lemma create_missing_data AnyHttpUrl sp aff hosts st :
  (∃ msg, create AnyHttpUrl sp aff hosts st = Raise (ValueError msg)) ↔
  ¬ readable sp aff hosts.
Proof.
  rewrite <- (create_data_readable sp aff hosts st). unfold create, missing_data.
  unfold bind at 1. destruct (create_data sp aff hosts st) as [[[zs data] st1]|e] eqn:E.
  - simpl. split; [|done]. intros [msg Hrun]. exfalso.
    unfold bind, validate in Hrun.
    destruct (negb (AnyHttpUrl _)); [done|]. by destruct (negb _).
  - simpl. split; [done|]. intros _.
    destruct (only_KeyError_create_data sp aff hosts st e E) as [k ->]. eauto.
Qed.

(** C4, where the code departs from it.  A related host without its
    ['affectedEntities'] list makes [create] fail with the missing-data
    error when the record lists an affected entity, as the claim says; when
    the record's affected-entity list is empty the key is never read, and
    [create] returns a graph. *)
Theorem create_skips_host_list :
  create http_url (host_without_list ["the_process_id1"])
         ALL_AFFECTED_ENTITIES ALL_RELATED_HOST_ENTITIES empty_store
  = Raise (ValueError "SecurityData: missing data; 'affectedEntities'") ∧
  ∃ sd, create http_url (host_without_list [])
               ALL_AFFECTED_ENTITIES ALL_RELATED_HOST_ENTITIES empty_store
        = Ok (sd, empty_store) ∧
        SecurityData.affected_entities sd = [] ∧
        SecurityData.related_hosts sd = [RelatedEntity.mk "the_host_id1" "the_host_name1" []].
Proof.
  split; [vm_compute; reflexivity|].
  eexists. split; [vm_compute; reflexivity|]. split; reflexivity.
Qed.
